(** * ARC scoring engine: normalizer, aggregator, quintiles and governance

    A shallow embedding of
    - [scoring/normalizer.py]  (winsorize, robust_zscore, zscore_to_0_100,
      normalize_signal),
    - [scoring/aggregator.py]  (aggregate_weighted, apply_risk_penalties,
      get_quintile, add_quintiles),
    - [recalculate_quintiles.py] (calculate_quintiles),
    - [governance/governance.py] (VersionManager: the configuration hash
      on JSON documents, the version files on Python values whose dict
      keys need not be strings),
    together with the properties the specification states about them.
    Further modules embed [check_coverage], [ScoreValidator] and
    [RegressionTester.compare_to_baseline], the normalization and
    aggregation layers of [cli/main.py], [zscore_normalize] of
    [quality_score_correct.py] and of [institutional_scoring_engine.py],
    and [feature_engineering/piotroski.py].

    Numbers.  A Python float is modelled as an exact rational, and NaN as
    [None]: a column of a DataFrame is a [list (option Q)].  Rounding,
    overflow and the infinite values of binary64 are outside the model.  Two library functions of
    SciPy and NumPy have no rational counterpart and are taken as
    parameters: [norm_cdf] (the standard normal distribution function) and
    [sqrt].  Equality of numbers is [Qeq], written [==].  A division of
    rationals by zero gives zero; the code guards each of its divisions
    (a scale floored at [1e-6], a positive total weight, a non-zero standard
    deviation, a non-empty group), so none is taken at zero. *)

From stdpp Require Import base gmap strings.
From Stdlib Require Import String Ascii DecimalString OrderedTypeEx.
From Stdlib Require Import QArith Qminmax Qabs Qround ZArith Bool Lia Lqa.
From Stdlib Require Import Permutation Sorted Morphisms List.
Import ListNotations.
Open Scope Q_scope.

(** ** Python and pandas primitives *)

Module Py.

(** The exceptions the modelled code can raise. *)
Inductive exn : Type :=
| ValueError
| KeyError
| TypeError
| FileNotFoundError.

Inductive result (A : Type) : Type :=
| Ok (a : A)
| Raise (e : exn).
Arguments Ok {A} a.
Arguments Raise {A} e.

Definition bind {A B : Type} (k : A -> result B) (r : result A) : result B :=
  match r with
  | Ok a => k a
  | Raise e => Raise e
  end.

#[export] Instance result_ret : MRet result := @Ok.
#[export] Instance result_bind : MBind result := @bind.

(** [for x in xs: ys.append(f x)], stopping at the first exception. *)
Fixpoint for_each {A B : Type} (f : A -> result B) (xs : list A)
  : result (list B) :=
  match xs with
  | [] => Ok []
  | x :: xs' =>
      y ← f x; ys ← for_each f xs'; Ok (y :: ys)
  end.

(** [series.unique()] and [drop_duplicates()]: the distinct values in order
    of first appearance. *)
Fixpoint unique_by {A : Type} (eqb : A -> A -> bool) (l : list A) : list A :=
  match l with
  | [] => []
  | x :: l' => x :: List.filter (fun y => negb (eqb y x)) (unique_by eqb l')
  end.

(** [x < y] on floats that are not NaN. *)
Definition Qlt_bool (x y : Q) : bool := negb (Qle_bool y x).

(** Python's builtin [max(a, b)] on floats: [b if b > a else a].  A NaN in
    first position is returned, since [b > nan] is false. *)
Definition max2 (a : option Q) (b : Q) : option Q :=
  match a with
  | None => None
  | Some x => Some (if Qlt_bool x b then b else x)
  end.

(** Python's builtin [min(a, b)]: [b if b < a else a]. *)
Definition min2 (a b : Q) : Q := if Qlt_bool b a then b else a.

(** [dict.get(key, default)] on an optional field. *)
Definition get {A : Type} (field : option A) (default : A) : A :=
  match field with
  | Some a => a
  | None => default
  end.

End Py.

Export Py.

Module Series.

(** [series.dropna()] *)
Fixpoint dropna (s : list (option Q)) : list Q :=
  match s with
  | [] => []
  | Some x :: s' => x :: dropna s'
  | None :: s' => dropna s'
  end.

Fixpoint insert_sorted (x : Q) (l : list Q) : list Q :=
  match l with
  | [] => [x]
  | y :: l' => if Qle_bool x y then x :: l else y :: insert_sorted x l'
  end.

Fixpoint sort (l : list Q) : list Q :=
  match l with
  | [] => []
  | x :: l' => insert_sorted x (sort l')
  end.

Fixpoint sum (l : list Q) : Q :=
  match l with
  | [] => 0
  | x :: l' => x + sum l'
  end.

Definition count (l : list Q) : Q := inject_Z (Z.of_nat (length l)).

(** Linear interpolation between the two order statistics around the
    position [q * (n - 1)] (NumPy's default [linear] method). *)
Definition interpolate (sorted : list Q) (q : Q) : Q :=
  let h := q * (count sorted - 1) in
  let lo := Z.to_nat (Qfloor h) in
  let hi := Nat.min (S lo) (length sorted - 1) in
  let frac := h - inject_Z (Qfloor h) in
  nth lo sorted 0 + (nth hi sorted 0 - nth lo sorted 0) * frac.

(** [series.quantile(q)]: a [ValueError] when [q] is outside [0, 1]; NaN
    on a series without valid values; NaN entries are skipped. *)
Definition quantile (s : list (option Q)) (q : Q) : Py.result (option Q) :=
  if Qle_bool 0 q && Qle_bool q 1 then
    match dropna s with
    | [] => Py.Ok None
    | v => Py.Ok (Some (interpolate (sort v) q))
    end
  else Py.Raise Py.ValueError.

(** [series.median()], NaN entries skipped. *)
Definition median (s : list (option Q)) : option Q :=
  match dropna s with
  | [] => None
  | v =>
      let sorted := sort v in
      let n := length sorted in
      if Nat.even n
      then Some ((nth (n / 2 - 1) sorted 0 + nth (n / 2) sorted 0) / 2)
      else Some (nth (n / 2) sorted 0)
  end.

(** [series.mean()], NaN entries skipped. *)
Definition mean (s : list (option Q)) : option Q :=
  match dropna s with
  | [] => None
  | v => Some (sum v / count v)
  end.

(** [series.max()], NaN entries skipped. *)
Definition max (s : list (option Q)) : option Q :=
  match dropna s with
  | [] => None
  | x :: v => Some (fold_left Qmax v x)
  end.

(** [series.std()]: the sample standard deviation (one degree of freedom
    removed), NaN with fewer than two valid values. *)
Definition std (sqrt : Q -> Q) (s : list (option Q)) : option Q :=
  match dropna s with
  | [] | [_] => None
  | v =>
      let m := sum v / count v in
      Some (sqrt (sum (map (fun x => (x - m) * (x - m)) v) / (count v - 1)))
  end.

(** [series.clip(lower, upper)] with scalar bounds: pandas orders the two
    bounds first, and a NaN bound does not clip. *)
Definition clip (s : list (option Q)) (lower upper : option Q)
  : list (option Q) :=
  match lower, upper with
  | Some l, Some u =>
      map (option_map (fun x => Qmax (Qmin l u) (Qmin x (Qmax l u)))) s
  | Some l, None => map (option_map (fun x => Qmax l x)) s
  | None, Some u => map (option_map (fun x => Qmin x u)) s
  | None, None => s
  end.

(** [series - c], [series.abs()], [series / c], [series * c] *)
Definition sub (s : list (option Q)) (c : option Q) : list (option Q) :=
  map (fun x => match x, c with Some a, Some b => Some (a - b) | _, _ => None end) s.

Definition abs (s : list (option Q)) : list (option Q) :=
  map (option_map Qabs) s.

Definition div (s : list (option Q)) (c : option Q) : list (option Q) :=
  map (fun x => match x, c with Some a, Some b => Some (a / b) | _, _ => None end) s.

Definition mul (s : list (option Q)) (c : Q) : list (option Q) :=
  map (option_map (fun x => x * c)) s.

End Series.

(** ** The configuration *)

Module Config.

(** The configuration document, as the engine reads it.  Every key is read
    with [dict.get] and a default, so every field is optional; a field that
    is [None] stands for a key missing at any level of its path. *)

(** [signal_name: {weight, direction}] *)
Record signal_config : Type := mk_signal {
  weight : option Q;
  direction : option Z
}.

(** [subblock_name: {weight, signals}] *)
Record subblock_config : Type := mk_subblock {
  subblock_weight : option Q;
  subblock_signals : option (list (string * signal_config))
}.

(** [block: {signals, subblocks, conversion}] *)
Record block_config : Type := mk_block {
  signals : option (list (string * signal_config));
  subblocks : option (list (string * subblock_config));
  conversion : option string
}.

(** One entry of [risk_penalties.soft_penalties]. *)
Record penalty_config : Type := mk_penalty {
  affected_scores : option (list string);
  threshold_percentile : option Q;
  max_penalty : option Q
}.

Record config : Type := mk_config {
  cfg_contrarian : option block_config;
  cfg_turnaround : option block_config;
  cfg_piotroski : option block_config;
  cfg_quality : option block_config;
  (** [normalization.winsorize.p_low], [.p_high], [normalization.z_score.use_robust] *)
  cfg_p_low : option Q;
  cfg_p_high : option Q;
  cfg_use_robust : option bool;
  (** [risk_penalties.soft_penalties] *)
  cfg_soft_penalties : option (list (string * penalty_config))
}.

(** [config.get(block, {})] *)
Definition empty_block : block_config := mk_block None None None.

End Config.

(** ** scoring/normalizer.py *)

Module Normalizer.

Export Config.

(** One row of the raw signal table: columns [date], [ticker],
    [signal_name], [value_raw]. *)
Record raw_signal : Type := mk_raw {
  rs_date : Z;
  rs_ticker : string;
  rs_signal_name : string;
  rs_value_raw : option Q
}.

(** One row of the normalized table: the raw columns and the three the
    normalizer adds. *)
Record normalized_signal : Type := mk_norm {
  date : Z;
  ticker : string;
  signal_name : string;
  value_raw : option Q;
  value_winsorized : option Q;
  value_zscore : option Q;
  value_normalized : option Q
}.

(** [df['date'].unique()] *)
Definition unique (l : list Z) : list Z := unique_by Z.eqb l.

Definition winsorize (series : list (option Q)) (p_low p_high : Q)
  : result (list (option Q)) :=
  lower ← Series.quantile series p_low;
  upper ← Series.quantile series p_high;
  Ok (Series.clip series lower upper).

Definition mad_min_default : Q := 0.000001.

Section WithLibm.

Variable norm_cdf : Q -> Q.
Variable sqrt : Q -> Q.

(** The centre of [robust_zscore]: the median or the mean. *)
Definition zscore_center (series : list (option Q)) (use_robust : bool)
  : option Q :=
  if use_robust then Series.median series else Series.mean series.

(** The scale of [robust_zscore]: [max(mad * 1.4826, mad_min)] or
    [max(series.std(), mad_min)]. *)
Definition zscore_scale (series : list (option Q)) (use_robust : bool)
  (mad_min : Q) : option Q :=
  if use_robust then
    let center := Series.median series in
    let mad := Series.median (Series.abs (Series.sub series center)) in
    max2 (option_map (fun m => m * 1.4826) mad) mad_min
  else
    max2 (Series.std sqrt series) mad_min.

Definition robust_zscore (series : list (option Q)) (use_robust : bool)
  (mad_min : Q) : list (option Q) :=
  Series.div
    (Series.sub series (zscore_center series use_robust))
    (zscore_scale series use_robust mad_min).

Definition zscore_to_0_100 (zscore : list (option Q)) : list (option Q) :=
  map (option_map (fun z => norm_cdf z * 100)) zscore.

(** Adding the three columns to the rows of a frame. *)
Fixpoint assign (rows : list raw_signal) (w z n : list (option Q))
  : list normalized_signal :=
  match rows, w, z, n with
  | r :: rows', wi :: w', zi :: z', ni :: n' =>
      mk_norm (rs_date r) (rs_ticker r) (rs_signal_name r) (rs_value_raw r)
        wi zi ni :: assign rows' w' z' n'
  | _, _, _, _ => []
  end.

(** The four steps of [normalize_signal] on one frame: the rows of one
    date when [cross_sectional], all rows of the signal otherwise. *)
Definition normalize_frame (frame : list raw_signal) (direction : Z)
  (winsorize_pct : Q * Q) (use_robust : bool)
  : result (list normalized_signal) :=
  value_winsorized ← winsorize (map rs_value_raw frame)
                       (fst winsorize_pct) (snd winsorize_pct);
  let value_zscore := robust_zscore value_winsorized use_robust mad_min_default in
  let value_zscore := Series.mul value_zscore (inject_Z direction) in
  let value_normalized := zscore_to_0_100 value_zscore in
  Ok (assign frame value_winsorized value_zscore value_normalized).

Definition normalize_signal (df_signals : list raw_signal)
  (signal_name : string) (direction : Z) (winsorize_pct : Q * Q)
  (use_robust : bool) (cross_sectional : bool)
  : result (list normalized_signal) :=
  let signal_df :=
    filter (fun r => String.eqb (rs_signal_name r) signal_name) df_signals in
  match signal_df with
  | [] => Ok []
  | _ =>
      if cross_sectional then
        results ← for_each
          (fun d =>
             let date_df := filter (fun r => Z.eqb (rs_date r) d) signal_df in
             normalize_frame date_df direction winsorize_pct use_robust)
          (unique (map rs_date signal_df));
        Ok (concat results)
      else
        normalize_frame signal_df direction winsorize_pct use_robust
  end.

(** The directions [normalize_all_signals] collects, in the order the
    loops assign them: for each block its [signals], then the signals of
    its [subblocks]. *)
Definition block_directions (b : block_config) : list (string * Z) :=
  (map (fun s => (fst s, get (direction (snd s)) 1%Z)) (get (signals b) [])
   ++ flat_map
        (fun sb =>
           map (fun s => (fst s, get (direction (snd s)) 1%Z))
             (get (subblock_signals (snd sb)) []))
        (get (subblocks b) []))%list.

Definition signal_directions (cfg : config) : list (string * Z) :=
  flat_map (fun b => block_directions (get b empty_block))
    [cfg_contrarian cfg; cfg_turnaround cfg; cfg_piotroski cfg; cfg_quality cfg].

(** [signal_directions.get(name, 1)] after the assignments above: the last
    one made for the name. *)
Fixpoint last_direction (name : string) (assignments : list (string * Z))
  (default : Z) : Z :=
  match assignments with
  | [] => default
  | (n, d) :: rest =>
      last_direction name rest (if String.eqb n name then d else default)
  end.

Definition normalize_all_signals (df_signals : list raw_signal) (cfg : config)
  : result (list normalized_signal) :=
  let winsorize_pct := (get (cfg_p_low cfg) 0.05, get (cfg_p_high cfg) 0.95) in
  let use_robust := get (cfg_use_robust cfg) true in
  let signal_directions := signal_directions cfg in
  normalized_signals ← for_each
    (fun signal_name =>
       let direction := last_direction signal_name signal_directions 1%Z in
       normalize_signal df_signals signal_name direction winsorize_pct
         use_robust true)
    (unique_by String.eqb (map rs_signal_name df_signals));
  Ok (concat normalized_signals).

End WithLibm.

End Normalizer.

(** ** scoring/aggregator.py *)

Module Aggregator.

Import Normalizer.
Export Config.

(** Arithmetic on floats that may be NaN. *)
Definition lift2 (op : Q -> Q -> Q) (a b : option Q) : option Q :=
  match a, b with
  | Some x, Some y => Some (op x y)
  | _, _ => None
  end.

(** [a < b] and [a > b] on floats: false as soon as one side is NaN. *)
Definition lt (a b : option Q) : bool :=
  match a, b with
  | Some x, Some y => Qlt_bool x y
  | _, _ => false
  end.

(** The loop state of [aggregate_weighted]. *)
Record accumulator : Type := mk_acc {
  total_weight : Q;
  weighted_sum : Q;
  component_scores : list (string * Q)
}.

(** The rows of [ticker_date_signals] for one signal name. *)
Definition signal_row (ticker_date_signals : list normalized_signal)
  (name : string) : list normalized_signal :=
  filter (fun r => String.eqb (signal_name r) name) ticker_date_signals.

(** One iteration of [for signal_name, weight in signal_weights.items()]:
    the signal counts when its row exists and its normalized value is
    not NaN. *)
Definition aggregate_step (ticker_date_signals : list normalized_signal)
  (acc : accumulator) (item : string * Q) : accumulator :=
  let '(name, weight) := item in
  match signal_row ticker_date_signals name with
  | r :: _ =>
      match value_normalized r with
      | Some value =>
          mk_acc (total_weight acc + weight)
                 (weighted_sum acc + value * weight)
                 (component_scores acc ++ [(name, value)])
      | None => acc
      end
  | [] => acc
  end.

Definition aggregate_weighted (df_signals : list normalized_signal)
  (ticker : string) (date : Z) (signal_weights : list (string * Q))
  : option Q * list (string * Q) :=
  let ticker_date_signals :=
    filter (fun r => String.eqb (Normalizer.ticker r) ticker
                     && Z.eqb (Normalizer.date r) date) df_signals in
  let acc := fold_left (aggregate_step ticker_date_signals) signal_weights
                       (mk_acc 0 0 []) in
  let score :=
    if Qlt_bool 0 (total_weight acc)
    then Some (weighted_sum acc / total_weight acc)
    else None in
  (score, component_scores acc).

(** The risk table.  Its columns are the two key columns [ticker] (a
    string) and [date] (a timestamp) and the metric columns
    [risk_columns], which hold floats; a row holds its keys and its
    metric values (an absent value is NaN). *)
Record risk_row : Type := mk_risk {
  rk_ticker : string;
  rk_date : Z;
  rk_values : list (string * Q)
}.

Record risk_frame : Type := mk_frame {
  risk_columns : list string;
  risk_rows : list risk_row
}.

Fixpoint assoc {A : Type} (k : string) (l : list (string * A)) : option A :=
  match l with
  | [] => None
  | (k', v) :: l' => if String.eqb k' k then Some v else assoc k l'
  end.

Definition column (name : string) (rows : list risk_row) : list (option Q) :=
  map (fun r => assoc name (rk_values r)) rows.

Definition mem (s : string) (l : list string) : bool :=
  existsb (String.eqb s) l.

(** The excess over the threshold, scaled by the distance from the
    threshold to the cross-sectional maximum, and the penalty it earns. *)
Definition excess_of (value threshold : Q) (all_max : option Q) : option Q :=
  lift2 Qdiv (Some (value - threshold))
    (lift2 Qplus (lift2 Qminus all_max (Some threshold)) (Some 0.000001)).

Definition penalty_of (excess : option Q) (max_penalty : Q) : option Q :=
  option_map (fun e => min2 (e * max_penalty) max_penalty) excess.

(** One iteration of [for penalty_name, penalty_config in ...]. *)
Definition penalty_step (df_risk : risk_frame) (row0 : risk_row) (date : Z)
  (block : string) (acc : option Q * list (string * option Q))
  (item : string * penalty_config)
  : result (option Q * list (string * option Q)) :=
  let '(total_penalty, penalty_details) := acc in
  let '(penalty_name, cfg) := item in
  let affected := get (affected_scores cfg) [] in
  if negb (mem block affected) && negb (mem "all" affected) then Ok acc
  else
    let threshold_pct := get (threshold_percentile cfg) 90 in
    let max_penalty := get (max_penalty cfg) 10 in
    if mem penalty_name (risk_columns df_risk) then
      let value := assoc penalty_name (rk_values row0) in
      let all_values :=
        column penalty_name
          (filter (fun r => Z.eqb (rk_date r) date) (risk_rows df_risk)) in
      threshold ← Series.quantile all_values (threshold_pct / 100);
      match value, threshold with
      | Some v, Some t =>
          if Qlt_bool t v then
            let excess := excess_of v t (Series.max all_values) in
            let penalty := penalty_of excess max_penalty in
            Ok (lift2 Qplus total_penalty penalty,
                penalty_details ++ [(penalty_name, penalty)])
          else Ok acc
      | _, _ => Ok acc
      end
    else if String.eqb penalty_name "ticker" then
      (* a rule named after the key column [ticker]: [quantile] checks the
         percentile and then fails on the strings of the column *)
      _ ← Series.quantile [] (threshold_pct / 100);
      Raise TypeError
    else if String.eqb penalty_name "date" then
      (* a rule named after the key column [date]: the rows of one date all
         hold that date, which is the threshold, and no value exceeds it *)
      _ ← Series.quantile [] (threshold_pct / 100);
      Ok acc
    else Ok acc.

Fixpoint penalty_loop (df_risk : risk_frame) (row0 : risk_row) (date : Z)
  (block : string) (acc : option Q * list (string * option Q))
  (penalties_config : list (string * penalty_config))
  : result (option Q * list (string * option Q)) :=
  match penalties_config with
  | [] => Ok acc
  | item :: rest =>
      acc' ← penalty_step df_risk row0 date block acc item;
      penalty_loop df_risk row0 date block acc' rest
  end.

(** Python's [max(0, x)]: [x if x > 0 else 0], so 0 when [x] is NaN. *)
Definition max0 (x : option Q) : Q :=
  match x with
  | Some v => if Qlt_bool 0 v then v else 0
  | None => 0
  end.

Definition apply_risk_penalties (score : option Q) (ticker : string)
  (date : Z) (df_risk : risk_frame) (cfg : config) (block : string)
  : result (option Q * list (string * option Q)) :=
  match score with
  | None => Ok (score, [])
  | Some s =>
      let penalties_config := get (cfg_soft_penalties cfg) [] in
      let ticker_date_risk :=
        filter (fun r => String.eqb (rk_ticker r) ticker
                         && Z.eqb (rk_date r) date) (risk_rows df_risk) in
      match ticker_date_risk with
      | [] => Ok (score, [])
      | row0 :: _ =>
          '(total_penalty, penalty_details) ←
            penalty_loop df_risk row0 date block (Some 0, []) penalties_config;
          let adjusted_score := max0 (lift2 Qminus score total_penalty) in
          Ok (Some adjusted_score, penalty_details)
      end
  end.

(** One row of the score table (the [penalties] and [details] columns,
    which no later stage reads, are left out). *)
Record block_score : Type := mk_score {
  bs_date : Z;
  bs_ticker : string;
  block : string;
  score_raw : option Q;
  score_adjusted : option Q
}.

(** [{name: cfg.get('weight', 0) for name, cfg in ....items()}] *)
Definition weights_of (signals : list (string * signal_config))
  : list (string * Q) :=
  map (fun s => (fst s, get (weight (snd s)) 0)) signals.

(** The block score functions return the score and a dict of details; the
    details are not read by a later stage and are left out. *)
Definition compute_contrarian_score (df_signals : list normalized_signal)
  (ticker : string) (date : Z) (cfg : config) : option Q :=
  let contrarian_config := get (signals (get (cfg_contrarian cfg) empty_block)) [] in
  fst (aggregate_weighted df_signals ticker date (weights_of contrarian_config)).

Definition compute_turnaround_score (df_signals : list normalized_signal)
  (ticker : string) (date : Z) (cfg : config) : option Q :=
  let turnaround_config := get (signals (get (cfg_turnaround cfg) empty_block)) [] in
  fst (aggregate_weighted df_signals ticker date (weights_of turnaround_config)).

(** [(raw_score / 9) * 100] *)
Definition piotroski_linear (raw_score : option Q) : option Q :=
  option_map (fun r => r / 9 * 100) raw_score.

Definition compute_piotroski_score (df_signals : list normalized_signal)
  (ticker : string) (date : Z) (cfg : config) : option Q :=
  let ticker_date_signals :=
    filter (fun r => String.eqb (Normalizer.ticker r) ticker
                     && Z.eqb (Normalizer.date r) date
                     && String.eqb (signal_name r) "piotroski_raw") df_signals in
  match ticker_date_signals with
  | [] => None
  | r :: _ =>
      let raw_score := value_raw r in
      let conversion :=
        get (conversion (get (cfg_piotroski cfg) empty_block)) "linear"%string in
      if String.eqb conversion "linear" then piotroski_linear raw_score
      else
        match value_normalized r with
        | Some v => Some v
        | None => piotroski_linear raw_score
        end
  end.

(** The second loop of [compute_quality_score]: the sub-blocks with a
    score that is not NaN, weighted. *)
Definition quality_step (acc : Q * Q) (sb : option Q * Q) : Q * Q :=
  match fst sb with
  | Some score => (fst acc + snd sb, snd acc + score * snd sb)
  | None => acc
  end.

Definition compute_quality_score (df_signals : list normalized_signal)
  (ticker : string) (date : Z) (cfg : config) : option Q :=
  let quality_config := get (subblocks (get (cfg_quality cfg) empty_block)) [] in
  let subblock_scores :=
    map (fun sb =>
           (fst (aggregate_weighted df_signals ticker date
                   (weights_of (get (subblock_signals (snd sb)) []))),
            get (subblock_weight (snd sb)) 0))
        quality_config in
  let '(total_weight, weighted_sum) :=
    fold_left quality_step subblock_scores (0, 0) in
  if Qlt_bool 0 total_weight then Some (weighted_sum / total_weight) else None.

Definition pair_eqb (a b : string * Z) : bool :=
  String.eqb (fst a) (fst b) && Z.eqb (snd a) (snd b).

(** The four rows [compute_all_scores] appends for one (ticker, date). *)
Definition score_rows (df_signals : list normalized_signal)
  (df_risk : risk_frame) (cfg : config) (ticker_date : string * Z)
  : result (list block_score) :=
  let ticker := fst ticker_date in
  let date := snd ticker_date in
  let contrarian_score := compute_contrarian_score df_signals ticker date cfg in
  contrarian ← apply_risk_penalties contrarian_score ticker date df_risk cfg
                 "contrarian";
  let turnaround_score := compute_turnaround_score df_signals ticker date cfg in
  turnaround ← apply_risk_penalties turnaround_score ticker date df_risk cfg
                 "turnaround";
  let piotroski_score := compute_piotroski_score df_signals ticker date cfg in
  piotroski ← apply_risk_penalties piotroski_score ticker date df_risk cfg
                "piotroski";
  let quality_score := compute_quality_score df_signals ticker date cfg in
  quality ← apply_risk_penalties quality_score ticker date df_risk cfg
              "quality";
  Ok [mk_score date ticker "contrarian" contrarian_score (fst contrarian);
      mk_score date ticker "turnaround" turnaround_score (fst turnaround);
      mk_score date ticker "piotroski" piotroski_score (fst piotroski);
      mk_score date ticker "quality" quality_score (fst quality)].

Definition compute_all_scores (df_signals : list normalized_signal)
  (df_risk : risk_frame) (cfg : config) : result (list block_score) :=
  let ticker_dates :=
    unique_by pair_eqb
      (map (fun r => (Normalizer.ticker r, Normalizer.date r)) df_signals) in
  results ← for_each (score_rows df_signals df_risk cfg) ticker_dates;
  Ok (concat results).

(** A score row with the [quintile] column of [add_quintiles]. *)
Record ranked_score : Type := mk_ranked {
  scored : block_score;
  quintile : option Z
}.

(** A row of [quintile_df]. *)
Record quintile_row : Type := mk_quintile {
  q_date : Z;
  q_ticker : string;
  q_quintile : option Z
}.

Definition get_quintile (score mean stddev : option Q) : option Z :=
  match score with
  | None => None
  | Some _ =>
      if match stddev with Some sd => Qeq_bool sd 0 | None => false end
      then None
      else
        let z := lift2 Qdiv (lift2 Qminus score mean) stddev in
        if lt z (Some (-0.84)) then Some 1%Z
        else if lt z (Some (-0.25)) then Some 2%Z
        else if lt z (Some 0.25) then Some 3%Z
        else if lt z (Some 0.84) then Some 4%Z
        else Some 5%Z
  end.

Section WithSqrt.

Variable sqrt : Q -> Q.

(** The inner loops of [add_quintiles]: the rows of [quintile_df]
    computed from the reference rows of one date. *)
Definition date_quintiles (ref_scores : list block_score) (d : Z)
  : list quintile_row :=
  let date_scores := filter (fun r => Z.eqb (bs_date r) d) ref_scores in
  let mean := Series.mean (map score_adjusted date_scores) in
  let stddev := Series.std sqrt (map score_adjusted date_scores) in
  map (fun row =>
         mk_quintile d (bs_ticker row)
           (get_quintile (score_adjusted row) mean stddev))
      date_scores.

(** [df_scores.merge(quintile_df, on=['date', 'ticker'], how='left')]
    for one left row: one output row per matching right row, and a
    single row with a NaN quintile when none matches. *)
Definition merge_left (quintile_df : list quintile_row) (row : block_score)
  : list ranked_score :=
  match filter (fun q => Z.eqb (q_date q) (bs_date row)
                         && String.eqb (q_ticker q) (bs_ticker row))
               quintile_df with
  | [] => [mk_ranked row None]
  | matches => map (fun q => mk_ranked row (q_quintile q)) matches
  end.

(** With no reference row [quintile_df] is a frame without columns, and
    the merge on [date] and [ticker] raises [KeyError]. *)
Definition add_quintiles (df_scores : list block_score)
  (reference_block : string) : result (list ranked_score) :=
  let ref_scores :=
    filter (fun r => String.eqb (block r) reference_block) df_scores in
  let quintiles :=
    flat_map (date_quintiles ref_scores) (unique (map bs_date ref_scores)) in
  match quintiles with
  | [] => Raise KeyError
  | _ => Ok (flat_map (merge_left quintiles) df_scores)
  end.

End WithSqrt.

End Aggregator.

(** ** recalculate_quintiles.py *)

Module Recalculate.

(** [valid_values.rank(pct=True)]: the average of the positions the value
    takes in sorted order (ties share it), divided by the number of valid
    values. *)
Definition count_if (p : Q -> bool) (l : list Q) : nat :=
  length (filter p l).

Definition rank (valid_values : list Q) (x : Q) : Q :=
  inject_Z (Z.of_nat (count_if (fun y => Qlt_bool y x) valid_values))
  + (inject_Z (Z.of_nat (count_if (fun y => Qeq_bool y x) valid_values)) + 1) / 2.

Definition rank_pct (valid_values : list Q) (x : Q) : Q :=
  rank valid_values x / Series.count valid_values.

(** [pd.cut(ranks, bins=[0, 0.2, 0.4, 0.6, 0.8, 1.0], labels=[1..5],
    include_lowest=True)]: bins closed on the right, the first one also on
    the left; NaN outside [0, 1]. *)
Definition cut (r : Q) : option Z :=
  if Qlt_bool r 0 then None
  else if Qle_bool r 0.2 then Some 1%Z
  else if Qle_bool r 0.4 then Some 2%Z
  else if Qle_bool r 0.6 then Some 3%Z
  else if Qle_bool r 0.8 then Some 4%Z
  else if Qle_bool r 1.0 then Some 5%Z
  else None.

Definition calculate_quintiles (series : list (option Q)) : list (option Z) :=
  let valid_values := Series.dropna series in
  match valid_values with
  | [] => map (fun _ => None) series
  | _ =>
      map (fun v =>
             match v with
             | Some x => cut (rank_pct valid_values x)
             | None => None
             end)
          series
  end.

End Recalculate.

(** ** governance/governance.py *)

Module Governance.

(** A configuration as [yaml.safe_load] returns it and [json] writes it:
    a tree of dicts with string keys, lists and scalars.  A dict keeps its
    insertion order, so it is a list of items. *)
#[warnings="-register-all"] Inductive json : Type :=
| JNull
| JBool (b : bool)
| JInt (z : Z)
| JFloat (q : Q)
| JStr (s : string)
| JList (l : list json)
| JDict (items : list (string * json)).

Fixpoint lookup {A : Type} (k : string) (items : list (string * A)) : option A :=
  match items with
  | [] => None
  | (k', v) :: items' => if String.eqb k' k then Some v else lookup k items'
  end.

(** [d[key]] on a loaded document. *)
Definition getitem (d : json) (key : string) : option json :=
  match d with
  | JDict items => lookup key items
  | _ => None
  end.

(** Python's truth value, as [x or default] and [if x:] use it. *)
Definition truthy (v : json) : bool :=
  match v with
  | JNull => false
  | JBool b => b
  | JInt z => negb (Z.eqb z 0)
  | JFloat q => negb (Qeq_bool q 0)
  | JStr s => negb (String.eqb s "")
  | JList l => negb (Nat.eqb (List.length l) 0)
  | JDict d => negb (Nat.eqb (List.length d) 0)
  end.

(** A dict has each key once, at every level. *)
Fixpoint well_formed (v : json) : Prop :=
  match v with
  | JList l => (fix all l := match l with
                             | [] => True
                             | x :: l' => well_formed x /\ all l'
                             end) l
  | JDict d => NoDup (map fst d)
               /\ (fix all d := match d with
                                | [] => True
                                | (_, x) :: d' => well_formed x /\ all d'
                                end) d
  | _ => True
  end.

(** The same key-value content, whatever the order of the keys: equal
    scalars, lists equal item by item, dicts of equal size in which every
    key of the first maps to the same content in the second. *)
Fixpoint same_content (a b : json) {struct a} : bool :=
  match a, b with
  | JNull, JNull => true
  | JBool x, JBool y => Bool.eqb x y
  | JInt x, JInt y => Z.eqb x y
  | JFloat x, JFloat y => Z.eqb (Qnum x) (Qnum y) && Pos.eqb (Qden x) (Qden y)
  | JStr x, JStr y => String.eqb x y
  | JList xs, JList ys =>
      (fix go xs ys :=
         match xs, ys with
         | [], [] => true
         | x :: xs', y :: ys' => same_content x y && go xs' ys'
         | _, _ => false
         end) xs ys
  | JDict d1, JDict d2 =>
      Nat.eqb (List.length d1) (List.length d2)
      && (fix go d :=
            match d with
            | [] => true
            | (k, v) :: d' =>
                match lookup k d2 with
                | Some v' => same_content v v'
                | None => false
                end && go d'
            end) d1
  | _, _ => false
  end.

(** [sorted(dct.items())]: the items ordered by key. *)
Fixpoint insert_item {A : Type} (x : string * A) (l : list (string * A))
  : list (string * A) :=
  match l with
  | [] => [x]
  | y :: l' =>
      if String.leb (fst x) (fst y) then x :: l else y :: insert_item x l'
  end.

Fixpoint sort_items {A : Type} (l : list (string * A)) : list (string * A) :=
  match l with
  | [] => []
  | x :: l' => insert_item x (sort_items l')
  end.

(** [', '.join(parts)] *)
Fixpoint join (parts : list string) : string :=
  match parts with
  | [] => ""
  | [p] => p
  | p :: rest => p +:+ ", " +:+ join rest
  end.

Definition int_repr (z : Z) : string := NilZero.string_of_int (Z.to_int z).

Section WithCodecs.

(** The scalar encoders of the [json] module and the digest of
    [hashlib]: [float.__repr__], the escaping and quoting of a string,
    and [sha256(...).hexdigest()]. *)
Variable float_repr : Q -> string.
Variable encode_string : string -> string.
Variable sha256_hexdigest : string -> string.

(** [json.dumps(v, sort_keys=True)].  The values of a dict are rendered
    before its items are ordered by key; the order looks at keys only,
    so this is the text that rendering the ordered items gives. *)
Fixpoint dumps (v : json) : string :=
  match v with
  | JNull => "null"
  | JBool true => "true"
  | JBool false => "false"
  | JInt z => int_repr z
  | JFloat q => float_repr q
  | JStr s => encode_string s
  | JList l => "[" +:+ join (map dumps l) +:+ "]"
  | JDict d =>
      "{" +:+
      join (map (fun kv => encode_string (fst kv) +:+ ": " +:+ snd kv)
              (sort_items (map (fun kv => (fst kv, dumps (snd kv))) d)))
      +:+ "}"
  end.

Definition compute_config_hash (config : json) : string :=
  let config_str := dumps config in
  substring 0 12 (sha256_hexdigest config_str).

(** The text of a file, and [json.load(f)]. *)
Variable text : Type.
Variable json_load : text -> json.

(** [load_version] on the directory [version_dir] (file name to file
    text). *)
Definition load_version (version_dir : gmap string text)
  (version_id : string) : result json :=
  let version_file := version_id +:+ ".json" in
  match version_dir !! version_file with
  | None => Raise FileNotFoundError
  | Some f => Ok (json_load f)
  end.

End WithCodecs.

End Governance.

(** ** governance/governance.py: the version files *)

Module Versions.

Import Governance.

(** A Python value, as a configuration or a metadata dict may hold it.
    The key of a dict is a string, an int, a float, a bool or [None]: the
    scalars [yaml.safe_load] makes keys of, and the ones [json] accepts.
    [PObject] is a value of any other type (a date, for one), with the text
    [str] gives for it.  A dict keeps its insertion order. *)
Inductive key : Type :=
| KStr (s : string)
| KInt (z : Z)
| KFloat (q : Q)
| KBool (b : bool)
| KNone.

#[warnings="-register-all"] Inductive value : Type :=
| PNone
| PBool (b : bool)
| PInt (z : Z)
| PFloat (q : Q)
| PStr (s : string)
| PList (l : list value)
| PDict (items : list (key * value))
| PObject (str : string).

(** The number a numeric key stands for; [True] is 1 and [False] is 0. *)
Definition key_number (k : key) : option Q :=
  match k with
  | KInt z => Some (inject_Z z)
  | KFloat q => Some q
  | KBool b => Some (if b then 1 else 0)
  | _ => None
  end.

(** Equality of keys, as a dict has it: [1], [1.0] and [True] are one
    key. *)
Definition key_eqb (a b : key) : bool :=
  match a, b with
  | KStr x, KStr y => String.eqb x y
  | KNone, KNone => true
  | _, _ =>
      match key_number a, key_number b with
      | Some x, Some y => Qeq_bool x y
      | _, _ => false
      end
  end.

(** [d[k] = v]: the value of an existing key is replaced where the key
    stands, a new key is appended. *)
Fixpoint setitem (k : key) (v : value) (d : list (key * value))
  : list (key * value) :=
  match d with
  | [] => [(k, v)]
  | (k', v') :: d' =>
      if key_eqb k' k then (k', v) :: d' else (k', v') :: setitem k v d'
  end.

(** The dict built from pairs in order, as [json.load] builds it from the
    members of an object: a repeated key keeps its last value. *)
Definition dict_of (pairs : list (key * value)) : list (key * value) :=
  fold_left (fun d kv => setitem (fst kv) (snd kv) d) pairs [].

(** [d[k]], [None] standing for the [KeyError]. *)
Fixpoint lookup (k : key) (d : list (key * value)) : option value :=
  match d with
  | [] => None
  | (k', v) :: d' => if key_eqb k' k then Some v else lookup k d'
  end.

Definition getitem (d : value) (k : string) : option value :=
  match d with
  | PDict items => lookup (KStr k) items
  | _ => None
  end.

(** Python's truth value, as [metadata or {}] and [if version_name:] use
    it. *)
Definition truthy (v : value) : bool :=
  match v with
  | PNone => false
  | PBool b => b
  | PInt z => negb (Z.eqb z 0)
  | PFloat q => negb (Qeq_bool q 0)
  | PStr s => negb (String.eqb s "")
  | PList l => negb (Nat.eqb (List.length l) 0)
  | PDict d => negb (Nat.eqb (List.length d) 0)
  | PObject _ => true
  end.

(** A document [json.load] returns, as the Python value it is: the keys
    of its dicts are strings. *)
Fixpoint json_load (doc : json) : value :=
  match doc with
  | JNull => PNone
  | JBool b => PBool b
  | JInt z => PInt z
  | JFloat q => PFloat q
  | JStr s => PStr s
  | JList l => PList (map json_load l)
  | JDict items =>
      PDict (dict_of (map (fun kv => (KStr (fst kv), json_load (snd kv))) items))
  end.

Definition is_str (k : key) : bool :=
  match k with KStr _ => true | _ => false end.

Definition is_number (k : key) : bool :=
  match key_number k with Some _ => true | None => false end.

(** [sorted] can order the keys: there is nothing to compare, or they are
    all strings, or all numbers.  Comparing a string with a number, or
    [None] with anything, raises [TypeError]. *)
Definition sortable (keys : list key) : bool :=
  (List.length keys <=? 1)%nat || forallb is_str keys || forallb is_number keys.

(** [a <= b] on keys that can be compared. *)
Definition key_leb (a b : key) : bool :=
  match a, b with
  | KStr x, KStr y => String.leb x y
  | _, _ =>
      match key_number a, key_number b with
      | Some x, Some y => Qle_bool x y
      | _, _ => true
      end
  end.

Fixpoint insert_key {A : Type} (x : key * A) (l : list (key * A))
  : list (key * A) :=
  match l with
  | [] => [x]
  | y :: l' =>
      if key_leb (fst x) (fst y) then x :: l else y :: insert_key x l'
  end.

(** [sorted(dct.items())] *)
Fixpoint sort_keys {A : Type} (l : list (key * A)) : list (key * A) :=
  match l with
  | [] => []
  | x :: l' => insert_key x (sort_keys l')
  end.

(** [json.dumps(config, sort_keys=True)] returns: no value is of a type
    [json] cannot encode, and the keys of every dict can be ordered.
    Otherwise it raises [TypeError]. *)
Fixpoint hashable (v : value) : bool :=
  match v with
  | PObject _ => false
  | PList l => forallb hashable l
  | PDict items =>
      sortable (map fst items)
      && forallb (fun kv => hashable (snd kv)) items
  | _ => true
  end.

(** No key is repeated. *)
Fixpoint distinct (keys : list key) : bool :=
  match keys with
  | [] => true
  | k :: keys' => negb (existsb (key_eqb k) keys') && distinct keys'
  end.

(** The value is what a JSON document holds: the keys of every dict are
    strings, each one once, and no value is of a type [json] cannot
    encode. *)
Fixpoint json_value (v : value) : bool :=
  match v with
  | PObject _ => false
  | PList l => forallb json_value l
  | PDict items =>
      forallb (fun kv => is_str (fst kv) && json_value (snd kv)) items
      && distinct (map fst items)
  | _ => true
  end.

(** A file name without a path separator. *)
Definition plain (name : string) : bool :=
  forallb (fun c => negb (Ascii.eqb c "/")) (list_ascii_of_string name).

Section WithCodecs.

Variable float_repr : Q -> string.
Variable encode_string : string -> string.
Variable sha256_hexdigest : string -> string.

(** The string [json] writes for a key. *)
Definition key_text (k : key) : string :=
  match k with
  | KStr s => s
  | KInt z => int_repr z
  | KFloat q => float_repr q
  | KBool true => "true"
  | KBool false => "false"
  | KNone => "null"
  end.

(** The document [json.dump(v, f, indent=2, default=str)] writes: every
    key becomes a string, and a value [json] cannot encode becomes the
    string [str] gives for it.  The layout of the text is left out: a file
    is the JSON document it holds, and [json.load] reads from a file the
    document [json.dump] wrote to it. *)
Fixpoint json_dump (v : value) : json :=
  match v with
  | PNone => JNull
  | PBool b => JBool b
  | PInt z => JInt z
  | PFloat q => JFloat q
  | PStr s => JStr s
  | PList l => JList (map json_dump l)
  | PDict items =>
      JDict (map (fun kv => (key_text (fst kv), json_dump (snd kv))) items)
  | PObject str => JStr str
  end.

(** The text of [json.dumps(v, sort_keys=True)], when it returns. *)
Fixpoint dumps (v : value) : string :=
  match v with
  | PNone => "null"
  | PBool true => "true"
  | PBool false => "false"
  | PInt z => int_repr z
  | PFloat q => float_repr q
  | PStr s => encode_string s
  | PList l => "[" +:+ join (map dumps l) +:+ "]"
  | PDict items =>
      "{" +:+
      join (map (fun kv => encode_string (key_text (fst kv)) +:+ ": " +:+ snd kv)
              (sort_keys (map (fun kv => (fst kv, dumps (snd kv))) items)))
      +:+ "}"
  | PObject _ => ""
  end.

Definition compute_config_hash (config : value) : result string :=
  if hashable config
  then Ok (substring 0 12 (sha256_hexdigest (dumps config)))
  else Raise TypeError.

(** [save_version], on the directory [version_dir] (file name to the
    document in the file) and the clock reading [timestamp]
    ([datetime.now().strftime('%Y%m%d_%H%M%S')]).  It returns the version
    id and the directory after the write.  The directory exists (the
    constructor makes it) and the version id is a file name in it: a
    [version_name] with a path separator names a file elsewhere and is
    outside the model, as are the failures of the file system. *)
Definition save_version (version_dir : gmap string json)
  (timestamp : string) (config : value) (version_name : option string)
  (metadata : option value) : result (string * gmap string json) :=
  config_hash ← compute_config_hash config;
  let version_id := timestamp +:+ "_" +:+ config_hash in
  let version_id :=
    match version_name with
    | Some name =>
        if String.eqb name "" then version_id
        else name +:+ "_" +:+ version_id
    | None => version_id
    end in
  let version_data :=
    PDict [(KStr "version_id", PStr version_id);
           (KStr "config_hash", PStr config_hash);
           (KStr "timestamp", PStr timestamp);
           (KStr "config", config);
           (KStr "metadata",
             match metadata with
             | Some m => if truthy m then m else PDict []
             | None => PDict []
             end)] in
  let version_file := version_id +:+ ".json" in
  Ok (version_id, <[version_file := json_dump version_data]> version_dir).

End WithCodecs.

Definition load_version (version_dir : gmap string json)
  (version_id : string) : result value :=
  let version_file := version_id +:+ ".json" in
  match version_dir !! version_file with
  | None => Raise FileNotFoundError
  | Some f => Ok (json_load f)
  end.

(** A configuration of the engine as a Python value: the document, with
    its string keys. *)
Fixpoint of_json (doc : json) : value :=
  match doc with
  | JNull => PNone
  | JBool b => PBool b
  | JInt z => PInt z
  | JFloat q => PFloat q
  | JStr s => PStr s
  | JList l => PList (map of_json l)
  | JDict items => PDict (map (fun kv => (KStr (fst kv), of_json (snd kv))) items)
  end.

(** A configuration with an integer key and one with a date, as
    [yaml.safe_load] reads [{1: a}] and [{start: 2024-01-01}]. *)
Definition config_int_key : value := PDict [(KInt 1, PStr "a")].

Definition metadata_date : value :=
  PDict [(KStr "start", PObject "2024-01-01")].

(** A configuration with nested dicts, a list and every scalar. *)
Definition config_example : value :=
  PDict [(KStr "normalization",
           PDict [(KStr "winsorize",
                    PDict [(KStr "p_low", PFloat 0.05);
                           (KStr "p_high", PFloat 0.95)]);
                  (KStr "use_robust", PBool true)]);
         (KStr "blocks", PList [PStr "contrarian"; PStr "quality"]);
         (KStr "seed", PInt 7);
         (KStr "notes", PNone)].

(** A directory that holds one version. *)
Definition one_version : gmap string json :=
  {[ "20231231_235959_abc.json"%string :=
       JDict [("version_id"%string, JStr "20231231_235959_abc");
              ("config"%string, JDict [("x"%string, JInt 1)])] ]}.

End Versions.

(** ** The specification's weighted aggregation rule *)

Module AggregateSpec.

Import Normalizer.

(** The normalized value recorded for a signal of an entity at a date: that
    of the first row of the table with this ticker, date and signal name.
    It is absent ([None]) when the table has no such row, and when the
    value of the row is NaN. *)
Definition normalized_value (df_signals : list normalized_signal)
  (ticker : string) (date : Z) (name : string) : option Q :=
  match find (fun r => String.eqb (Normalizer.ticker r) ticker
                       && Z.eqb (Normalizer.date r) date
                       && String.eqb (signal_name r) name) df_signals with
  | Some r => value_normalized r
  | None => None
  end.

(** Of a list of (value, weight) pairs, those whose value is present. *)
Definition present (l : list (option Q * Q)) : list (Q * Q) :=
  flat_map (fun vw => match fst vw with
                      | Some v => [(v, snd vw)]
                      | None => []
                      end) l.

Definition sum_weights (l : list (Q * Q)) : Q := Series.sum (map snd l).

Definition sum_products (l : list (Q * Q)) : Q :=
  Series.sum (map (fun vw => fst vw * snd vw) l).

(** The weighted average of (value, weight) pairs, the weights being
    renormalized over these pairs: the accumulated [value * weight] over
    the accumulated [weight].  It is undefined when the accumulated weight
    is not positive, as it is when there is no pair. *)
Definition weighted_average (l : list (Q * Q)) : option Q :=
  if Qle_bool (sum_weights l) 0 then None
  else Some (sum_products l / sum_weights l).

(** The rule for one block at one (date, entity): the weighted average of
    the configured signals that are present. *)
Definition block_average (df_signals : list normalized_signal)
  (ticker : string) (date : Z) (signal_weights : list (string * Q))
  : option Q :=
  weighted_average
    (present (map (fun nw => (normalized_value df_signals ticker date (fst nw),
                              snd nw))
                signal_weights)).

(** The rule for a hierarchical block: each sub-block by the rule above,
    then the sub-block scores one level up with the sub-block weights. *)
Definition hierarchical_average (df_signals : list normalized_signal)
  (ticker : string) (date : Z)
  (subblocks : list (Q * list (string * Q))) : option Q :=
  weighted_average
    (present (map (fun sb => (block_average df_signals ticker date (snd sb),
                              fst sb))
                subblocks)).

(** Two scores that may be undefined are the same number, or both
    undefined. *)
Definition same_score (a b : option Q) : Prop :=
  match a, b with
  | Some x, Some y => x == y
  | None, None => True
  | _, _ => False
  end.

(** The (weight, signal weights) of the configured sub-blocks of the
    quality block, a missing weight being 0. *)
Definition quality_subblocks (cfg : config) : list (Q * list (string * Q)) :=
  map (fun sb =>
         (get (subblock_weight (snd sb)) 0,
          map (fun s => (fst s, get (weight (snd s)) 0))
            (get (subblock_signals (snd sb)) [])))
    (get (subblocks (get (cfg_quality cfg) empty_block)) []).

(** The signal weights configured for a block, a missing weight being 0. *)
Definition block_weights (b : option block_config) : list (string * Q) :=
  map (fun s => (fst s, get (weight (snd s)) 0))
    (get (signals (get b empty_block)) []).

(** The Piotroski block: the raw F-score of the first [piotroski_raw] row
    of the entity at the date, undefined without such a row. *)
Definition piotroski_row (df_signals : list normalized_signal)
  (ticker : string) (date : Z) : option normalized_signal :=
  find (fun r => String.eqb (Normalizer.ticker r) ticker
                 && Z.eqb (Normalizer.date r) date
                 && String.eqb (signal_name r) "piotroski_raw") df_signals.

(** A table with one signal of one entity, A at 80, and the weights of
    the specification's example. *)
Definition only_A : list normalized_signal :=
  [mk_norm 1 "E1" "A" (Some 3) (Some 3) (Some 1) (Some 80)].

Definition weights_A_B : list (string * Q) :=
  [("A"%string, 0.6); ("B"%string, 0.4)].

(** A table in which the F-score 6 of E1 has the normalized value 55, and a
    configuration that gives the signal [piotroski_raw] the weight 1 in the
    Piotroski block. *)
Definition piotroski_table : list normalized_signal :=
  [mk_norm 1 "E1" "piotroski_raw" (Some 6) (Some 6) (Some 0) (Some 55);
   mk_norm 1 "E2" "piotroski_raw" (Some 3) (Some 3) (Some (-1)) (Some 20)].

Definition piotroski_config : config :=
  mk_config None None
    (Some (mk_block (Some [("piotroski_raw"%string, mk_signal (Some 1) None)])
             None None))
    None None None None None.

End AggregateSpec.

(** ** The loop of [aggregate_weighted], iteration by iteration *)

Module AggregateLoop.

Import Normalizer Aggregator.
Export AggregateSpec.

(** The normalized value [aggregate_step] reads for a signal: the one of
    the first row of that name, when there is a row and the value is not
    NaN. *)
Definition present_value (rows : list normalized_signal) (name : string)
  : option Q :=
  match signal_row rows name with
  | r :: _ => value_normalized r
  | [] => None
  end.

(** The (value, weight) pairs the loop accumulates. *)
Fixpoint available (rows : list normalized_signal)
  (signal_weights : list (string * Q)) : list (Q * Q) :=
  match signal_weights with
  | [] => []
  | (name, weight) :: rest =>
      match present_value rows name with
      | Some value => (value, weight) :: available rows rest
      | None => available rows rest
      end
  end.

Definition rows_of (df_signals : list normalized_signal) (ticker : string)
  (date : Z) : list normalized_signal :=
  filter (fun r => String.eqb (Normalizer.ticker r) ticker
                   && Z.eqb (Normalizer.date r) date) df_signals.

End AggregateLoop.

(** ** Risk penalties: the cross-section of a metric, and an example *)

Module RiskSpec.

Import Aggregator.

(** The rows of the risk table the threshold and the maximum are taken
    over, for one metric at one date. *)
Definition all_values (df_risk : risk_frame) (date : Z) (name : string)
  : list (option Q) :=
  column name (List.filter (fun r => Z.eqb (rk_date r) date) (risk_rows df_risk)).

(** The risk rows of one ticker at one date. *)
Definition ticker_date_risk (df_risk : risk_frame) (ticker : string) (date : Z)
  : list risk_row :=
  List.filter (fun r => String.eqb (rk_ticker r) ticker && Z.eqb (rk_date r) date)
    (risk_rows df_risk).

(** Eleven entities with a volatility of 0, 1, ..., 10 on one date, and the
    rule of the specification's example. *)
Definition volatility_frame : risk_frame :=
  mk_frame ["volatility"%string]
    (map (fun e => mk_risk (fst e) 1 [("volatility"%string, inject_Z (snd e))])
       [("E0", 0); ("E1", 1); ("E2", 2); ("E3", 3); ("E4", 4); ("E5", 5);
        ("E6", 6); ("E7", 7); ("E8", 8); ("E9", 9); ("E10", 10)]%string%Z).

Definition volatility_rule : string * penalty_config :=
  ("volatility"%string,
   mk_penalty (Some ["contrarian"%string]) (Some 90) (Some 10)).

(** A rule with a negative [max_penalty], which raises scores. *)
Definition bonus_rule : string * penalty_config :=
  ("volatility"%string,
   mk_penalty (Some ["all"%string]) (Some 50) (Some (-10))).

(** A configuration that holds soft penalties only. *)
Definition penalties_only (rules : list (string * penalty_config)) : config :=
  mk_config None None None None None None None (Some rules).

(** The risk row of a ticker of the example. *)
Definition volatility_row (ticker : string) (v : Z) : risk_row :=
  mk_risk ticker 1 [("volatility"%string, inject_Z v)].

End RiskSpec.

(** ** Constant groups *)

Module NormalizerSpec.

Import Series.

(** The valid values of a series are all equal to [c]. *)
Definition constant (c : Q) (s : list (option Q)) : Prop :=
  Forall (fun x => x == c) (dropna s).

(** A column of the table a call returned (no row when it raised). *)
Definition column_of {A : Type} (f : Normalizer.normalized_signal -> A)
  (r : result (list Normalizer.normalized_signal)) : list A :=
  match r with
  | Ok rows => map f rows
  | Raise _ => []
  end.

Definition rows_of_result (r : result (list Normalizer.normalized_signal))
  : list Normalizer.normalized_signal :=
  match r with
  | Ok rows => rows
  | Raise _ => []
  end.

(** Three small groups of one signal at one date: two observations, five
    observations of which four are equal (so that the MAD is zero), and a
    single observation. *)
Definition observation (ticker : string) (v : Q) : Normalizer.raw_signal :=
  Normalizer.mk_raw 1 ticker "s" (Some v).

Definition two_observations : list Normalizer.raw_signal :=
  [observation "E1" 1; observation "E2" 3].

Definition zero_mad_group : list Normalizer.raw_signal :=
  [observation "E1" 1; observation "E2" 1; observation "E3" 1;
   observation "E4" 1; observation "E5" 5].

Definition single_observation : list Normalizer.raw_signal :=
  [observation "E1" 7].

End NormalizerSpec.

(** ** Stand-ins for the library functions, for evaluating examples *)

Module Models.

(** A rational function with the properties used of [norm_cdf]: between 0
    and 1, and 1/2 at 0.  Its values are not those of the normal
    distribution; examples that name a normalized value other than 50 say
    so. *)
Definition cdf_model (z : Q) : Q := (1 # 2) + z / (2 * (1 + Qabs z)).

(** A stand-in for [sqrt]: the square root rounded down to six decimals. *)
Definition sqrt_model (x : Q) : Q :=
  inject_Z (Z.sqrt (Qfloor (x * 1000000000000))) / 1000000.

(** Stand-ins for the scalar encoders of [json] and for the digest: a
    string between quotes without escaping, a float as its fraction, and
    the text itself as its digest. *)
Definition quote : string := String (ascii_of_nat 34) EmptyString.

Definition encode_string_model (s : string) : string := quote +:+ s +:+ quote.

Definition float_repr_model (q : Q) : string :=
  Governance.int_repr (Qnum q) +:+ "/" +:+ Governance.int_repr (Z.pos (Qden q)).

Definition sha256_model (s : string) : string := s.

End Models.

(** ** Quintile sizes *)

Module QuintileSpec.

(** The scores are pairwise different. *)
Fixpoint all_distinct (l : list Q) : bool :=
  match l with
  | [] => true
  | x :: l' => forallb (fun y => negb (Qeq_bool x y)) l' && all_distinct l'
  end.

(** The number of entities that received quintile [k]. *)
Definition quintile_size (k : Z) (quintiles : list (option Z)) : nat :=
  List.length
    (List.filter (fun q => match q with Some j => Z.eqb j k | None => false end)
       quintiles).

(** The number of valid values below [x]: its position in sorted order. *)
Definition below (valid_values : list Q) (x : Q) : nat :=
  Recalculate.count_if (fun y => Qlt_bool y x) valid_values.

(** The quintile of the value at position [j] (from 0) among [n] distinct
    values: its rank is [j + 1]. *)
Definition quintile_at (n j : nat) : option Z :=
  Recalculate.cut (inject_Z (Z.of_nat j + 1) / inject_Z (Z.of_nat n)).

(** The same quintile in whole numbers: the first [k] with
    [5 * (j + 1) <= k * n]. *)
Definition bucket (n j : nat) : option Z :=
  if (5 * (j + 1) <=? n)%nat then Some 1%Z
  else if (5 * (j + 1) <=? 2 * n)%nat then Some 2%Z
  else if (5 * (j + 1) <=? 3 * n)%nat then Some 3%Z
  else if (5 * (j + 1) <=? 4 * n)%nat then Some 4%Z
  else if (5 * (j + 1) <=? 5 * n)%nat then Some 5%Z
  else None.

(** The positions whose rank is at most the fraction [k / 5] of [n]. *)
Definition up_to (k n : nat) (positions : list nat) : list nat :=
  List.filter (fun j => (5 * (j + 1) <=? k * n)%nat) positions.

(** A hundred scores 1, 2, ..., 100 with three undefined ones among them. *)
Definition hundred_scores : list (option Q) :=
  (None :: map (fun j => Some (inject_Z (Z.of_nat j))) (seq 51 50)
   ++ [None; None] ++ map (fun j => Some (inject_Z (Z.of_nat j))) (seq 1 50))%list.

End QuintileSpec.

(** ** Orders and examples for the configuration hash *)

Module GovernanceSpec.

Import Governance.

(** The order [sorted] puts the items of a dict in. *)
Definition key_le {A : Type} (x y : string * A) : Prop :=
  String.leb (fst x) (fst y) = true.

(** The two dicts of the specification's example. *)
Definition config_xy : json := JDict [("x"%string, JInt 1); ("y"%string, JInt 2)].
Definition config_yx : json := JDict [("y"%string, JInt 2); ("x"%string, JInt 1)].

(** A nested configuration in two key orders. *)
Definition config_nested : json :=
  JDict [("normalization"%string,
           JDict [("winsorize"%string,
                    JDict [("p_low"%string, JFloat 0.05);
                           ("p_high"%string, JFloat 0.95)]);
                  ("z_score"%string, JDict [("use_robust"%string, JBool true)])]);
         ("contrarian"%string,
           JDict [("signals"%string,
                    JDict [("momentum"%string,
                             JDict [("weight"%string, JFloat 0.6);
                                    ("direction"%string, JInt (-1))])])])].

Definition config_nested_reordered : json :=
  JDict [("contrarian"%string,
           JDict [("signals"%string,
                    JDict [("momentum"%string,
                             JDict [("direction"%string, JInt (-1));
                                    ("weight"%string, JFloat 0.6)])])]);
         ("normalization"%string,
           JDict [("z_score"%string, JDict [("use_robust"%string, JBool true)]);
                  ("winsorize"%string,
                    JDict [("p_high"%string, JFloat 0.95);
                           ("p_low"%string, JFloat 0.05)])])].

End GovernanceSpec.

(** ** The quintile of the reference block *)

Module ReferenceSpec.

Import Aggregator.

(** The rows of the reference block. *)
Definition reference_scores (df_scores : list block_score)
  (reference_block : string) : list block_score :=
  List.filter (fun r => String.eqb (block r) reference_block) df_scores.

(** The key [add_quintiles] merges on. *)
Definition key (r : block_score) : Z * string := (bs_date r, bs_ticker r).

(** The reference row of a (date, ticker), when there is one. *)
Definition reference_row (ref_scores : list block_score) (d : Z) (t : string)
  : option block_score :=
  find (fun r => Z.eqb (bs_date r) d && String.eqb (bs_ticker r) t) ref_scores.

(** The adjusted scores of the reference block at one date. *)
Definition date_column (ref_scores : list block_score) (d : Z)
  : list (option Q) :=
  map score_adjusted (List.filter (fun r => Z.eqb (bs_date r) d) ref_scores).

(** The quintile of a (date, ticker) according to the reference block: that
    of its reference row within the reference rows of the date, and null
    without a reference row. *)
Definition reference_quintile (sqrt : Q -> Q) (df_scores : list block_score)
  (reference_block : string) (d : Z) (t : string) : option Z :=
  let ref_scores := reference_scores df_scores reference_block in
  match reference_row ref_scores d t with
  | Some r0 =>
      get_quintile (score_adjusted r0)
        (Series.mean (date_column ref_scores d))
        (Series.std sqrt (date_column ref_scores d))
  | None => None
  end.

(** The rows of [quintile_df] for one (date, ticker). *)
Definition matches (quintile_df : list quintile_row) (d : Z) (t : string)
  : list quintile_row :=
  List.filter (fun q => Z.eqb (q_date q) d && String.eqb (q_ticker q) t) quintile_df.

(** Scores of two blocks for three tickers on date 1 and one ticker on
    date 2; E3 has no contrarian score, and E4 is alone on its date. *)
Definition example_scores : list block_score :=
  [mk_score 1 "E1" "contrarian" (Some 40) (Some 40);
   mk_score 1 "E1" "quality" (Some 90) (Some 90);
   mk_score 1 "E2" "contrarian" (Some 60) (Some 60);
   mk_score 1 "E2" "quality" (Some 10) (Some 10);
   mk_score 1 "E3" "contrarian" None None;
   mk_score 1 "E3" "quality" (Some 50) (Some 50);
   mk_score 2 "E4" "contrarian" (Some 70) (Some 70);
   mk_score 2 "E4" "quality" (Some 20) (Some 20)].

(** The blocks [compute_all_scores] scores. *)
Definition block_names : list string :=
  ["contrarian"; "turnaround"; "piotroski"; "quality"]%string.

(** The (ticker, date) pairs [compute_all_scores] iterates over. *)
Definition ticker_dates (df_signals : list Normalizer.normalized_signal)
  : list (string * Z) :=
  unique_by pair_eqb
    (map (fun r => (Normalizer.ticker r, Normalizer.date r)) df_signals).

(** Normalized signals of two tickers on one date, and a configuration
    with two contrarian signals. *)
Definition example_signals : list Normalizer.normalized_signal :=
  [Normalizer.mk_norm 1 "E1" "A" (Some 3) (Some 3) (Some 1) (Some 80);
   Normalizer.mk_norm 1 "E1" "B" (Some 5) (Some 5) (Some 0) (Some 50);
   Normalizer.mk_norm 1 "E2" "A" (Some 1) (Some 1) (Some (-1)) (Some 20);
   Normalizer.mk_norm 1 "E3" "A" (Some 2) (Some 2) (Some 0) (Some 50);
   Normalizer.mk_norm 1 "E3" "B" (Some 9) (Some 9) (Some 1) (Some 90)].

Definition example_config : config :=
  mk_config
    (Some (mk_block
             (Some [("A"%string, mk_signal (Some 0.6) (Some 1%Z));
                    ("B"%string, mk_signal (Some 0.4) (Some 1%Z))])
             None None))
    None None None None None None None.

Definition no_risk : risk_frame := mk_frame [] [].

End ReferenceSpec.

(** ** Rows in and rows out of the normalizer *)

Module RowsSpec.

Import Normalizer.

(** The raw columns of a normalized row. *)
Definition raw_of (r : normalized_signal) : raw_signal :=
  mk_raw (date r) (ticker r) (signal_name r) (value_raw r).

(** The rows of one signal. *)
Definition signal_rows (df_signals : list raw_signal) (name : string)
  : list raw_signal :=
  List.filter (fun r => String.eqb (rs_signal_name r) name) df_signals.

(** Both winsorization percentiles are probabilities. *)
Definition valid_percentiles (winsorize_pct : Q * Q) : Prop :=
  (0 <= fst winsorize_pct <= 1) /\ (0 <= snd winsorize_pct <= 1).

(** The frame a row of date [d] is normalized in: the rows of the signal
    at that date when [cross_sectional], all rows of the signal otherwise. *)
Definition frame_of (df_signals : list raw_signal) (name : string)
  (cross_sectional : bool) (d : Z) : list raw_signal :=
  if cross_sectional
  then List.filter (fun r => Z.eqb (rs_date r) d) (signal_rows df_signals name)
  else signal_rows df_signals name.

(** The percentiles [normalize_all_signals] reads from the configuration. *)
Definition configured_percentiles (cfg : config) : Q * Q :=
  (get (cfg_p_low cfg) 0.05, get (cfg_p_high cfg) 0.95).

(** Raw signals of two dates, some of them NaN. *)
Definition two_dates : list raw_signal :=
  [mk_raw 1 "E1" "s" (Some 10); mk_raw 2 "E1" "s" (Some 7);
   mk_raw 1 "E2" "s" None; mk_raw 1 "E3" "s" (Some 30);
   mk_raw 2 "E2" "s" (Some 9); mk_raw 1 "E1" "other" (Some 1);
   mk_raw 1 "E4" "s" (Some 20)].

(** A signal whose valid values at date 1 are all 4, and which varies at
    date 2. *)
Definition constant_date : list raw_signal :=
  [mk_raw 1 "E1" "s" (Some 4); mk_raw 2 "E1" "s" (Some 1);
   mk_raw 1 "E2" "s" None; mk_raw 1 "E3" "s" (Some 4);
   mk_raw 2 "E2" "s" (Some 3)].

End RowsSpec.


(** ** A negative weight *)

Module BoundsSpec.

Import Normalizer.




End BoundsSpec.

(** ** Weights and scores of the blocks *)

Module ScoreSpec.

Import Normalizer Aggregator.

(** The normalized values of a table are within [0, 100]. *)
Definition normalized_in_range (df_signals : list normalized_signal) : Prop :=
  forall r v, In r df_signals -> value_normalized r = Some v ->
              0 <= v /\ v <= 100.

(** The configured weights of a list of signals are not negative (a missing
    weight counts as 0, as the code reads it). *)
Definition signals_nonneg (l : list (string * signal_config)) : Prop :=
  forall name sc, In (name, sc) l -> 0 <= get (weight sc) 0.

(** No weight of the contrarian and turnaround signals, of the quality
    sub-blocks and of their signals is negative. *)
Definition weights_nonneg (cfg : config) : Prop :=
  signals_nonneg (get (signals (get (cfg_contrarian cfg) empty_block)) [])
  /\ signals_nonneg (get (signals (get (cfg_turnaround cfg) empty_block)) [])
  /\ forall name sb,
       In (name, sb) (get (subblocks (get (cfg_quality cfg) empty_block)) []) ->
       0 <= get (subblock_weight sb) 0
       /\ signals_nonneg (get (subblock_signals sb) []).

(** A quality configuration of two sub-blocks, and signals for it. *)
Definition quality_config : config :=
  mk_config
    (Some (mk_block
             (Some [("A"%string, mk_signal (Some 0.6) (Some 1%Z));
                    ("B"%string, mk_signal (Some 0.4) (Some 1%Z))])
             None None))
    (Some (mk_block (Some [("A"%string, mk_signal None None)]) None None))
    (Some (mk_block None None (Some "normalized"%string)))
    (Some (mk_block None
             (Some [("profitability"%string,
                     mk_subblock (Some 0.7)
                       (Some [("A"%string, mk_signal (Some 1) None);
                              ("C"%string, mk_signal (Some 3) None)]));
                    ("leverage"%string,
                     mk_subblock (Some 0.3)
                       (Some [("B"%string, mk_signal (Some 2) None)]))])
             None))
    None None None None.

Definition quality_signals : list normalized_signal :=
  [mk_norm 1 "E1" "A" (Some 3) (Some 3) (Some 1) (Some 80);
   mk_norm 1 "E1" "B" (Some 5) (Some 5) (Some 0) (Some 50);
   mk_norm 1 "E1" "C" (Some 5) (Some 5) None None;
   mk_norm 1 "E1" "piotroski_raw" (Some 6) (Some 6) (Some 0) (Some 55);
   mk_norm 1 "E2" "B" (Some 1) (Some 1) (Some (-1)) (Some 20)].

End ScoreSpec.

(** ** The rules of the risk penalties *)

Module PenaltySpec.

Import Aggregator.

(** The rule counts for the block: [block in affected_scores] or
    ['all' in affected_scores]. *)
Definition applies (block : string) (pc : penalty_config) : bool :=
  mem block (get (affected_scores pc) [])
  || mem "all" (get (affected_scores pc) []).

(** The rules of the configuration. *)
Definition rules (cfg : config) : list (string * penalty_config) :=
  get (cfg_soft_penalties cfg) [].

(** Every rule has a threshold percentile between 0 and 100 and a
    [max_penalty] that is not negative (missing ones are 90 and 10). *)
Definition rules_valid (cfg : config) : Prop :=
  forall name pc, In (name, pc) (rules cfg) ->
    (0 <= get (threshold_percentile pc) 90
     /\ get (threshold_percentile pc) 90 <= 100)
    /\ 0 <= get (max_penalty pc) 10.

(** No rule is named after the key column [ticker], whose values are
    strings. *)
Definition rules_numeric (cfg : config) : Prop :=
  forall name pc, In (name, pc) (rules cfg) -> name <> "ticker"%string.

(** No rule counts for the block. *)
Definition no_rule_applies (cfg : config) (block : string) : Prop :=
  forall name pc, In (name, pc) (rules cfg) -> applies block pc = false.

(** The sum of [max_penalty] over the rules that count for the block. *)
Definition max_total_penalty (cfg : config) (block : string) : Q :=
  Series.sum
    (map (fun item => get (max_penalty (snd item)) 10)
       (List.filter (fun item => applies block (snd item)) (rules cfg))).

(** A valid rule named after the key column [ticker]. *)
Definition ticker_rule : string * penalty_config :=
  ("ticker"%string, mk_penalty (Some ["all"%string]) (Some 90) (Some 10)).

(** A rule whose threshold percentile is not a percentage. *)
Definition broken_rule : string * penalty_config :=
  ("volatility"%string,
   mk_penalty (Some ["all"%string]) (Some 150) (Some 10)).

(** Two rules on the volatility table: one for the contrarian block and
    one, on a metric the table lacks, for every block. *)
Definition two_rules : config :=
  mk_config None None None None None None None
    (Some [("volatility"%string,
            mk_penalty (Some ["contrarian"%string]) (Some 90) (Some 10));
           ("drawdown"%string, mk_penalty (Some ["all"%string]) None None)]).

End PenaltySpec.

(** ** The score table *)

Module TableSpec.

Import Normalizer Aggregator.

(** The Piotroski raw values of a table are F-scores: between 0 and 9. *)
Definition piotroski_in_range (df_signals : list normalized_signal) : Prop :=
  forall r x, In r df_signals -> signal_name r = "piotroski_raw"%string ->
              value_raw r = Some x -> 0 <= x /\ x <= 9.

(** The key columns of a score row. *)
Definition row_key (r : block_score) : string * Z * string :=
  (bs_ticker r, bs_date r, block r).

(** The four keys of one (ticker, date), in the order the rows are
    appended. *)
Definition keys_of (ticker_date : string * Z) : list (string * Z * string) :=
  map (fun b => (fst ticker_date, snd ticker_date, b))
    ["contrarian"; "turnaround"; "piotroski"; "quality"]%string.

(** A score and its adjusted score are both NaN or both numbers. *)
Definition same_validity (r : block_score) : Prop :=
  match score_raw r, score_adjusted r with
  | Some _, Some _ => True
  | None, None => True
  | _, _ => False
  end.

(** The table of a call, and no row when it raised. *)
Definition table_of {A : Type} (r : result (list A)) : list A :=
  match r with
  | Ok rows => rows
  | Raise _ => []
  end.

End TableSpec.

(** ** Signal coverage: [check_coverage] and [ScoreValidator.validate_signals] *)

Module Coverage.

Import Normalizer.

(** [set(xs)]: the distinct members, here in order of first appearance
    (Python leaves the order of a set unspecified; nothing below depends
    on it). *)
Definition set_of (xs : list string) : list string :=
  unique_by String.eqb xs.

(** [a & b] *)
Definition inter (a b : list string) : list string :=
  List.filter (fun s => existsb (String.eqb s) b) a.

(** [a - b] *)
Definition diff (a b : list string) : list string :=
  List.filter (fun s => negb (existsb (String.eqb s) b)) a.

(** [len(available & required_set) / len(required_set) if required_set
    else 0] *)
Definition coverage_ratio (available required_set : list string) : Q :=
  match required_set with
  | [] => 0
  | _ =>
      inject_Z (Z.of_nat (List.length (inter available required_set)))
      / inject_Z (Z.of_nat (List.length required_set))
  end.

Definition check_coverage (df_signals : list raw_signal) (ticker : string)
  (date : Z) (required_signals : list string) (threshold : Q) : bool * Q :=
  let ticker_date_signals :=
    List.filter (fun r => String.eqb (rs_ticker r) ticker
                          && Z.eqb (rs_date r) date) df_signals in
  let available_signals := set_of (map rs_signal_name ticker_date_signals) in
  let required_set := set_of required_signals in
  let coverage := coverage_ratio available_signals required_set in
  (Qle_bool threshold coverage, coverage).

(** The warnings of [validate_signals], without their wording. *)
Inductive warning : Type :=
| MissingSignals (missing : list string)
| LowCoverage (ticker : string) (coverage : Q).

Record signals_report : Type := mk_signals_report {
  sr_valid : bool;
  sr_coverage : list (string * Q);
  sr_missing_signals : list string;
  sr_warnings : list warning
}.

(** The coverage of one ticker, over all its dates. *)
Definition ticker_coverage (df_signals : list raw_signal)
  (required_set : list string) (ticker : string) : Q :=
  let ticker_signals :=
    List.filter (fun r => String.eqb (rs_ticker r) ticker) df_signals in
  let ticker_available := set_of (map rs_signal_name ticker_signals) in
  coverage_ratio ticker_available required_set.

Definition validate_signals (df_signals : list raw_signal)
  (required_signals : list string) (min_coverage : Q) : signals_report :=
  let available_signals := set_of (map rs_signal_name df_signals) in
  let required_set := set_of required_signals in
  let missing := diff required_set available_signals in
  let missing_signals := match missing with [] => [] | _ => missing end in
  let warnings :=
    match missing with [] => [] | _ => [MissingSignals missing] end in
  let coverage :=
    map (fun ticker => (ticker, ticker_coverage df_signals required_set ticker))
      (unique_by String.eqb (map rs_ticker df_signals)) in
  let warnings :=
    (warnings
     ++ map (fun tc => LowCoverage (fst tc) (snd tc))
          (List.filter (fun tc => Qlt_bool (snd tc) min_coverage) coverage))%list in
  let valid :=
    negb (match missing_signals with [] => false | _ => true end
          || existsb (fun tc => Qlt_bool (snd tc) min_coverage) coverage) in
  mk_signals_report valid coverage missing_signals warnings.

(** Every required signal has a row for the ticker at the date. *)
Definition fully_covered (df_signals : list raw_signal) (ticker : string)
  (date : Z) (required_signals : list string) : Prop :=
  forall s, In s required_signals ->
    exists r, In r df_signals /\ rs_ticker r = ticker /\ rs_date r = date
              /\ rs_signal_name r = s.

End Coverage.

(** ** governance/governance.py: ScoreValidator *)

Module Validator.

Import Aggregator.

(** [series.min()] and [series.max()] of a series without NaN, [None] on
    the empty one. *)
Definition minimum (l : list Q) : option Q :=
  match l with
  | [] => None
  | x :: l' => Some (fold_left Qmin l' x)
  end.

Definition maximum (l : list Q) : option Q :=
  match l with
  | [] => None
  | x :: l' => Some (fold_left Qmax l' x)
  end.

(** An entry of [report['out_of_range']]. *)
Record out_of_range_entry : Type := mk_out_of_range {
  oor_block : string;
  oor_count : nat;
  oor_min : option Q;
  oor_max : option Q
}.

(** An entry of [report['statistics']]: a field is [None] where the code
    stores [None]; the standard deviation of a single score is NaN, here
    [Some None]. *)
Record statistics : Type := mk_statistics {
  st_mean : option Q;
  st_std : option (option Q);
  st_min : option Q;
  st_max : option Q;
  st_count : nat
}.

Record scores_report : Type := mk_scores_report {
  vr_valid : bool;
  vr_out_of_range : list out_of_range_entry;
  vr_null_scores : list (string * nat);
  vr_statistics : list (string * statistics)
}.

(** The adjusted scores of one block. *)
Definition block_scores (df_scores : list block_score) (blk : string)
  : list (option Q) :=
  map score_adjusted
    (List.filter (fun r => String.eqb (block r) blk) df_scores).

(** [(valid_scores < expected_range[0]) | (valid_scores > expected_range[1])] *)
Definition outside (expected_range : Q * Q) (v : Q) : bool :=
  Qlt_bool v (fst expected_range) || Qlt_bool (snd expected_range) v.

Section WithSqrt.

Variable sqrt : Q -> Q.

(** One iteration of [for block in df_scores['block'].unique()]. *)
Definition validate_block (df_scores : list block_score)
  (expected_range : Q * Q) (report : scores_report) (blk : string)
  : scores_report :=
  let block_scores := block_scores df_scores blk in
  let null_count :=
    List.length
      (List.filter (fun v => match v with None => true | Some _ => false end)
         block_scores) in
  let null_scores :=
    if (0 <? null_count)%nat
    then (vr_null_scores report ++ [(blk, null_count)])%list
    else vr_null_scores report in
  let valid_scores := Series.dropna block_scores in
  let out_of_range := List.filter (outside expected_range) valid_scores in
  let flagged := (0 <? List.length out_of_range)%nat in
  let out_of_range_entries :=
    if flagged
    then (vr_out_of_range report
          ++ [mk_out_of_range blk (List.length out_of_range)
                (minimum out_of_range) (maximum out_of_range)])%list
    else vr_out_of_range report in
  let valid := if flagged then false else vr_valid report in
  let nonempty := (0 <? List.length valid_scores)%nat in
  let stats :=
    mk_statistics
      (if nonempty then Series.mean (map Some valid_scores) else None)
      (if nonempty then Some (Series.std sqrt (map Some valid_scores)) else None)
      (if nonempty then minimum valid_scores else None)
      (if nonempty then maximum valid_scores else None)
      (List.length valid_scores) in
  mk_scores_report valid out_of_range_entries null_scores
    (vr_statistics report ++ [(blk, stats)])%list.

Definition validate_scores (df_scores : list block_score)
  (expected_range : Q * Q) : scores_report :=
  fold_left (validate_block df_scores expected_range)
    (unique_by String.eqb (map block df_scores))
    (mk_scores_report true [] [] []).

End WithSqrt.

(** The warnings of [validate_quintile_distribution], without their
    wording. *)
Inductive quintile_warning : Type :=
| NoQuintileColumn
| OffTarget (q : Z) (pct : Q).

Record quintile_report : Type := mk_quintile_report {
  qr_valid : bool;
  qr_distribution : list (string * Q);
  qr_warnings : list quintile_warning
}.

(** The quintiles that are not null. *)
Fixpoint not_null (quintiles : list (option Z)) : list Z :=
  match quintiles with
  | [] => []
  | Some q :: l => q :: not_null l
  | None :: l => not_null l
  end.

Definition occurrences (q : Z) (values : list Z) : nat :=
  List.length (List.filter (Z.eqb q) values).

(** [quintile_counts.get(q, 0)] on [value_counts(normalize=True)]: the
    share of [q] among the values that are not null, and 0 for a value
    that does not occur. *)
Definition share (quintiles : list (option Z)) (q : Z) : Q :=
  let values := not_null quintiles in
  if (occurrences q values =? 0)%nat then 0
  else inject_Z (Z.of_nat (occurrences q values))
       / inject_Z (Z.of_nat (List.length values)).

(** [for q in range(1, 6)] with the keys [f'Q{q}']. *)
Definition quintile_labels : list (string * Z) :=
  [("Q1", 1); ("Q2", 2); ("Q3", 3); ("Q4", 4); ("Q5", 5)]%string%Z.

(** The [quintile] column is [None] when the table has no such column. *)
Definition validate_quintile_distribution (quintile : option (list (option Z)))
  (expected_pct tolerance : Q) : quintile_report :=
  match quintile with
  | None => mk_quintile_report false [] [NoQuintileColumn]
  | Some quintiles =>
      let pcts := map (fun lq => (fst lq, snd lq, share quintiles (snd lq)))
                    quintile_labels in
      mk_quintile_report true
        (map (fun e => (fst (fst e), snd e)) pcts)
        (map (fun e => OffTarget (snd (fst e)) (snd e))
           (List.filter
              (fun e => Qlt_bool tolerance (Qabs (snd e - expected_pct)))
              pcts))
  end.

(** The number of rows of a table whose adjusted score is NaN. *)
Definition null_rows (df_scores : list block_score) : nat :=
  List.length
    (List.filter (fun r => match score_adjusted r with
                           | None => true
                           | Some _ => false
                           end) df_scores).

(** Sums over the entries of a report. *)
Definition total_nulls (report : scores_report) : nat :=
  list_sum (map snd (vr_null_scores report)).

Definition total_counted (report : scores_report) : nat :=
  list_sum (map (fun e => st_count (snd e)) (vr_statistics report)).

End Validator.

(** ** cli/main.py: the normalization and aggregation layers *)

Module Cli.

Import Normalizer Aggregator.

(** [pd.DataFrame(columns=['ticker', 'date'])]: the risk table of the
    pipeline, with the key columns only and without a row. *)
Definition empty_risk : risk_frame := mk_frame [] [].

Section WithLibm.

Variable norm_cdf : Q -> Q.
Variable sqrt : Q -> Q.

(** The normalization and aggregation layers as [run_full_pipeline]
    chains them, from a combined table of raw signals [df_signals] to the
    score table with its quintiles: [normalize_all_signals], then
    [compute_all_scores] on the empty risk table, then [add_quintiles] on
    the contrarian block.  The data loading and feature engineering that
    come before in [run_full_pipeline] are not part of it. *)
Definition scoring_layers (df_signals : list raw_signal) (config : config)
  : result (list ranked_score) :=
  df_normalized ← normalize_all_signals norm_cdf sqrt df_signals config;
  df_scores ← compute_all_scores df_normalized empty_risk config;
  add_quintiles sqrt df_scores "contrarian".

End WithLibm.

(** The distinct (ticker, date) pairs of the raw signals. *)
Definition raw_ticker_dates (df_signals : list raw_signal) : list (string * Z) :=
  unique_by pair_eqb (map (fun r => (rs_ticker r, rs_date r)) df_signals).

(** The [piotroski_raw] values of the raw signals are between 0 and 9. *)
Definition raw_piotroski_in_range (df_signals : list raw_signal) : Prop :=
  forall r x, In r df_signals -> rs_signal_name r = "piotroski_raw"%string ->
              rs_value_raw r = Some x -> 0 <= x /\ x <= 9.

(** Raw signals of two tickers, with F-scores. *)
Definition raw_example : list raw_signal :=
  [mk_raw 1 "E1" "A" (Some 3); mk_raw 1 "E2" "A" (Some 1);
   mk_raw 1 "E3" "A" (Some 2); mk_raw 1 "E1" "B" (Some 5);
   mk_raw 1 "E3" "B" None; mk_raw 1 "E1" "piotroski_raw" (Some 6);
   mk_raw 1 "E2" "piotroski_raw" (Some 9); mk_raw 2 "E1" "A" (Some 4)].

End Cli.

(** ** The score table of the pipeline *)

Module PipelineSpec.

Import Normalizer Aggregator.

(** The four rows of one (ticker, date) when no penalty applies: the
    adjusted score is the raw score. *)
Definition unadjusted_rows (df_signals : list normalized_signal)
  (cfg : config) (ticker_date : string * Z) : list block_score :=
  let ticker := fst ticker_date in
  let date := snd ticker_date in
  map (fun bs => mk_score date ticker (fst bs) (snd bs) (snd bs))
    [("contrarian"%string, compute_contrarian_score df_signals ticker date cfg);
     ("turnaround"%string, compute_turnaround_score df_signals ticker date cfg);
     ("piotroski"%string, compute_piotroski_score df_signals ticker date cfg);
     ("quality"%string, compute_quality_score df_signals ticker date cfg)].

End PipelineSpec.

(** ** quality_score_correct.py: z-score normalization with a neutral
    fallback *)

Module QualityScoreCorrect.

(** [pd.Series([50.0] * len(series), index=series.index)] *)
Definition neutral (series : list (option Q)) : list (option Q) :=
  map (fun _ => Some 50) series.

Section WithSqrt.

Variable sqrt : Q -> Q.

(** [std == 0 or pd.isna(std)] *)
Definition degenerate (std : option Q) : bool :=
  match std with
  | Some sd => Qeq_bool sd 0
  | None => true
  end.

Definition zscore_normalize (series : list (option Q)) (winsorize_std : Q)
  : list (option Q) :=
  let valid := Series.dropna series in
  if (List.length valid <? 3)%nat then neutral series
  else
    let mean := Series.mean series in
    let std := Series.std sqrt series in
    if degenerate std then neutral series
    else
      let z_scores := Series.div (Series.sub series mean) std in
      let z_scores :=
        Series.clip z_scores (Some (- winsorize_std)) (Some winsorize_std) in
      let normalized := map (option_map (fun z => 50 + z * 10)) z_scores in
      Series.clip normalized (Some 0) (Some 100).

End WithSqrt.

End QualityScoreCorrect.

(** ** institutional_scoring_engine.py: the normalization utilities *)

Module Institutional.

Section WithSqrt.

Variable sqrt : Q -> Q.

Definition winsorize (series : list (option Q)) (lower upper : Q)
  : result (list (option Q)) :=
  lower_bound ← Series.quantile series lower;
  upper_bound ← Series.quantile series upper;
  Ok (Series.clip series lower_bound upper_bound).

Definition zscore_normalize (series : list (option Q)) (winsorize_pct : Q * Q)
  : result (list (option Q)) :=
  winsorized ← winsorize series (fst winsorize_pct) (snd winsorize_pct);
  let mean := Series.mean winsorized in
  let std := Series.std sqrt winsorized in
  if QualityScoreCorrect.degenerate std
  then Ok (QualityScoreCorrect.neutral series)
  else
    let z_scores := Series.div (Series.sub winsorized mean) std in
    let normalized := map (option_map (fun z => 50 + z * 16.67)) z_scores in
    Ok (Series.clip normalized (Some 0) (Some 100)).

End WithSqrt.

End Institutional.

(** ** governance/governance.py: RegressionTester.compare_to_baseline *)

Module Regression.

Import Aggregator.

(** An entry of [report['regressions']] and [report['improvements']]. *)
Record change_entry : Type := mk_change {
  ch_ticker : string;
  ch_date : Z;
  ch_block : string;
  ch_old_score : option Q;
  ch_new_score : option Q;
  ch_diff : option Q
}.

Record comparison_statistics : Type := mk_comparison_statistics {
  total_comparisons : nat;
  regressions_count : nat;
  improvements_count : nat;
  mean_diff : option Q;
  std_diff : option Q
}.

(** The report: [{'error': ...}] without a baseline file, the comparison
    otherwise. *)
Inductive comparison : Type :=
| BaselineNotFound (baseline_version : string)
| Comparison (baseline_version : string)
    (regressions improvements : list change_entry)
    (statistics : comparison_statistics).

(** The key columns of the merge: [ticker], [date], [block]. *)
Definition merge_key (r : ranked_score) : string * Z * string :=
  (bs_ticker (scored r), bs_date (scored r), block (scored r)).

Definition same_key (a b : ranked_score) : bool :=
  String.eqb (bs_ticker (scored a)) (bs_ticker (scored b))
  && Z.eqb (bs_date (scored a)) (bs_date (scored b))
  && String.eqb (block (scored a)) (block (scored b)).

(** [df_scores.merge(baseline, on=['ticker', 'date', 'block'])]: the inner
    join, a pair for every row of the baseline that has the key of a row
    of [df_scores]. *)
Definition merge (df_scores baseline : list ranked_score)
  : list (ranked_score * ranked_score) :=
  flat_map
    (fun new => map (fun old => (new, old))
                  (List.filter (same_key new) baseline))
    df_scores.

(** [score_adjusted_new - score_adjusted_baseline] *)
Definition diff_of (pair : ranked_score * ranked_score) : option Q :=
  lift2 Qminus (score_adjusted (scored (fst pair)))
    (score_adjusted (scored (snd pair))).

Definition entry_of (pair : ranked_score * ranked_score) : change_entry :=
  mk_change (bs_ticker (scored (fst pair))) (bs_date (scored (fst pair)))
    (block (scored (fst pair))) (score_adjusted (scored (snd pair)))
    (score_adjusted (scored (fst pair))) (diff_of pair).

Section WithParquet.

Variable sqrt : Q -> Q.

(** The content of a parquet file, and [pd.read_parquet]. *)
Variable file : Type.
Variable read_parquet : file -> list ranked_score.

Definition baseline_file (baseline_version : string) : string :=
  "baseline_" +:+ baseline_version +:+ ".parquet".

Definition compare_to_baseline (baseline_dir : gmap string file)
  (df_scores : list ranked_score) (baseline_version : string) (tolerance : Q)
  : comparison :=
  match baseline_dir !! baseline_file baseline_version with
  | None => BaselineNotFound baseline_version
  | Some f =>
      let baseline := read_parquet f in
      let merged := merge df_scores baseline in
      let regressions :=
        List.filter (fun p => lt (diff_of p) (Some (- tolerance))) merged in
      let improvements :=
        List.filter (fun p => lt (Some tolerance) (diff_of p)) merged in
      Comparison baseline_version
        (map entry_of regressions) (map entry_of improvements)
        (mk_comparison_statistics
           (List.length merged) (List.length regressions)
           (List.length improvements)
           (Series.mean (map diff_of merged))
           (Series.std sqrt (map diff_of merged)))
  end.

End WithParquet.

(** A table and a baseline of it in which one score fell and one rose. *)
Definition current_scores : list ranked_score :=
  [mk_ranked (mk_score 1 "E1" "contrarian" (Some 40) (Some 40)) (Some 2%Z);
   mk_ranked (mk_score 1 "E1" "quality" (Some 90) (Some 90)) (Some 2%Z);
   mk_ranked (mk_score 1 "E2" "contrarian" (Some 60) (Some 60)) (Some 4%Z);
   mk_ranked (mk_score 1 "E3" "contrarian" None None) None].

Definition earlier_scores : list ranked_score :=
  [mk_ranked (mk_score 1 "E1" "contrarian" (Some 50) (Some 50)) (Some 3%Z);
   mk_ranked (mk_score 1 "E1" "quality" (Some 80) (Some 80)) (Some 3%Z);
   mk_ranked (mk_score 1 "E2" "contrarian" (Some 58) (Some 58)) (Some 4%Z);
   mk_ranked (mk_score 1 "E4" "contrarian" (Some 10) (Some 10)) (Some 1%Z)].

End Regression.

(** ** feature_engineering/piotroski.py *)

Module Piotroski.

Import Normalizer.

(** A row of the fundamentals table; a field is [None] when the value is
    NaN or the column is missing. *)
Record fundamentals : Type := mk_fundamentals {
  f_ticker : string;
  date_effective : Z;
  net_income : option Q;
  total_assets : option Q;
  operating_cash_flow : option Q;
  total_debt : option Q;
  current_assets : option Q;
  current_liabilities : option Q;
  shares_outstanding : option Q;
  gross_profit : option Q;
  revenue : option Q
}.

(** The local [safe_get(d, key, default)]. *)
Definition safe_get (d : option fundamentals)
  (key : fundamentals -> option Q) (default : Q) : Q :=
  match d with
  | None => default
  | Some r =>
      match key r with
      | Some val => val
      | None => default
      end
  end.

(** [a / b if b != 0 else 0] *)
Definition ratio (a b : Q) : Q := if Qeq_bool b 0 then 0 else a / b.

(** [1 if cond else 0] *)
Definition point (cond : bool) : Z := if cond then 1%Z else 0%Z.

Definition compute_piotroski_components (row : fundamentals)
  (prev_row : option fundamentals) : list (string * Z) :=
  let net_income := safe_get (Some row) net_income 0 in
  let total_assets := safe_get (Some row) total_assets 1 in
  let operating_cf := safe_get (Some row) operating_cash_flow 0 in
  let total_debt := safe_get (Some row) total_debt 0 in
  let current_assets := safe_get (Some row) current_assets 0 in
  let current_liabilities := safe_get (Some row) current_liabilities 1 in
  let shares := safe_get (Some row) shares_outstanding 0 in
  let gross_profit := safe_get (Some row) gross_profit 0 in
  let revenue := safe_get (Some row) revenue 1 in
  let prev_net_income := safe_get prev_row Piotroski.net_income 0 in
  let prev_total_assets := safe_get prev_row Piotroski.total_assets 1 in
  let prev_total_debt := safe_get prev_row Piotroski.total_debt 0 in
  let prev_current_assets := safe_get prev_row Piotroski.current_assets 0 in
  let prev_current_liabilities :=
    safe_get prev_row Piotroski.current_liabilities 1 in
  let prev_shares := safe_get prev_row shares_outstanding 0 in
  let prev_gross_profit := safe_get prev_row Piotroski.gross_profit 0 in
  let prev_revenue := safe_get prev_row Piotroski.revenue 1 in
  let roa := ratio net_income total_assets in
  let prev_roa := ratio prev_net_income prev_total_assets in
  let leverage := ratio total_debt total_assets in
  let prev_leverage := ratio prev_total_debt prev_total_assets in
  let current_ratio := ratio current_assets current_liabilities in
  let prev_current_ratio :=
    ratio prev_current_assets prev_current_liabilities in
  let gross_margin := ratio gross_profit revenue in
  let prev_gross_margin := ratio prev_gross_profit prev_revenue in
  let asset_turnover := ratio revenue total_assets in
  let prev_asset_turnover := ratio prev_revenue prev_total_assets in
  [("roa_positive"%string, point (Qlt_bool 0 roa));
   ("cfo_positive"%string, point (Qlt_bool 0 operating_cf));
   ("delta_roa_positive"%string, point (Qlt_bool prev_roa roa));
   ("accrual_quality"%string, point (Qlt_bool net_income operating_cf));
   ("delta_leverage_negative"%string, point (Qlt_bool leverage prev_leverage));
   ("delta_liquidity_positive"%string,
    point (Qlt_bool prev_current_ratio current_ratio));
   ("no_dilution"%string,
    point (Qle_bool shares prev_shares || Qeq_bool prev_shares 0));
   ("delta_margin_positive"%string,
    point (Qlt_bool prev_gross_margin gross_margin));
   ("delta_turnover_positive"%string,
    point (Qlt_bool prev_asset_turnover asset_turnover))].

(** [sum(components.values())] *)
Definition f_score (components : list (string * Z)) : Z :=
  fold_right Z.add 0%Z (map snd components).

(** The rows [iloc[i - 1]], [iloc[i]] for [i] from 1 on. *)
Definition consecutive (ticker_data : list fundamentals)
  : list (fundamentals * fundamentals) :=
  combine ticker_data (tl ticker_data).

Section WithSort.

(** [ticker_data.sort_values('date_effective')]; the order pandas gives to
    rows of equal date is not specified. *)
Variable sort_values : list fundamentals -> list fundamentals.

Definition signal_piotroski_raw (df_fundamentals : list fundamentals)
  : list raw_signal :=
  flat_map
    (fun ticker =>
       let ticker_data :=
         sort_values
           (List.filter (fun r => String.eqb (f_ticker r) ticker)
              df_fundamentals) in
       if (List.length ticker_data <? 2)%nat then []
       else
         map (fun pair =>
                let components :=
                  compute_piotroski_components (snd pair) (Some (fst pair)) in
                mk_raw (date_effective (snd pair)) ticker "piotroski_raw"
                  (Some (inject_Z (f_score components))))
           (consecutive ticker_data))
    (unique_by String.eqb (map f_ticker df_fundamentals)).

Definition compute_all_piotroski_signals (df_fundamentals : list fundamentals)
  : list raw_signal :=
  match df_fundamentals with
  | [] => []
  | _ => signal_piotroski_raw df_fundamentals
  end.

End WithSort.

(** A stable sort by [date_effective], standing in for [sort_values]. *)
Fixpoint insert_by_date (x : fundamentals) (l : list fundamentals)
  : list fundamentals :=
  match l with
  | [] => [x]
  | y :: l' =>
      if (date_effective x <=? date_effective y)%Z then x :: l
      else y :: insert_by_date x l'
  end.

Fixpoint sort_by_date (l : list fundamentals) : list fundamentals :=
  match l with
  | [] => []
  | x :: l' => insert_by_date x (sort_by_date l')
  end.

(** The rows are in the order of their dates. *)
Definition by_date (l : list fundamentals) : Prop :=
  Sorted (fun a b => (date_effective a <= date_effective b)%Z) l.

(** Two periods of one company. *)
Definition first_period : fundamentals :=
  mk_fundamentals "E1" 1 (Some 10) (Some 100) (Some 12) (Some 40) (Some 30)
    (Some 20) (Some 50) (Some 35) (Some 80).

Definition second_period : fundamentals :=
  mk_fundamentals "E1" 2 (Some 14) (Some 110) (Some 13) (Some 38) (Some 36)
    (Some 20) (Some 50) None (Some 90).

(** A table that lists the later period first, with one period of another
    company. *)
Definition three_periods : list fundamentals :=
  [second_period;
   mk_fundamentals "E2" 1 (Some 5) (Some 50) None None None None None None None;
   first_period].

End Piotroski.
(** * Properties *)

(** ** Comparison of rationals *)

Lemma Qlt_bool_iff (x y : Q) : Qlt_bool x y = true <-> x < y.
Proof.
  unfold Qlt_bool. rewrite negb_true_iff.
  split; intro H.
  - apply Qnot_le_lt. intro Hle. apply Qle_bool_iff in Hle. congruence.
  - destruct (Qle_bool y x) eqn:E; [|reflexivity].
    apply Qle_bool_iff in E. exfalso. apply (Qlt_not_le _ _ H E).
Qed.

Lemma Qlt_bool_false (x y : Q) : Qlt_bool x y = false <-> y <= x.
Proof.
  unfold Qlt_bool. rewrite negb_false_iff. apply Qle_bool_iff.
Qed.

(** ** Order statistics of a constant series *)

Module SeriesProps.

Import Series NormalizerSpec.

Lemma dropna_In (s : list (option Q)) (x : Q) :
  In x (dropna s) <-> In (Some x) s.
Proof.
  induction s as [|[y|] s IH]; cbn.
  - tauto.
  - rewrite IH. split; intros [H|H]; auto; left; congruence.
  - rewrite IH. split; [auto|]. intros [H|H]; [discriminate|exact H].
Qed.

Lemma insert_sorted_Forall (P : Q -> Prop) (x : Q) (l : list Q) :
  P x -> Forall P l -> Forall P (insert_sorted x l).
Proof.
  intros Hx Hl. induction Hl as [|y l Hy Hl IH]; cbn.
  - constructor; [exact Hx|constructor].
  - destruct (Qle_bool x y); repeat constructor; assumption.
Qed.

Lemma sort_Forall (P : Q -> Prop) (l : list Q) :
  Forall P l -> Forall P (sort l).
Proof.
  induction 1 as [|x l Hx Hl IH]; cbn; [constructor|].
  apply insert_sorted_Forall; assumption.
Qed.

Lemma insert_sorted_length (x : Q) (l : list Q) :
  List.length (insert_sorted x l) = S (List.length l).
Proof.
  induction l as [|y l IH]; cbn; [reflexivity|].
  destruct (Qle_bool x y); cbn; [reflexivity|]. rewrite IH. reflexivity.
Qed.

Lemma sort_length (l : list Q) : List.length (sort l) = List.length l.
Proof.
  induction l as [|x l IH]; cbn; [reflexivity|].
  rewrite insert_sorted_length, IH. reflexivity.
Qed.

Lemma nth_const (c : Q) (l : list Q) (i : nat) :
  Forall (fun x => x == c) l -> (i < List.length l)%nat -> nth i l 0 == c.
Proof.
  intros Hl Hi. rewrite Forall_forall in Hl. apply Hl, nth_In, Hi.
Qed.

Lemma count_pos (l : list Q) : l <> [] -> 1 <= count l.
Proof.
  destruct l as [|x l]; [congruence|]. intros _. unfold count.
  cbn [List.length]. change 1 with (inject_Z 1). rewrite <- Zle_Qle. lia.
Qed.

Lemma interpolate_const (c q : Q) (l : list Q) :
  Forall (fun x => x == c) l -> l <> [] -> 0 <= q -> q <= 1 ->
  interpolate l q == c.
Proof.
  intros Hl Hne Hq0 Hq1. unfold interpolate.
  assert (Hn : 1 <= count l) by (apply count_pos, Hne).
  set (h := q * (count l - 1)).
  assert (Hh0 : 0 <= h) by (unfold h; apply Qmult_le_0_compat; lra).
  assert (Hh1 : h <= count l - 1).
  { assert (H : q * (count l - 1) <= 1 * (count l - 1))
      by (apply Qmult_le_compat_r; lra).
    rewrite Qmult_1_l in H. exact H. }
  assert (Hlen : (0 < List.length l)%nat)
    by (destruct l; [congruence|cbn; lia]).
  assert (Hf0 : (0 <= Qfloor h)%Z).
  { change 0%Z with (Qfloor 0). apply Qfloor_resp_le, Hh0. }
  assert (Hf1 : (Qfloor h <= Z.of_nat (List.length l) - 1)%Z).
  { rewrite <- (Qfloor_Z (Z.of_nat (List.length l) - 1)).
    apply Qfloor_resp_le. unfold count in Hh1. unfold Z.sub.
    rewrite inject_Z_plus, inject_Z_opp. exact Hh1. }
  assert (Hlo : (Z.to_nat (Qfloor h) < List.length l)%nat) by lia.
  assert (Hhi : (Nat.min (S (Z.to_nat (Qfloor h))) (List.length l - 1)
                 < List.length l)%nat) by lia.
  rewrite (nth_const c l _ Hl Hlo), (nth_const c l _ Hl Hhi). ring.
Qed.

Lemma quantile_const (c q : Q) (s : list (option Q)) :
  constant c s -> 0 <= q -> q <= 1 ->
  match dropna s with
  | [] => quantile s q = Ok None
  | _ => exists v, quantile s q = Ok (Some v) /\ v == c
  end.
Proof.
  intros Hc Hq0 Hq1. unfold quantile.
  assert (E : Qle_bool 0 q && Qle_bool q 1 = true).
  { apply andb_true_iff. split; apply Qle_bool_iff; assumption. }
  rewrite E. unfold constant in Hc.
  destruct (dropna s) as [|x v] eqn:Hv; [reflexivity|].
  eexists. split; [reflexivity|].
  apply interpolate_const; [apply sort_Forall, Hc| |assumption|assumption].
  intro Hnil. apply (f_equal (@List.length Q)) in Hnil.
  rewrite sort_length in Hnil. discriminate.
Qed.

Lemma median_const (c : Q) (s : list (option Q)) :
  constant c s ->
  match dropna s with
  | [] => median s = None
  | _ => exists m, median s = Some m /\ m == c
  end.
Proof.
  intro Hc. unfold median, constant in *.
  destruct (dropna s) as [|x v] eqn:Hv; [reflexivity|].
  set (sorted := sort (x :: v)).
  assert (Hs : Forall (fun y => y == c) sorted) by (apply sort_Forall, Hc).
  assert (Hlen : List.length sorted = S (List.length v))
    by (unfold sorted; rewrite sort_length; reflexivity).
  assert (Hmid : (List.length sorted / 2 < List.length sorted)%nat)
    by (apply Nat.div_lt; lia).
  assert (Hlow : (List.length sorted / 2 - 1 < List.length sorted)%nat) by lia.
  destruct (Nat.even (List.length sorted)); eexists; (split; [reflexivity|]).
  - rewrite (nth_const c _ _ Hs Hmid), (nth_const c _ _ Hs Hlow). field.
  - apply (nth_const c _ _ Hs Hmid).
Qed.

Lemma sum_const (c : Q) (l : list Q) :
  Forall (fun x => x == c) l -> sum l == count l * c.
Proof.
  unfold count. induction 1 as [|x l Hx Hl IH].
  - cbn. ring.
  - cbn [sum List.length]. rewrite IH, Hx, Nat2Z.inj_succ.
    unfold Z.succ. rewrite inject_Z_plus. ring.
Qed.

Lemma mean_const (c : Q) (s : list (option Q)) :
  constant c s ->
  match dropna s with
  | [] => mean s = None
  | _ => exists m, mean s = Some m /\ m == c
  end.
Proof.
  intro Hc. unfold mean, constant in *.
  destruct (dropna s) as [|x v] eqn:Hv; [reflexivity|].
  eexists. split; [reflexivity|].
  rewrite (sum_const c _ Hc). field.
  assert (H1 : 1 <= count (x :: v)) by (apply count_pos; discriminate).
  lra.
Qed.

Lemma fold_max_ge (l : list Q) : forall x,
  x <= fold_left Qmax l x /\ forall y, In y l -> y <= fold_left Qmax l x.
Proof.
  induction l as [|z l IH]; intro x; cbn.
  - split; [apply Qle_refl|intros y []].
  - destruct (IH (Qmax x z)) as [H1 H2]. split.
    + apply Qle_trans with (Qmax x z); [apply Q.le_max_l|exact H1].
    + intros y [->|Hy]; [|apply H2, Hy].
      apply Qle_trans with (Qmax x y); [apply Q.le_max_r|exact H1].
Qed.

(** [series.max()] is at least every valid value of the series. *)
Lemma max_ge (s : list (option Q)) (v : Q) :
  In (Some v) s -> exists M, max s = Some M /\ v <= M.
Proof.
  intro Hin. apply dropna_In in Hin. unfold max.
  destruct (dropna s) as [|x l]; [destruct Hin|].
  eexists. split; [reflexivity|].
  destruct (fold_max_ge l x) as [H1 H2].
  destruct Hin as [<-|Hin]; [exact H1|apply H2, Hin].
Qed.

End SeriesProps.

(** ** Weighted aggregation *)

Module AggregateProps.

Import Normalizer Aggregator AggregateLoop.

Lemma aggregate_step_available rows item acc :
  let acc' := aggregate_step rows acc item in
  total_weight acc' == total_weight acc + sum_weights (available rows [item])
  /\ weighted_sum acc' == weighted_sum acc + sum_products (available rows [item]).
Proof.
  destruct item as [name weight]. unfold aggregate_step, available, present_value.
  destruct (signal_row rows name) as [|r ?]; cbn.
  - split; ring.
  - destruct (value_normalized r); cbn; split; ring.
Qed.

Lemma available_cons rows item rest :
  available rows (item :: rest) = (available rows [item] ++ available rows rest)%list.
Proof.
  destruct item as [name weight]. cbn.
  destruct (present_value rows name); reflexivity.
Qed.

Lemma sum_app (l1 l2 : list Q) :
  Series.sum (l1 ++ l2) == Series.sum l1 + Series.sum l2.
Proof.
  induction l1 as [|x l1 IH]; cbn; [ring|]. rewrite IH. ring.
Qed.

Lemma fold_available rows signal_weights : forall acc,
  let acc' := fold_left (aggregate_step rows) signal_weights acc in
  total_weight acc' == total_weight acc + sum_weights (available rows signal_weights)
  /\ weighted_sum acc' == weighted_sum acc + sum_products (available rows signal_weights).
Proof.
  induction signal_weights as [|item rest IH]; intro acc; cbn zeta.
  - cbn. split; ring.
  - cbn [fold_left].
    destruct (IH (aggregate_step rows acc item)) as [Hw Hs].
    destruct (aggregate_step_available rows item acc) as [Hw1 Hs1].
    rewrite available_cons. unfold sum_weights, sum_products in *.
    rewrite !map_app, !sum_app. split.
    + rewrite Hw, Hw1. ring.
    + rewrite Hs, Hs1. ring.
Qed.

Lemma aggregate_weighted_score df_signals ticker date signal_weights :
  let avail := available (rows_of df_signals ticker date) signal_weights in
  let acc := fold_left (aggregate_step (rows_of df_signals ticker date))
               signal_weights (mk_acc 0 0 []) in
  fst (aggregate_weighted df_signals ticker date signal_weights)
  = (if Qlt_bool 0 (total_weight acc)
     then Some (weighted_sum acc / total_weight acc) else None)
  /\ total_weight acc == sum_weights avail
  /\ weighted_sum acc == sum_products avail.
Proof.
  cbn zeta. split; [reflexivity|].
  destruct (fold_available (rows_of df_signals ticker date) signal_weights
              (mk_acc 0 0 [])) as [Hw Hs].
  cbn [total_weight weighted_sum] in Hw, Hs.
  rewrite Hw, Hs. split; ring.
Qed.

(** The first row of a filtered table is the first row that passes the
    filter. *)
Lemma filter_head_find {A : Type} (p : A -> bool) (l : list A) :
  match List.filter p l with
  | [] => None
  | r :: _ => Some r
  end = find p l.
Proof.
  induction l as [|x l IH]; [reflexivity|]. cbn.
  destruct (p x); [reflexivity|exact IH].
Qed.

Lemma filter_filter_and {A : Type} (p q : A -> bool) (l : list A) :
  List.filter q (List.filter p l) = List.filter (fun x => p x && q x) l.
Proof.
  induction l as [|x l IH]; [reflexivity|]. cbn.
  destruct (p x); cbn; [destruct (q x)|]; rewrite IH; reflexivity.
Qed.

(** What the loop reads for a signal is the normalized value recorded for
    it. *)
Lemma present_value_normalized_value df_signals ticker date name :
  present_value (rows_of df_signals ticker date) name
  = normalized_value df_signals ticker date name.
Proof.
  unfold present_value, signal_row, rows_of, normalized_value.
  rewrite filter_filter_and, <- filter_head_find.
  destruct (List.filter _ df_signals); reflexivity.
Qed.

(** What the loop accumulates are the configured signals that are
    present. *)
Lemma available_present df_signals ticker date signal_weights :
  available (rows_of df_signals ticker date) signal_weights
  = present (map (fun nw => (normalized_value df_signals ticker date (fst nw),
                             snd nw))
               signal_weights).
Proof.
  induction signal_weights as [|[name weight] rest IH]; [reflexivity|].
  cbn [available map present flat_map fst snd].
  rewrite present_value_normalized_value.
  destruct (normalized_value df_signals ticker date name); cbn [app];
    rewrite IH; reflexivity.
Qed.

Lemma Qle_bool_proper (x y : Q) : x == y -> Qle_bool x 0 = Qle_bool y 0.
Proof.
  intro H. destruct (Qle_bool x 0) eqn:Ex, (Qle_bool y 0) eqn:Ey; try reflexivity.
  - apply Qle_bool_iff in Ex. rewrite H in Ex. apply Qle_bool_iff in Ex.
    congruence.
  - apply Qle_bool_iff in Ey. rewrite <- H in Ey. apply Qle_bool_iff in Ey.
    congruence.
Qed.

(** The guarded quotient of the code is the weighted average. *)
Lemma guarded_quotient (tw ws : Q) (l : list (Q * Q)) :
  tw == sum_weights l -> ws == sum_products l ->
  same_score (if Qlt_bool 0 tw then Some (ws / tw) else None)
    (weighted_average l).
Proof.
  intros Hw Hs. unfold weighted_average, Qlt_bool.
  rewrite (Qle_bool_proper _ _ Hw).
  destruct (Qle_bool (sum_weights l) 0); cbn; [exact I|].
  rewrite Hw, Hs. reflexivity.
Qed.

(** [aggregate_weighted] computes the weighted average of the configured
    signals that are present. *)
Lemma aggregate_weighted_block_average df_signals ticker date signal_weights :
  same_score (fst (aggregate_weighted df_signals ticker date signal_weights))
    (block_average df_signals ticker date signal_weights).
Proof.
  destruct (aggregate_weighted_score df_signals ticker date signal_weights)
    as (Hscore & Hw & Hs).
  cbn zeta in Hscore, Hw, Hs. rewrite Hscore. unfold block_average.
  rewrite available_present in Hw, Hs. apply guarded_quotient; assumption.
Qed.

(** The second loop of [compute_quality_score] accumulates the sub-blocks
    whose score is not NaN. *)
Lemma quality_fold_sums (l : list (option Q * Q)) : forall acc,
  fst (fold_left quality_step l acc) == fst acc + sum_weights (present l)
  /\ snd (fold_left quality_step l acc) == snd acc + sum_products (present l).
Proof.
  unfold sum_weights, sum_products, present.
  induction l as [|[[v|] w] l IH]; intros [tw ws]; cbn [fold_left].
  - cbn. split; ring.
  - destruct (IH (quality_step (tw, ws) (Some v, w))) as [H1 H2].
    rewrite H1, H2. cbn. split; ring.
  - destruct (IH (quality_step (tw, ws) (None, w))) as [H1 H2].
    rewrite H1, H2. cbn. split; ring.
Qed.

(** Pairs with the same scores and weights have the same sums. *)
Lemma present_sums (l l' : list (option Q * Q)) :
  Forall2 (fun a b => same_score (fst a) (fst b) /\ snd a = snd b) l l' ->
  sum_weights (present l) == sum_weights (present l')
  /\ sum_products (present l) == sum_products (present l').
Proof.
  unfold sum_weights, sum_products, present.
  induction 1 as [|[v w] [v' w'] l l' [Hv Hw] _ [IH1 IH2]]; cbn.
  - split; reflexivity.
  - cbn in Hv, Hw. subst w'.
    destruct v as [x|], v' as [y|]; cbn in Hv |- *; try contradiction.
    + rewrite IH1, IH2, Hv. split; reflexivity.
    + split; assumption.
Qed.

Lemma compute_quality_score_hierarchical df_signals ticker date cfg :
  same_score (compute_quality_score df_signals ticker date cfg)
    (hierarchical_average df_signals ticker date (quality_subblocks cfg)).
Proof.
  unfold compute_quality_score, hierarchical_average, quality_subblocks.
  set (subs := get (subblocks (get (cfg_quality cfg) empty_block)) []).
  set (code := map _ subs).
  rewrite map_map. cbn [fst snd].
  set (spec := map _ subs).
  assert (Hsame : Forall2 (fun a b => same_score (fst a) (fst b) /\ snd a = snd b)
                    code spec).
  { subst code spec. clearbody subs.
    induction subs as [|sb subs IH]; cbn [map]; constructor; [|exact IH].
    cbn [fst snd]. split; [|reflexivity].
    apply aggregate_weighted_block_average. }
  destruct (quality_fold_sums code (0, 0)) as [Hw Hs].
  destruct (fold_left quality_step code (0, 0)) as [tw ws].
  cbn [fst snd] in Hw, Hs.
  destruct (present_sums code spec Hsame) as [Hw' Hs'].
  apply guarded_quotient.
  - rewrite Hw, Hw'. ring.
  - rewrite Hs, Hs'. ring.
Qed.

Lemma compute_piotroski_score_row df_signals ticker date cfg :
  compute_piotroski_score df_signals ticker date cfg
  = match piotroski_row df_signals ticker date with
    | None => None
    | Some r =>
        if String.eqb
             (get (conversion (get (cfg_piotroski cfg) empty_block)) "linear")
             "linear"
        then option_map (fun x => x / 9 * 100) (value_raw r)
        else match value_normalized r with
             | Some v => Some v
             | None => option_map (fun x => x / 9 * 100) (value_raw r)
             end
    end.
Proof.
  unfold compute_piotroski_score, piotroski_row.
  rewrite <- filter_head_find.
  destruct (List.filter _ df_signals); reflexivity.
Qed.

(** C2, as the code has it.  The raw score of the contrarian and of the
    turnaround block is the weighted average of the normalized values of
    the configured signals that are present, the weights being renormalized
    over these signals; it is NaN when no configured signal is present,
    and when the total weight of the present ones is not positive.  With
    weights A: 0.6, B: 0.4 and only A present, at 80, it is 80.  The
    quality block applies the rule to each sub-block and once more to the
    sub-block scores; the Piotroski block does not average: its raw score
    is the F-score of the [piotroski_raw] row divided by 9, times 100 (or,
    under another conversion than [linear], the normalized value of that
    row).  These are the [score_raw] of the four rows of a (ticker,
    date). *)
Theorem score_raw_by_block
  (df_signals : list normalized_signal) (ticker : string) (date : Z)
  (cfg : config) :
  (forall signal_weights,
     let avail :=
       present (map (fun nw =>
                       (normalized_value df_signals ticker date (fst nw), snd nw))
                  signal_weights) in
     let score := fst (aggregate_weighted df_signals ticker date signal_weights) in
     (0 < sum_weights avail ->
      exists s, score = Some s /\ s == sum_products avail / sum_weights avail)
     /\ (sum_weights avail <= 0 -> score = None)
     /\ (avail = [] -> score = None))
  /\ same_score (compute_contrarian_score df_signals ticker date cfg)
       (block_average df_signals ticker date (block_weights (cfg_contrarian cfg)))
  /\ same_score (compute_turnaround_score df_signals ticker date cfg)
       (block_average df_signals ticker date (block_weights (cfg_turnaround cfg)))
  /\ same_score (compute_quality_score df_signals ticker date cfg)
       (hierarchical_average df_signals ticker date (quality_subblocks cfg))
  /\ compute_piotroski_score df_signals ticker date cfg
     = match piotroski_row df_signals ticker date with
       | None => None
       | Some r =>
           if String.eqb
                (get (conversion (get (cfg_piotroski cfg) empty_block)) "linear")
                "linear"
           then option_map (fun x => x / 9 * 100) (value_raw r)
           else match value_normalized r with
                | Some v => Some v
                | None => option_map (fun x => x / 9 * 100) (value_raw r)
                end
       end
  /\ (forall df_risk rows,
        score_rows df_signals df_risk cfg (ticker, date) = Ok rows ->
        map (fun r => (block r, score_raw r)) rows
        = [("contrarian"%string, compute_contrarian_score df_signals ticker date cfg);
           ("turnaround"%string, compute_turnaround_score df_signals ticker date cfg);
           ("piotroski"%string, compute_piotroski_score df_signals ticker date cfg);
           ("quality"%string, compute_quality_score df_signals ticker date cfg)])
  /\ same_score (fst (aggregate_weighted only_A "E1" 1 weights_A_B)) (Some 80).
Proof.
  split; [|split; [|split; [|split; [|split; [|split]]]]].
  - intro signal_weights. cbn zeta.
    destruct (aggregate_weighted_score df_signals ticker date signal_weights)
      as (Hscore & Hw & Hs).
    cbn zeta in Hscore, Hw, Hs. rewrite Hscore. clear Hscore.
    rewrite available_present in Hw, Hs.
    set (acc := fold_left _ _ _) in *.
    set (avail := present _) in *.
    assert (Hnone : sum_weights avail <= 0 ->
                    (if Qlt_bool 0 (total_weight acc)
                     then Some (weighted_sum acc / total_weight acc)
                     else None) = None).
    { intro Hle.
      assert (Ht : Qlt_bool 0 (total_weight acc) = false)
        by (apply Qlt_bool_false; rewrite Hw; exact Hle).
      rewrite Ht. reflexivity. }
    split; [|split; [exact Hnone|]].
    + intro Hlt.
      assert (Ht : Qlt_bool 0 (total_weight acc) = true)
        by (apply Qlt_bool_iff; rewrite Hw; exact Hlt).
      rewrite Ht. eexists. split; [reflexivity|]. rewrite Hw, Hs. reflexivity.
    + intro Hnil. apply Hnone. rewrite Hnil. apply Qle_refl.
  - apply aggregate_weighted_block_average.
  - apply aggregate_weighted_block_average.
  - apply compute_quality_score_hierarchical.
  - apply compute_piotroski_score_row.
  - intros df_risk rows H. unfold score_rows in H. cbn [fst snd] in H.
    destruct (apply_risk_penalties (compute_contrarian_score _ _ _ _) _ _ _ _ _)
      as [c|e]; cbn [mbind result_bind bind] in H; [|discriminate].
    destruct (apply_risk_penalties (compute_turnaround_score _ _ _ _) _ _ _ _ _)
      as [t|e]; cbn [mbind result_bind bind] in H; [|discriminate].
    destruct (apply_risk_penalties (compute_piotroski_score _ _ _ _) _ _ _ _ _)
      as [p|e]; cbn [mbind result_bind bind] in H; [|discriminate].
    destruct (apply_risk_penalties (compute_quality_score _ _ _ _) _ _ _ _ _)
      as [q|e]; cbn [mbind result_bind bind] in H; [|discriminate].
    injection H as <-. reflexivity.
  - vm_compute. reflexivity.
Qed.

(** C2 as stated fails for the Piotroski block.  The F-score 6 of E1 has
    the normalized value 55, and the block configures no other signal: the
    weighted average of the normalized values of the present signals is
    55, and [score_raw] is 6 / 9 * 100.  It also fails where the total
    weight of the present signals is not positive: with the weight -1 for
    A, present at 80, the weighted average is 80 and the score is NaN. *)
Lemma piotroski_score_raw_not_weighted_average :
  map (fun r => (bs_ticker r, block r, option_map Qred (score_raw r)))
    (List.filter (fun r => String.eqb (block r) "piotroski")
       (match compute_all_scores piotroski_table (mk_frame [] [])
                piotroski_config with
        | Ok df_scores => df_scores
        | Raise _ => []
        end))
  = [("E1"%string, "piotroski"%string, Some (200 # 3));
     ("E2"%string, "piotroski"%string, Some (100 # 3))]
  /\ option_map Qred
       (block_average piotroski_table "E1" 1
          (block_weights (cfg_piotroski piotroski_config)))
     = Some 55
  /\ fst (aggregate_weighted only_A "E1" 1 [("A"%string, -1)]) = None
  /\ Qred (sum_products [(80, -1)] / sum_weights [(80, -1)]) = 80.
Proof. repeat split; vm_compute; reflexivity. Qed.

(** With weights that are not negative, the raw score of values within
    [0, 100] is within [0, 100]. *)
Lemma available_bounds rows signal_weights :
  (forall r v, In r rows -> value_normalized r = Some v -> 0 <= v /\ v <= 100) ->
  (forall name w, In (name, w) signal_weights -> 0 <= w) ->
  Forall (fun vw => 0 <= fst vw /\ fst vw <= 100 /\ 0 <= snd vw)
    (available rows signal_weights).
Proof.
  intros Hv Hw. induction signal_weights as [|[name w] rest IH]; [constructor|].
  assert (IH' := IH (fun n w' Hin => Hw n w' (or_intror Hin))).
  cbn [available]. unfold present_value.
  destruct (signal_row rows name) as [|r l] eqn:Hrow; [exact IH'|].
  destruct (value_normalized r) as [v|] eqn:Hval; [|exact IH'].
  constructor; [|exact IH'].
  assert (Hin : In r rows).
  { assert (H : In r (signal_row rows name)) by (rewrite Hrow; left; reflexivity).
    unfold signal_row in H. apply filter_In in H. tauto. }
  destruct (Hv r v Hin Hval) as [H0 H100]. cbn.
  split; [exact H0|]. split; [exact H100|]. apply (Hw name w). left. reflexivity.
Qed.

Lemma weighted_sums_bounds (l : list (Q * Q)) :
  Forall (fun vw => 0 <= fst vw /\ fst vw <= 100 /\ 0 <= snd vw) l ->
  0 <= sum_products l /\ sum_products l <= 100 * sum_weights l.
Proof.
  unfold sum_products, sum_weights.
  induction 1 as [|[v w] l (H0 & H100 & Hw) _ IH]; cbn.
  - split; lra.
  - destruct IH as [IH0 IH100].
    assert (Hvw : 0 <= v * w) by (apply Qmult_le_0_compat; assumption).
    assert (Hvw' : v * w <= 100 * w) by (apply Qmult_le_compat_r; assumption).
    split; lra.
Qed.

Lemma aggregate_weighted_bounds df_signals ticker date signal_weights s :
  (forall r v, In r df_signals -> value_normalized r = Some v ->
               0 <= v /\ v <= 100) ->
  (forall name w, In (name, w) signal_weights -> 0 <= w) ->
  fst (aggregate_weighted df_signals ticker date signal_weights) = Some s ->
  0 <= s /\ s <= 100.
Proof.
  intros Hv Hw Hs.
  destruct (aggregate_weighted_score df_signals ticker date signal_weights)
    as (Hscore & Htw & Hws).
  cbn zeta in Hscore, Htw, Hws. rewrite Hscore in Hs. clear Hscore.
  set (acc := fold_left _ _ _) in *.
  destruct (Qlt_bool 0 (total_weight acc)) eqn:E; [|discriminate].
  injection Hs as <-. apply Qlt_bool_iff in E.
  assert (Hav : Forall (fun vw => 0 <= fst vw /\ fst vw <= 100 /\ 0 <= snd vw)
                  (available (rows_of df_signals ticker date) signal_weights)).
  { apply available_bounds; [|exact Hw].
    intros r v Hin. apply Hv. unfold rows_of in Hin.
    apply filter_In in Hin. tauto. }
  destruct (weighted_sums_bounds _ Hav) as [H0 H100].
  rewrite <- Hws, <- Htw in *. split.
  - apply Qle_shift_div_l; [exact E|]. lra.
  - apply Qle_shift_div_r; [exact E|]. lra.
Qed.

(** The renormalization example evaluated on a table: A is present at 80,
    B has no row. *)
Example aggregate_weighted_A_only :
  option_map Qred
    (fst (aggregate_weighted
            [mk_norm 1 "E1" "A" (Some 3) (Some 3) (Some 1) (Some 80)]
            "E1" 1 [("A"%string, 0.6); ("B"%string, 0.4)]))
  = Some 80.
Proof. vm_compute. reflexivity. Qed.

Example aggregate_weighted_nothing_present :
  fst (aggregate_weighted
         [mk_norm 1 "E1" "C" (Some 3) (Some 3) (Some 1) (Some 80)]
         "E1" 1 [("A"%string, 0.6); ("B"%string, 0.4)])
  = None.
Proof. vm_compute. reflexivity. Qed.

End AggregateProps.

(** ** Unknown signal names and missing versions *)

Module ConfigurationErrors.

Import Normalizer Aggregator Governance.

Lemma signal_row_unknown df_signals ticker date name :
  (forall r, In r df_signals -> signal_name r <> name) ->
  signal_row (AggregateLoop.rows_of df_signals ticker date) name = [].
Proof.
  intro Hunknown. unfold signal_row, AggregateLoop.rows_of.
  induction df_signals as [|r df IH]; [reflexivity|].
  cbn [filter].
  assert (Hr : String.eqb (signal_name r) name = false)
    by (apply String.eqb_neq, Hunknown; left; reflexivity).
  assert (IH' := IH (fun r' Hin => Hunknown r' (or_intror Hin))).
  destruct (_ && _); cbn [filter]; [rewrite Hr|]; exact IH'.
Qed.

Lemma aggregate_step_unknown df_signals ticker date name weight acc :
  (forall r, In r df_signals -> signal_name r <> name) ->
  aggregate_step (AggregateLoop.rows_of df_signals ticker date) acc (name, weight)
  = acc.
Proof.
  intro Hunknown. unfold aggregate_step.
  rewrite (signal_row_unknown _ _ _ _ Hunknown). reflexivity.
Qed.

(** C5, as the code has it.  A configured signal name that appears nowhere
    in the data raises nothing: [aggregate_weighted] skips it, and returns
    what it returns for the weights without that name.  A version whose file
    does not exist makes [load_version] raise [FileNotFoundError]. *)
Theorem unknown_signal_skipped_missing_version_raises
  (df_signals : list normalized_signal) (ticker : string) (date : Z)
  (before after : list (string * Q)) (name : string) (weight : Q)
  (text : Type) (json_load : text -> json)
  (version_dir : gmap string text) (version_id : string) :
  (forall r, In r df_signals -> signal_name r <> name) ->
  version_dir !! (version_id +:+ ".json") = None ->
  aggregate_weighted df_signals ticker date (before ++ (name, weight) :: after)
  = aggregate_weighted df_signals ticker date (before ++ after)
  /\ load_version text json_load version_dir version_id = Raise FileNotFoundError.
Proof.
  intros Hunknown Hmissing. split.
  - unfold aggregate_weighted.
    fold (AggregateLoop.rows_of df_signals ticker date).
    rewrite !fold_left_app. cbn [fold_left].
    rewrite (aggregate_step_unknown _ _ _ _ _ _ Hunknown). reflexivity.
  - unfold load_version. rewrite Hmissing. reflexivity.
Qed.

Definition one_signal_table : list normalized_signal :=
  [mk_norm 1 "E1" "A" (Some 3) (Some 3) (Some 1) (Some 80)].

Lemma unknown_signal_skipped_missing_version_raises_witness :
  aggregate_weighted one_signal_table "E1" 1
    ([("A"%string, 0.6)] ++ ("Z"%string, 0.4) :: [])
  = aggregate_weighted one_signal_table "E1" 1 ([("A"%string, 0.6)] ++ [])
  /\ load_version json (fun doc => doc) (∅ : gmap string json) "20240101_000000_abc"
     = Raise FileNotFoundError.
Proof.
  apply (unknown_signal_skipped_missing_version_raises one_signal_table).
  - intros r [<-|[]]. cbn. discriminate.
  - reflexivity.
Defined.

(** C5 as stated fails on this table: the weights name a signal Z that appears
    in no row, and [aggregate_weighted] returns the score 80 of signal A
    alone; its result type has no exception at all. *)
Lemma unknown_signal_not_raised :
  forallb (fun r => negb (String.eqb (signal_name r) "Z")) one_signal_table = true
  /\ option_map Qred
       (fst (aggregate_weighted one_signal_table "E1" 1
               [("A"%string, 0.6); ("Z"%string, 0.4)]))
     = Some 80.
Proof. split; vm_compute; reflexivity. Qed.

End ConfigurationErrors.

(** ** Risk penalties *)

Module RiskProps.

Import Aggregator RiskSpec.

Lemma min2_le_r (a b : Q) : min2 a b <= b.
Proof.
  unfold min2. destruct (Qlt_bool b a) eqn:E.
  - apply Qle_refl.
  - apply Qlt_bool_false in E. exact E.
Qed.

Lemma max0_nonneg (x : option Q) : 0 <= max0 x.
Proof.
  destruct x as [v|]; cbn; [|apply Qle_refl].
  destruct (Qlt_bool 0 v) eqn:E; [|apply Qle_refl].
  apply Qlt_bool_iff in E. apply Qlt_le_weak, E.
Qed.

(** The penalty of a value [v] above the threshold [t], [M] being the
    cross-sectional maximum: [max_penalty] times the excess [v - t] over
    [M - t + 1e-6], between 0 and [max_penalty]. *)
Lemma penalty_linear (v M t mp : Q) :
  t < v -> v <= M -> 0 < mp ->
  exists p, penalty_of (excess_of v t (Some M)) mp = Some p
            /\ p == mp * (v - t) / (M - t + 0.000001)
            /\ 0 < p /\ p <= mp.
Proof.
  intros Hlt HvM Hmp.
  assert (Heps : 0 < 0.000001) by reflexivity.
  assert (Hden : 0 < M - t + 0.000001) by lra.
  assert (Hex0 : 0 < (v - t) / (M - t + 0.000001))
    by (apply Qlt_shift_div_l; [exact Hden|]; lra).
  assert (Hex1 : (v - t) / (M - t + 0.000001) < 1)
    by (apply Qlt_shift_div_r; [exact Hden|]; lra).
  assert (Hprod : (v - t) / (M - t + 0.000001) * mp < mp).
  { assert (H1 : (v - t) / (M - t + 0.000001) * mp < 1 * mp)
      by (apply Qmult_lt_compat_r; assumption).
    rewrite Qmult_1_l in H1. exact H1. }
  cbn [excess_of lift2 penalty_of option_map]. eexists. split; [reflexivity|].
  split; [|split; [|apply min2_le_r]].
  - unfold min2.
    assert (E : Qlt_bool mp ((v - t) / (M - t + 0.000001) * mp) = false).
    { apply Qlt_bool_false. apply Qlt_le_weak. exact Hprod. }
    rewrite E. field. apply Qnot_eq_sym, Qlt_not_eq, Hden.
  - unfold min2. destruct (Qlt_bool _ _); [exact Hmp|].
    assert (H0 : 0 * mp < (v - t) / (M - t + 0.000001) * mp)
      by (apply Qmult_lt_compat_r; assumption).
    rewrite Qmult_0_l in H0. exact H0.
Qed.

(** C4, as the code has it.  For a rule that affects the block, with
    [max_penalty] 10, [t] being the threshold the rule's percentile gives
    and [M] the cross-sectional maximum of the metric at the date: an
    entity whose metric is exactly [t] receives no penalty, and an entity
    of the table whose metric [v] exceeds [t] receives
    [10 * (v - t) / (M - t + 0.000001)].  The penalty grows linearly with
    the excess [v - t], is positive and is at most 10; at the maximum it is
    [10 * (M - t) / (M - t + 0.000001)], the denominator carrying the guard
    [1e-6] of the code. *)
Theorem penalty_linear_from_threshold
  (df_risk : risk_frame) (date : Z) (block name : string)
  (cfg : penalty_config) (total : Q) (details : list (string * option Q))
  (row_t row_v : risk_row) (v_t v t M : Q) :
  mem block (get (affected_scores cfg) []) = true ->
  mem name (risk_columns df_risk) = true ->
  get (max_penalty cfg) 10 == 10 ->
  Series.quantile (all_values df_risk date name)
    (get (threshold_percentile cfg) 90 / 100) = Ok (Some t) ->
  Series.max (all_values df_risk date name) = Some M ->
  assoc name (rk_values row_t) = Some v_t -> v_t == t ->
  In row_v (risk_rows df_risk) -> rk_date row_v = date ->
  assoc name (rk_values row_v) = Some v -> t < v ->
  penalty_step df_risk row_t date block (Some total, details) (name, cfg)
  = Ok (Some total, details)
  /\ exists p,
       penalty_step df_risk row_v date block (Some total, details) (name, cfg)
       = Ok (Some (total + p), (details ++ [(name, Some p)])%list)
       /\ p == 10 * (v - t) / (M - t + 0.000001)
       /\ 0 < p /\ p <= 10
       /\ (v == M -> p == 10 * (M - t) / (M - t + 0.000001)).
Proof.
  intros Haff Hcol Hmp Hq Hmax Ht Heq Hin Hdate Hv Hlt.
  unfold penalty_step. rewrite Haff. cbn [negb andb]. rewrite Hcol.
  fold (all_values df_risk date name). rewrite Hq. cbn [mbind result_bind bind].
  rewrite Ht, Hv. split.
  - assert (E : Qlt_bool t v_t = false)
      by (apply Qlt_bool_false; rewrite Heq; apply Qle_refl).
    rewrite E. reflexivity.
  - assert (E : Qlt_bool t v = true) by (apply Qlt_bool_iff; exact Hlt).
    rewrite E, Hmax.
    assert (HvM : v <= M).
    { assert (Hcell : In (Some v) (all_values df_risk date name)).
      { unfold all_values, column. apply in_map_iff. exists row_v.
        split; [exact Hv|]. apply filter_In.
        split; [exact Hin|apply Z.eqb_eq, Hdate]. }
      destruct (SeriesProps.max_ge _ _ Hcell) as (M' & HM' & Hle).
      rewrite Hmax in HM'. injection HM' as <-. exact Hle. }
    assert (Hpos : 0 < get (max_penalty cfg) 10) by (rewrite Hmp; reflexivity).
    destruct (penalty_linear v M t _ Hlt HvM Hpos) as (p & Hp & Hval & H0 & H10).
    exists p. rewrite Hp. cbn [lift2]. split; [reflexivity|].
    rewrite Hmp in Hval, H10. split; [exact Hval|]. split; [exact H0|].
    split; [exact H10|]. intro HM. rewrite Hval, HM. reflexivity.
Qed.

(** On the eleven entities with a volatility of 0, 1, ..., 10 the threshold
    is 9 and the maximum 10: the entity at 9 receives no penalty and the
    entity at 10 receives [10 / 1.000001]. *)
Lemma penalty_linear_from_threshold_witness :
  penalty_step volatility_frame (volatility_row "E9" 9) 1 "contrarian"
    (Some 0, []) volatility_rule
  = Ok (Some 0, [])
  /\ exists p,
       penalty_step volatility_frame (volatility_row "E10" 10) 1 "contrarian"
         (Some 0, []) volatility_rule
       = Ok (Some (0 + p), ([] ++ [("volatility"%string, Some p)])%list)
       /\ p == 10 * (10 - 9.00) / (10 - 9.00 + 0.000001)
       /\ 0 < p /\ p <= 10
       /\ (10 == 10 -> p == 10 * (10 - 9.00) / (10 - 9.00 + 0.000001)).
Proof.
  apply (penalty_linear_from_threshold volatility_frame 1 "contrarian"
           "volatility" (snd volatility_rule) 0 []
           (volatility_row "E9" 9) (volatility_row "E10" 10)
           (inject_Z 9) (inject_Z 10) 9.00 10).
  - reflexivity.
  - reflexivity.
  - reflexivity.
  - vm_compute. reflexivity.
  - vm_compute. reflexivity.
  - reflexivity.
  - reflexivity.
  - unfold volatility_frame, volatility_row. cbn [risk_rows map fst snd].
    do 10 right. left. reflexivity.
  - reflexivity.
  - reflexivity.
  - reflexivity.
Defined.

(** C4 as stated fails on the example: the threshold (the 90th percentile) is
    9 and the maximum 10; the entity at the maximum receives the penalty
    [10 / 1.000001], not 10, and its score of 50 becomes about 40.00001. *)
Lemma penalty_at_maximum_below_max_penalty :
  match apply_risk_penalties (Some 50) "E10" 1 volatility_frame
          (penalties_only [volatility_rule]) "contrarian" with
  | Ok (Some adjusted, [(_, Some penalty)]) => (Qred penalty, Qred adjusted)
  | _ => (0, 0)
  end = (10000000 # 1000001, 40000050 # 1000001).
Proof. vm_compute. reflexivity. Qed.

End RiskProps.

(** ** The normalizer *)

Module NormalizerProps.

Import Normalizer NormalizerSpec Models.

Lemma for_each_Ok {A B : Type} (f : A -> result B) (xs : list A) (ys : list B) :
  for_each f xs = Ok ys ->
  forall y, In y ys -> exists x, In x xs /\ f x = Ok y.
Proof.
  revert ys. induction xs as [|x xs IH]; intros ys H y Hy.
  - cbn in H. injection H as <-. destruct Hy.
  - cbn in H. destruct (f x) as [b|e] eqn:Hfx; cbn in H; [|discriminate].
    destruct (for_each f xs) as [bs|e] eqn:Hrest; cbn in H; [|discriminate].
    injection H as <-. destruct Hy as [<-|Hy].
    + exists x. split; [left; reflexivity|exact Hfx].
    + destruct (IH bs eq_refl y Hy) as (x' & Hin & Hx').
      exists x'. split; [right; exact Hin|exact Hx'].
Qed.

Lemma assign_value_normalized rows : forall w z n r,
  In r (assign rows w z n) -> In (value_normalized r) n.
Proof.
  induction rows as [|r0 rows IH]; intros w z n r Hin; [destruct Hin|].
  destruct w as [|wi w]; [destruct Hin|].
  destruct z as [|zi z]; [destruct Hin|].
  destruct n as [|ni n]; [destruct Hin|].
  cbn in Hin. destruct Hin as [<-|Hin].
  - left. reflexivity.
  - right. apply (IH w z n r Hin).
Qed.

Section WithLibm.

Variable norm_cdf : Q -> Q.
Variable sqrt : Q -> Q.
Hypothesis norm_cdf_range : forall z, 0 <= norm_cdf z /\ norm_cdf z <= 1.

Lemma zscore_to_0_100_range zscore v :
  In (Some v) (zscore_to_0_100 norm_cdf zscore) -> 0 <= v /\ v <= 100.
Proof.
  unfold zscore_to_0_100. intro Hin. apply in_map_iff in Hin.
  destruct Hin as ([z|] & Hz & _); [|discriminate].
  cbn in Hz. injection Hz as <-.
  destruct (norm_cdf_range z) as [H0 H1]. split; lra.
Qed.

Lemma normalize_frame_range frame direction winsorize_pct use_robust out r v :
  normalize_frame norm_cdf sqrt frame direction winsorize_pct use_robust = Ok out ->
  In r out -> value_normalized r = Some v -> 0 <= v /\ v <= 100.
Proof.
  unfold normalize_frame. intros H Hin Hv.
  destruct (winsorize _ _ _) as [w|e]; cbn in H; [|discriminate].
  injection H as <-.
  apply assign_value_normalized in Hin. rewrite Hv in Hin.
  apply (zscore_to_0_100_range _ _ Hin).
Qed.

Lemma normalize_signal_range df_signals name direction winsorize_pct use_robust
  cross_sectional out r v :
  normalize_signal norm_cdf sqrt df_signals name direction winsorize_pct
    use_robust cross_sectional = Ok out ->
  In r out -> value_normalized r = Some v -> 0 <= v /\ v <= 100.
Proof.
  unfold normalize_signal. intros H Hin Hv.
  destruct (List.filter _ df_signals) as [|r0 signal_df] eqn:Hf.
  - injection H as <-. destruct Hin.
  - destruct cross_sectional.
    + destruct (for_each _ _) as [results|e] eqn:Hloop; cbn in H; [|discriminate].
      injection H as <-. apply in_concat in Hin.
      destruct Hin as (group & Hgroup & Hin).
      destruct (for_each_Ok _ _ _ Hloop group Hgroup) as (d & _ & Hd).
      apply (normalize_frame_range _ _ _ _ _ _ _ Hd Hin Hv).
    + apply (normalize_frame_range _ _ _ _ _ _ _ H Hin Hv).
Qed.

Lemma normalize_all_signals_range df_signals cfg out r v :
  normalize_all_signals norm_cdf sqrt df_signals cfg = Ok out ->
  In r out -> value_normalized r = Some v -> 0 <= v /\ v <= 100.
Proof.
  unfold normalize_all_signals. intros H Hin Hv.
  destruct (for_each _ _) as [results|e] eqn:Hloop; cbn in H; [|discriminate].
  injection H as <-. apply in_concat in Hin.
  destruct Hin as (group & Hgroup & Hin).
  destruct (for_each_Ok _ _ _ Hloop group Hgroup) as (name & _ & Hname).
  apply (normalize_signal_range _ _ _ _ _ _ _ _ _ Hname Hin Hv).
Qed.

End WithLibm.

(** The normalized value of a row is [norm_cdf] of its signed z-score,
    times 100, and NaN when the z-score is. *)
Lemma assign_cdf (norm_cdf : Q -> Q) rows : forall w z r,
  In r (assign rows w z (zscore_to_0_100 norm_cdf z)) ->
  value_normalized r = option_map (fun x => norm_cdf x * 100) (value_zscore r).
Proof.
  induction rows as [|r0 rows IH]; intros w z r Hin; [destruct Hin|].
  destruct w as [|wi w]; [destruct Hin|].
  destruct z as [|zi z]; [destruct Hin|].
  cbn in Hin. destruct Hin as [<-|Hin]; [reflexivity|].
  apply (IH w z r Hin).
Qed.

Lemma normalize_frame_cdf (norm_cdf sqrt : Q -> Q) frame direction
  winsorize_pct use_robust out r :
  normalize_frame norm_cdf sqrt frame direction winsorize_pct use_robust = Ok out ->
  In r out ->
  value_normalized r = option_map (fun x => norm_cdf x * 100) (value_zscore r).
Proof.
  unfold normalize_frame. intros H Hin.
  destruct (winsorize _ _ _) as [w|e]; cbn in H; [|discriminate].
  injection H as <-. apply (assign_cdf _ _ _ _ _ Hin).
Qed.

Lemma normalize_signal_cdf (norm_cdf sqrt : Q -> Q) df_signals name direction
  winsorize_pct use_robust cross_sectional r :
  In r (rows_of_result
          (normalize_signal norm_cdf sqrt df_signals name direction
             winsorize_pct use_robust cross_sectional)) ->
  value_normalized r = option_map (fun x => norm_cdf x * 100) (value_zscore r).
Proof.
  unfold normalize_signal.
  destruct (List.filter _ df_signals) as [|r0 signal_df] eqn:Hf;
    [intros []|].
  destruct cross_sectional.
  - destruct (for_each _ _) as [results|e] eqn:Hloop; cbn; [|intros []].
    intro Hin. apply in_concat in Hin. destruct Hin as (group & Hgroup & Hin).
    destruct (for_each_Ok _ _ _ Hloop group Hgroup) as (d & _ & Hd).
    apply (normalize_frame_cdf _ _ _ _ _ _ _ _ Hd Hin).
  - destruct (normalize_frame _ _ _ _ _ _) as [out|e] eqn:Hn; [|intros []].
    cbn. intro Hin. apply (normalize_frame_cdf _ _ _ _ _ _ _ _ Hn Hin).
Qed.

(** C1, on the code.  [normalize_signal] has no neutral fallback.  In a
    group of two observations, 1 and 3, the z-scores are -0.6745 and 0.6745
    and not 0; in a group whose MAD is zero, the member off the median has
    the z-score 3200000, the scale being the floor [1e-6]; in both the
    normalized value is [norm_cdf z * 100].  With the classical statistics a
    group of a single observation has a NaN standard deviation, and its
    normalized value is NaN. *)
Theorem normalize_signal_lacks_neutral_fallback (norm_cdf sqrt : Q -> Q) :
  let two := normalize_signal norm_cdf sqrt two_observations "s" 1
               (0.05, 0.95) true true in
  let flat := normalize_signal norm_cdf sqrt zero_mad_group "s" 1
                (0.05, 0.95) true true in
  let one := normalize_signal norm_cdf sqrt single_observation "s" 1
               (0.05, 0.95) false true in
  map (option_map Qred) (column_of value_zscore two)
  = [Some (-5000 # 7413); Some (5000 # 7413)]
  /\ map (option_map Qred) (column_of value_zscore flat)
     = [Some 0; Some 0; Some 0; Some 0; Some 3200000]
  /\ (forall r, In r (rows_of_result two ++ rows_of_result flat) ->
                value_normalized r
                = option_map (fun z => norm_cdf z * 100) (value_zscore r))
  /\ column_of value_zscore one = [None]
  /\ column_of value_normalized one = [None].
Proof.
  cbn zeta. split; [|split; [|split; [|split]]].
  - vm_compute. reflexivity.
  - vm_compute. reflexivity.
  - intros r Hin. apply in_app_or in Hin.
    destruct Hin as [Hin|Hin]; apply (normalize_signal_cdf _ _ _ _ _ _ _ _ _ Hin).
  - vm_compute. reflexivity.
  - vm_compute. reflexivity.
Qed.

(** The same groups under the stand-in for [norm_cdf]: no value is 50 in
    the group of two, and the member off the median is not at 50 either. *)
Example small_groups_under_cdf_model :
  map (option_map (fun v => Qeq_bool v 50))
    (column_of value_normalized
       (normalize_signal cdf_model sqrt_model two_observations "s" 1
          (0.05, 0.95) true true))
  = [Some false; Some false]
  /\ map (option_map (fun v => Qeq_bool v 50))
       (column_of value_normalized
          (normalize_signal cdf_model sqrt_model zero_mad_group "s" 1
             (0.05, 0.95) true true))
     = [Some true; Some true; Some true; Some true; Some false].
Proof. split; vm_compute; reflexivity. Qed.

(** *** What the floor of the scale does give *)

Lemma max2_floor (a : option Q) (b sc : Q) : max2 a b = Some sc -> b <= sc.
Proof.
  destruct a as [x|]; cbn; [|discriminate].
  destruct (Qlt_bool x b) eqn:E; intro H; injection H as <-.
  - apply Qle_refl.
  - apply Qlt_bool_false in E. exact E.
Qed.

(** The scale the z-score divides by is never below [mad_min]: no division
    by zero takes place. *)
Lemma zscore_scale_floor (sqrt : Q -> Q) series use_robust mad_min sc :
  zscore_scale sqrt series use_robust mad_min = Some sc -> mad_min <= sc.
Proof.
  unfold zscore_scale. destruct use_robust; apply max2_floor.
Qed.

Lemma dropna_map (f : Q -> Q) (s : list (option Q)) :
  Series.dropna (map (option_map f) s) = map f (Series.dropna s).
Proof.
  induction s as [|[x|] s IH]; cbn; [reflexivity| |exact IH].
  rewrite IH. reflexivity.
Qed.

Lemma constant_map (f : Q -> Q) (c c' : Q) (s : list (option Q)) :
  constant c s -> (forall x, x == c -> f x == c') ->
  constant c' (map (option_map f) s).
Proof.
  unfold constant. intros Hc Hf. rewrite dropna_map.
  rewrite Forall_forall in *. intros y Hy. apply in_map_iff in Hy.
  destruct Hy as (x & <- & Hx). apply Hf, Hc, Hx.
Qed.

Lemma sub_Some (s : list (option Q)) (m : Q) :
  Series.sub s (Some m) = map (option_map (fun a => a - m)) s.
Proof.
  unfold Series.sub. apply map_ext. intros [a|]; reflexivity.
Qed.

Lemma median_defined (s : list (option Q)) :
  Series.dropna s <> [] -> exists m, Series.median s = Some m.
Proof.
  intro Hne. unfold Series.median.
  destruct (Series.dropna s) as [|x v]; [congruence|].
  destruct (Nat.even _); eexists; reflexivity.
Qed.

Lemma median_constant (c : Q) (s : list (option Q)) :
  constant c s -> Series.dropna s <> [] ->
  exists m, Series.median s = Some m /\ m == c.
Proof.
  intros Hc Hne. assert (H := SeriesProps.median_const c s Hc).
  destruct (Series.dropna s); [congruence|exact H].
Qed.

Lemma mean_constant (c : Q) (s : list (option Q)) :
  constant c s -> Series.dropna s <> [] ->
  exists m, Series.mean s = Some m /\ m == c.
Proof.
  intros Hc Hne. assert (H := SeriesProps.mean_const c s Hc).
  destruct (Series.dropna s); [congruence|exact H].
Qed.

(** On a constant group the centre is the common value and the scale is
    defined: always with the robust statistics, and from two valid
    observations on with the classical ones. *)
Lemma zscore_constant (sqrt : Q -> Q) (c : Q) (w : list (option Q))
  (use_robust : bool) (mad_min : Q) :
  constant c w -> Series.dropna w <> [] ->
  use_robust = true \/ (2 <= List.length (Series.dropna w))%nat ->
  exists m sc, zscore_center w use_robust = Some m /\ m == c
               /\ zscore_scale sqrt w use_robust mad_min = Some sc.
Proof.
  intros Hc Hne Hmode. unfold zscore_center, zscore_scale.
  destruct use_robust.
  - destruct (median_constant c w Hc Hne) as (m & Hm & Hmc).
    rewrite Hm, sub_Some.
    destruct (median_defined
                (Series.abs (map (option_map (fun a => a - m)) w)))
      as (mad & Hmad).
    { unfold Series.abs. rewrite !dropna_map. intro E.
      apply Hne. destruct (Series.dropna w); [reflexivity|discriminate]. }
    rewrite Hmad. cbn. eauto.
  - destruct Hmode as [Hr|Hlen]; [discriminate|].
    destruct (mean_constant c w Hc Hne) as (m & Hm & Hmc).
    rewrite Hm. unfold Series.std.
    destruct (Series.dropna w) as [|x [|y v]]; cbn in Hlen; try lia.
    cbn. eauto.
Qed.

Lemma winsorize_constant (c p_low p_high : Q) (s : list (option Q)) :
  constant c s -> 0 <= p_low <= 1 -> 0 <= p_high <= 1 ->
  exists f : Q -> Q,
    winsorize s p_low p_high = Ok (map (option_map f) s)
    /\ (Series.dropna s <> [] -> forall x, x == c -> f x == c).
Proof.
  intros Hc [Hl0 Hl1] [Hh0 Hh1]. unfold winsorize.
  assert (Hlow := SeriesProps.quantile_const c p_low s Hc Hl0 Hl1).
  assert (Hhigh := SeriesProps.quantile_const c p_high s Hc Hh0 Hh1).
  destruct (Series.dropna s) as [|x0 v] eqn:Hv.
  - rewrite Hlow, Hhigh. cbn. exists (fun x => x). split; [|congruence].
    f_equal. clear. induction s as [|[x|] s IH]; cbn; congruence.
  - destruct Hlow as (l & Hlq & Hlc). destruct Hhigh as (u & Huq & Huc).
    rewrite Hlq, Huq. cbn.
    exists (fun x => Qmax (Qmin l u) (Qmin x (Qmax l u))).
    split; [reflexivity|]. intros _ x Hx.
    rewrite Hlc, Huc, Hx, Q.max_id, !Q.min_id, Q.max_id. reflexivity.
Qed.

Lemma assign_maps (frame : list raw_signal) (f g h : raw_signal -> option Q) :
  assign frame (map f frame) (map g frame) (map h frame)
  = map (fun r => mk_norm (rs_date r) (rs_ticker r) (rs_signal_name r)
                    (rs_value_raw r) (f r) (g r) (h r))
      frame.
Proof.
  induction frame as [|r frame IH]; [reflexivity|]. cbn. rewrite IH. reflexivity.
Qed.

(** A group whose valid observations are all equal normalizes to 50 on each
    of them, without an exception and without NaN: with the robust
    statistics whatever its size, and with the classical ones from two
    valid observations on, the mean and the standard deviation being those
    of exact arithmetic.  (Members with a NaN raw value keep a NaN.) *)
Theorem constant_group_is_neutral (norm_cdf sqrt : Q -> Q)
  (frame : list raw_signal) (direction : Z) (p_low p_high c : Q)
  (use_robust : bool) :
  norm_cdf 0 == 1 # 2 ->
  Proper (Qeq ==> Qeq) norm_cdf ->
  0 <= p_low <= 1 -> 0 <= p_high <= 1 ->
  constant c (map rs_value_raw frame) ->
  use_robust = true
  \/ (2 <= List.length (Series.dropna (map rs_value_raw frame)))%nat ->
  exists out,
    normalize_frame norm_cdf sqrt frame direction (p_low, p_high) use_robust
    = Ok out
    /\ map value_raw out = map rs_value_raw frame
    /\ forall r, In r out ->
         match value_raw r with
         | Some _ => exists v, value_normalized r = Some v /\ v == 50
         | None => value_normalized r = None
         end.
Proof.
  intros Hzero Hproper Hlow Hhigh Hc Hmode.
  destruct (winsorize_constant c p_low p_high _ Hc Hlow Hhigh) as (f & Hw & Hf).
  unfold normalize_frame. cbn [fst snd]. rewrite Hw. cbn [mbind result_bind bind].
  set (w := map (option_map f) (map rs_value_raw frame)).
  unfold robust_zscore, zscore_to_0_100, Series.mul, Series.div, Series.sub.
  set (center := zscore_center w use_robust).
  set (scale := zscore_scale sqrt w use_robust mad_min_default).
  subst w. rewrite !map_map, assign_maps.
  eexists. split; [reflexivity|]. split; [rewrite map_map; reflexivity|].
  intros r Hin. apply in_map_iff in Hin. destruct Hin as (r0 & <- & Hr0).
  cbn [value_raw value_normalized].
  destruct (rs_value_raw r0) as [x|] eqn:Hraw; [|reflexivity].
  assert (Hx : In x (Series.dropna (map rs_value_raw frame))).
  { apply SeriesProps.dropna_In. rewrite <- Hraw. apply in_map, Hr0. }
  assert (Hne : Series.dropna (map rs_value_raw frame) <> [])
    by (intro E; rewrite E in Hx; destruct Hx).
  assert (Hxc : x == c).
  { unfold constant in Hc. rewrite Forall_forall in Hc. apply Hc, Hx. }
  assert (Hcw : constant c (map (option_map f) (map rs_value_raw frame)))
    by (apply (constant_map f c c); [exact Hc|apply Hf, Hne]).
  assert (Hnw : Series.dropna (map (option_map f) (map rs_value_raw frame)) <> []).
  { rewrite dropna_map. intro E. apply Hne.
    destruct (Series.dropna (map rs_value_raw frame)); [reflexivity|discriminate]. }
  assert (Hmw : use_robust = true
                \/ (2 <= List.length
                           (Series.dropna
                              (map (option_map f) (map rs_value_raw frame))))%nat).
  { destruct Hmode as [Hr|Hlen]; [left; exact Hr|right].
    rewrite dropna_map, length_map. exact Hlen. }
  destruct (zscore_constant sqrt c _ use_robust mad_min_default Hcw Hnw Hmw)
    as (m & sc & Hcenter & Hmc & Hscale).
  fold center in Hcenter. fold scale in Hscale. rewrite Hcenter, Hscale.
  cbn [option_map]. eexists. split; [reflexivity|].
  assert (Harg : (f x - m) / sc * inject_Z direction == 0).
  { rewrite (Hf Hne x Hxc), Hmc. unfold Qdiv. ring. }
  rewrite (Hproper _ _ Harg), Hzero. reflexivity.
Qed.

Lemma cdf_model_range (z : Q) : 0 <= cdf_model z /\ cdf_model z <= 1.
Proof.
  unfold cdf_model.
  assert (Habs : 0 <= Qabs z) by apply Qabs_nonneg.
  assert (Hle : z <= Qabs z) by apply Qle_Qabs.
  assert (Hge : - Qabs z <= z).
  { rewrite <- (Qopp_involutive z) at 2. apply Qopp_le_compat.
    rewrite <- Qabs_opp. apply Qle_Qabs. }
  assert (Hd : 0 < 2 * (1 + Qabs z)) by lra.
  assert (Hup : z / (2 * (1 + Qabs z)) <= 1 # 2)
    by (apply Qle_shift_div_r; [exact Hd|]; lra).
  assert (Hlo : - (1 # 2) <= z / (2 * (1 + Qabs z)))
    by (apply Qle_shift_div_l; [exact Hd|]; lra).
  split; lra.
Qed.

End NormalizerProps.

(** ** Bounds of normalized values and adjusted scores *)

Module Bounds.

Import Normalizer Aggregator RiskSpec Models.

Lemma apply_risk_penalties_unfold s ticker date df_risk cfg block :
  apply_risk_penalties (Some s) ticker date df_risk cfg block
  = match ticker_date_risk df_risk ticker date with
    | [] => Ok (Some s, [])
    | row0 :: _ =>
        match penalty_loop df_risk row0 date block (Some 0, [])
                (get (cfg_soft_penalties cfg) []) with
        | Ok (total_penalty, penalty_details) =>
            Ok (Some (max0 (lift2 Qminus (Some s) total_penalty)), penalty_details)
        | Raise e => Raise e
        end
    end.
Proof.
  unfold apply_risk_penalties, ticker_date_risk.
  destruct (List.filter _ _) as [|row0 rest]; [reflexivity|].
  destruct (penalty_loop _ _ _ _ _ _) as [[tp pd]|e]; reflexivity.
Qed.

Lemma max0_spec (x : Q) : max0 (Some x) == Qmax 0 x.
Proof.
  cbn. destruct (Qlt_bool 0 x) eqn:E.
  - apply Qlt_bool_iff in E. symmetry. apply Q.max_r. apply Qlt_le_weak, E.
  - apply Qlt_bool_false in E. symmetry. apply Q.max_l. exact E.
Qed.

(** A penalty larger than the score is floored: the entity at the maximum
    of the example, with a score of 5, is adjusted to 0. *)
Example adjusted_score_floored_at_0 :
  match apply_risk_penalties (Some 5) "E10" 1 volatility_frame
          (penalties_only [volatility_rule]) "contrarian" with
  | Ok (Some adjusted, _) => Qred adjusted
  | _ => 1
  end = 0.
Proof. vm_compute. reflexivity. Qed.

(** No cap at 100: under a rule with a negative [max_penalty] a score of 95
    is adjusted to 105. *)
Example adjusted_score_not_capped_at_100 :
  match apply_risk_penalties (Some 95) "E10" 1 volatility_frame
          (penalties_only [bonus_rule]) "contrarian" with
  | Ok (Some adjusted, _) => Qred adjusted
  | _ => 0
  end = 105.
Proof. vm_compute. reflexivity. Qed.

End Bounds.

(** ** Percentile-rank quintiles *)

Module QuintileProps.

Import Series Recalculate QuintileSpec.

Lemma Qeq_bool_refl (x : Q) : Qeq_bool x x = true.
Proof. apply Qeq_bool_iff. reflexivity. Qed.

Lemma cut_proper (r r' : Q) : r == r' -> cut r = cut r'.
Proof.
  intro H. unfold cut, Qlt_bool.
  assert (Hle : forall b, Qle_bool r b = Qle_bool r' b).
  { intro b. destruct (Qle_bool r b) eqn:E1, (Qle_bool r' b) eqn:E2; try reflexivity.
    - apply Qle_bool_iff in E1. rewrite H in E1. apply Qle_bool_iff in E1. congruence.
    - apply Qle_bool_iff in E2. rewrite <- H in E2. apply Qle_bool_iff in E2. congruence. }
  assert (Hge : forall b, Qle_bool b r = Qle_bool b r').
  { intro b. destruct (Qle_bool b r) eqn:E1, (Qle_bool b r') eqn:E2; try reflexivity.
    - apply Qle_bool_iff in E1. rewrite H in E1. apply Qle_bool_iff in E1. congruence.
    - apply Qle_bool_iff in E2. rewrite <- H in E2. apply Qle_bool_iff in E2. congruence. }
  rewrite Hge, !Hle. reflexivity.
Qed.

(** *** Positions of distinct values *)

Lemma filter_length_le {A : Type} (p : A -> bool) (l : list A) :
  (List.length (List.filter p l) <= List.length l)%nat.
Proof.
  induction l as [|a l IH]; cbn; [lia|]. destruct (p a); cbn; lia.
Qed.

Lemma filter_length_mono {A : Type} (p q : A -> bool) (l : list A) :
  (forall a, In a l -> p a = true -> q a = true) ->
  (List.length (List.filter p l) <= List.length (List.filter q l))%nat.
Proof.
  induction l as [|a l IH]; intro H; cbn; [lia|].
  assert (IH' := IH (fun b Hb => H b (or_intror Hb))).
  destruct (p a) eqn:Hp.
  - rewrite (H a (or_introl eq_refl) Hp). cbn. lia.
  - destruct (q a); cbn; lia.
Qed.

Lemma filter_length_strict {A : Type} (p q : A -> bool) (l : list A) (w : A) :
  (forall a, In a l -> p a = true -> q a = true) ->
  In w l -> p w = false -> q w = true ->
  (List.length (List.filter p l) < List.length (List.filter q l))%nat.
Proof.
  induction l as [|a l IH]; intros H Hw Hpw Hqw; [destruct Hw|].
  assert (Hl : forall b, In b l -> p b = true -> q b = true)
    by (intros b Hb; apply H; right; exact Hb).
  cbn. destruct Hw as [->|Hw].
  - rewrite Hpw, Hqw. cbn.
    assert (Hm := filter_length_mono p q l Hl). lia.
  - assert (IH' := IH Hl Hw Hpw Hqw).
    destruct (p a) eqn:Hp.
    + rewrite (H a (or_introl eq_refl) Hp). cbn. lia.
    + destruct (q a); cbn; lia.
Qed.

Lemma below_lt (xs : list Q) (x y : Q) :
  In x xs -> x < y -> (below xs x < below xs y)%nat.
Proof.
  intros Hin Hlt. unfold below, count_if.
  apply (filter_length_strict _ _ xs x).
  - intros a _ Ha. apply Qlt_bool_iff in Ha. apply Qlt_bool_iff.
    eapply Qlt_trans; eassumption.
  - exact Hin.
  - apply Qlt_bool_false. apply Qle_refl.
  - apply Qlt_bool_iff, Hlt.
Qed.

Lemma below_bound (xs : list Q) (x : Q) :
  In x xs -> (below xs x < List.length xs)%nat.
Proof.
  intro Hin. unfold below, count_if.
  assert (Hall : List.filter (fun _ : Q => true) xs = xs)
    by (clear; induction xs; cbn; congruence).
  assert (H : (List.length (List.filter (fun y => Qlt_bool y x) xs)
               < List.length (List.filter (fun _ : Q => true) xs))%nat).
  { apply (filter_length_strict _ _ xs x); auto.
    apply Qlt_bool_false, Qle_refl. }
  rewrite Hall in H. exact H.
Qed.

Lemma all_distinct_cons (x : Q) (l : list Q) :
  all_distinct (x :: l) = true ->
  (forall y, In y l -> ~ x == y) /\ all_distinct l = true.
Proof.
  cbn. intro H. apply andb_true_iff in H. destruct H as [H1 H2].
  split; [|exact H2]. intros y Hy Heq.
  rewrite forallb_forall in H1. specialize (H1 y Hy).
  apply negb_true_iff in H1. apply Qeq_bool_iff in Heq. congruence.
Qed.

Lemma below_injective (xs sub : list Q) :
  incl sub xs -> all_distinct sub = true -> NoDup (map (below xs) sub).
Proof.
  induction sub as [|x sub IH]; intros Hincl Hd; [constructor|].
  apply all_distinct_cons in Hd. destruct Hd as [Hx Hd].
  cbn [map]. constructor.
  - intro Hin. apply in_map_iff in Hin. destruct Hin as (y & Hy & Hysub).
    assert (Hxin : In x xs) by (apply Hincl; left; reflexivity).
    assert (Hyin : In y xs) by (apply Hincl; right; exact Hysub).
    destruct (Q_dec x y) as [[Hlt|Hgt]|Heq].
    + assert (H := below_lt xs x y Hxin Hlt). lia.
    + assert (H := below_lt xs y x Hyin Hgt). lia.
    + apply (Hx y Hysub Heq).
  - apply IH; [|exact Hd]. intros a Ha. apply Hincl. right. exact Ha.
Qed.

Lemma below_permutation (xs : list Q) :
  all_distinct xs = true ->
  Permutation (map (below xs) xs) (seq 0 (List.length xs)).
Proof.
  intro Hd. apply NoDup_Permutation_bis.
  - apply below_injective; [apply incl_refl|exact Hd].
  - rewrite length_seq, length_map. lia.
  - intros j Hj. apply in_map_iff in Hj. destruct Hj as (x & <- & Hx).
    apply in_seq. split; [lia|]. cbn. apply below_bound, Hx.
Qed.

Lemma count_if_eq_distinct (xs : list Q) (x : Q) :
  all_distinct xs = true -> In x xs ->
  count_if (fun y => Qeq_bool y x) xs = 1%nat.
Proof.
  unfold count_if. induction xs as [|a xs IH]; intros Hd Hin; [destruct Hin|].
  apply all_distinct_cons in Hd. destruct Hd as [Ha Hd]. cbn [List.filter].
  destruct Hin as [->|Hin].
  - rewrite Qeq_bool_refl. cbn. f_equal.
    assert (Hnone : forall l, (forall y, In y l -> ~ x == y) ->
                              List.filter (fun y => Qeq_bool y x) l = []).
    { induction l as [|b l IHl]; intro H; [reflexivity|]. cbn.
      destruct (Qeq_bool b x) eqn:E.
      - apply Qeq_bool_iff in E. exfalso.
        apply (H b (or_introl eq_refl)). symmetry. exact E.
      - apply IHl. intros y Hy. apply H. right. exact Hy. }
    rewrite (Hnone xs Ha). reflexivity.
  - destruct (Qeq_bool a x) eqn:E.
    + apply Qeq_bool_iff in E. exfalso. apply (Ha x Hin E).
    + apply IH; assumption.
Qed.

(** The quintile of a value among distinct values is the quintile of its
    position. *)
Lemma cut_rank_distinct (xs : list Q) (x : Q) :
  all_distinct xs = true -> In x xs ->
  cut (rank_pct xs x) = quintile_at (List.length xs) (below xs x).
Proof.
  intros Hd Hin. unfold quintile_at. apply cut_proper.
  unfold rank_pct, rank, Series.count.
  rewrite (count_if_eq_distinct xs x Hd Hin). fold (below xs x).
  rewrite inject_Z_plus.
  assert (Hn : ~ inject_Z (Z.of_nat (List.length xs)) == 0).
  { destruct xs as [|a xs]; [destruct Hin|]. cbn [List.length].
    change 0 with (inject_Z 0). rewrite inject_Z_injective. lia. }
  change (inject_Z (Z.of_nat 1)) with 1. change (inject_Z 1) with 1.
  field. exact Hn.
Qed.

(** *** Counting *)

Lemma quintile_size_perm (k : Z) (l l' : list (option Z)) :
  Permutation l l' -> quintile_size k l = quintile_size k l'.
Proof.
  unfold quintile_size.
  induction 1 as [|q l l' _ IH|q q' l|l l' l'' _ IH1 _ IH2]; cbn.
  - reflexivity.
  - destruct (match q with Some j => Z.eqb j k | None => false end); cbn; lia.
  - destruct (match q with Some j => Z.eqb j k | None => false end),
             (match q' with Some j => Z.eqb j k | None => false end); reflexivity.
  - lia.
Qed.

Lemma quintile_size_dropna (f : Q -> option Z) (k : Z) (series : list (option Q)) :
  quintile_size k
    (map (fun v => match v with Some x => f x | None => None end) series)
  = quintile_size k (map f (dropna series)).
Proof.
  unfold quintile_size.
  induction series as [|[x|] series IH]; cbn; [reflexivity| |exact IH].
  destruct (match f x with Some j => Z.eqb j k | None => false end); cbn; lia.
Qed.

Lemma calculate_quintiles_valid (series : list (option Q)) :
  dropna series <> [] ->
  calculate_quintiles series
  = map (fun v => match v with
                  | Some x => cut (rank_pct (dropna series) x)
                  | None => None
                  end) series.
Proof.
  intro Hne. unfold calculate_quintiles.
  destruct (dropna series); [congruence|reflexivity].
Qed.

(** The sizes of the quintiles of distinct scores are those of the
    positions 0, ..., n - 1. *)
Lemma quintile_size_positions (k : Z) (series : list (option Q)) :
  dropna series <> [] -> all_distinct (dropna series) = true ->
  quintile_size k (calculate_quintiles series)
  = quintile_size k
      (map (quintile_at (List.length (dropna series)))
         (seq 0 (List.length (dropna series)))).
Proof.
  intros Hne Hd. rewrite (calculate_quintiles_valid series Hne).
  rewrite quintile_size_dropna.
  rewrite (map_ext_in _
             (fun x => quintile_at (List.length (dropna series))
                         (below (dropna series) x))).
  - rewrite <- map_map. apply quintile_size_perm, Permutation_map.
    apply below_permutation, Hd.
  - intros x Hx. apply cut_rank_distinct; assumption.
Qed.

Lemma calculate_quintiles_null (series : list (option Q)) (i : nat) :
  nth_error series i = Some None ->
  nth_error (calculate_quintiles series) i = Some None.
Proof.
  intro H. unfold calculate_quintiles.
  destruct (dropna series); rewrite nth_error_map, H; reflexivity.
Qed.

Lemma calculate_quintiles_length (series : list (option Q)) :
  List.length (calculate_quintiles series) = List.length series.
Proof.
  unfold calculate_quintiles. destruct (dropna series); apply length_map.
Qed.

(** *** Sizes for any number of scores *)

Lemma rank_fraction_le (j n k : nat) :
  (0 < n)%nat ->
  inject_Z (Z.of_nat j + 1) / inject_Z (Z.of_nat n) <= inject_Z (Z.of_nat k) / 5
  <-> (5 * (j + 1) <= k * n)%nat.
Proof.
  intro Hn.
  assert (Hnq : 0 < inject_Z (Z.of_nat n)).
  { change 0 with (inject_Z 0). rewrite <- Zlt_Qlt. lia. }
  split; intro H.
  - assert (H1 : inject_Z (Z.of_nat j + 1) * 5
                 <= inject_Z (Z.of_nat k) * inject_Z (Z.of_nat n)).
    { apply (Qmult_le_compat_r _ _ (inject_Z (Z.of_nat n) * 5)) in H; [|lra].
      field_simplify in H; [|lra]. lra. }
    change 5 with (inject_Z 5) in H1.
    rewrite <- !inject_Z_mult, <- Zle_Qle in H1. lia.
  - assert (H1 : inject_Z (Z.of_nat j + 1) * 5
                 <= inject_Z (Z.of_nat k) * inject_Z (Z.of_nat n)).
    { change 5 with (inject_Z 5). rewrite <- !inject_Z_mult, <- Zle_Qle. lia. }
    apply Qle_shift_div_r; [exact Hnq|].
    assert (H2 : inject_Z (Z.of_nat k) / 5 * inject_Z (Z.of_nat n)
                 == (inject_Z (Z.of_nat k) * inject_Z (Z.of_nat n)) / 5)
      by field.
    rewrite H2. apply Qle_shift_div_l; [reflexivity|]. exact H1.
Qed.

Lemma rank_fraction_leb (j n k : nat) (edge : Q) :
  (0 < n)%nat -> edge == inject_Z (Z.of_nat k) / 5 ->
  Qle_bool (inject_Z (Z.of_nat j + 1) / inject_Z (Z.of_nat n)) edge
  = (5 * (j + 1) <=? k * n)%nat.
Proof.
  intros Hn Hedge.
  destruct (Nat.leb_spec (5 * (j + 1)) (k * n)) as [H|H].
  - apply Qle_bool_iff. rewrite Hedge. apply rank_fraction_le; assumption.
  - destruct (Qle_bool _ edge) eqn:E; [|reflexivity].
    apply Qle_bool_iff in E. rewrite Hedge in E.
    apply rank_fraction_le in E; [lia|exact Hn].
Qed.

Lemma quintile_at_bucket (n j : nat) :
  (0 < n)%nat -> quintile_at n j = bucket n j.
Proof.
  intro Hn. unfold quintile_at, cut, bucket.
  assert (Hpos : Qlt_bool (inject_Z (Z.of_nat j + 1) / inject_Z (Z.of_nat n)) 0
                 = false).
  { apply Qlt_bool_false. apply Qle_shift_div_l.
    - change 0 with (inject_Z 0). rewrite <- Zlt_Qlt. lia.
    - rewrite Qmult_0_l. change 0 with (inject_Z 0). rewrite <- Zle_Qle. lia. }
  rewrite Hpos.
  rewrite (rank_fraction_leb j n 1 0.2 Hn) by reflexivity.
  rewrite (rank_fraction_leb j n 2 0.4 Hn) by reflexivity.
  rewrite (rank_fraction_leb j n 3 0.6 Hn) by reflexivity.
  rewrite (rank_fraction_leb j n 4 0.8 Hn) by reflexivity.
  rewrite (rank_fraction_leb j n 5 1.0 Hn) by reflexivity.
  rewrite Nat.mul_1_l. reflexivity.
Qed.

Lemma up_to_length (k n m : nat) :
  (0 < n)%nat ->
  List.length (up_to k n (seq 0 m)) = Nat.min m (k * n / 5).
Proof.
  intro Hn. unfold up_to.
  assert (Hdiv := Nat.div_mod_eq (k * n) 5).
  assert (Hmod := Nat.mod_upper_bound (k * n) 5).
  induction m as [|m IH]; [reflexivity|].
  rewrite seq_S, filter_app, length_app, IH. cbn [List.filter Nat.add].
  destruct (Nat.leb_spec (5 * (m + 1)) (k * n)) as [H|H]; cbn [List.length]; lia.
Qed.

(** The quintile [k] holds the positions up to [k / 5] that are not up to
    [(k - 1) / 5]. *)
Lemma bucket_sizes (n : nat) (positions : list nat) (k : nat) :
  (1 <= k <= 5)%nat ->
  (quintile_size (Z.of_nat k) (map (bucket n) positions)
   + List.length (up_to (k - 1) n positions)
   = List.length (up_to k n positions))%nat.
Proof.
  intro Hk. unfold quintile_size, up_to.
  assert (Hcases : (k = 1 \/ k = 2 \/ k = 3 \/ k = 4 \/ k = 5)%nat) by lia.
  destruct Hcases as [->|[->|[->|[->| ->]]]];
    cbn [Nat.sub];
    change (Z.of_nat 1) with 1%Z; change (Z.of_nat 2) with 2%Z;
    change (Z.of_nat 3) with 3%Z; change (Z.of_nat 4) with 4%Z;
    change (Z.of_nat 5) with 5%Z;
    (induction positions as [|j l IH]; [reflexivity|]);
    cbn [map List.filter]; unfold bucket at 1;
    repeat match goal with
           | |- context [(?a <=? ?b)%nat] =>
               destruct (Nat.leb_spec a b); try lia
           end;
    cbn [Z.eqb Pos.eqb List.length] in *; lia.
Qed.

Lemma bucket_never_0 (n : nat) (positions : list nat) :
  quintile_size 0 (map (bucket n) positions) = 0%nat.
Proof.
  unfold quintile_size. induction positions as [|j l IH]; [reflexivity|].
  cbn [map List.filter]. unfold bucket at 1.
  repeat match goal with
         | |- context [(?a <=? ?b)%nat] => destruct (a <=? b)%nat
         end; exact IH.
Qed.

(** Among [n] pairwise different valid scores the quintile [k] has
    [k * n / 5 - (k - 1) * n / 5] members (whole-number divisions). *)
Lemma quintile_size_exact (series : list (option Q)) (k : nat) :
  all_distinct (dropna series) = true -> (1 <= k <= 5)%nat ->
  let n := List.length (dropna series) in
  quintile_size (Z.of_nat k) (calculate_quintiles series)
  = (k * n / 5 - (k - 1) * n / 5)%nat.
Proof.
  intros Hd Hk. cbn zeta.
  destruct (dropna series) as [|x v] eqn:Hv.
  - unfold calculate_quintiles. rewrite Hv. cbn [List.length].
    rewrite !Nat.mul_0_r. cbn.
    unfold quintile_size. induction series as [|a l IH]; [reflexivity|].
    cbn. apply IH. destruct a; [discriminate|exact Hv].
  - assert (Hne : dropna series <> []) by (rewrite Hv; discriminate).
    rewrite <- Hv in *.
    rewrite (quintile_size_positions _ series Hne Hd).
    set (n := List.length (dropna series)).
    assert (Hn : (0 < n)%nat) by (unfold n; rewrite Hv; cbn; lia).
    rewrite (map_ext_in _ (bucket n))
      by (intros j _; apply quintile_at_bucket, Hn).
    assert (Hsize := bucket_sizes n (seq 0 n) k Hk).
    rewrite !up_to_length in Hsize by exact Hn.
    assert (Hk1 : ((k - 1) * n / 5 <= k * n / 5)%nat)
      by (apply Nat.Div0.div_le_mono; nia).
    assert (Hkn : (k * n / 5 <= n)%nat).
    { apply Nat.Div0.div_le_upper_bound. nia. }
    lia.
Qed.

(** C6.  Among valid, pairwise different scores the percentile-rank method
    puts exactly 20 entities in each of the five quintiles when there are
    100 of them, and for any number [n] of them a fifth of [n], rounded
    down or up.  An entity with a null score receives no quintile (a null,
    never a quintile 0), and the result has one entry per entity. *)
Theorem percentile_rank_quintiles_balanced (series : list (option Q)) :
  all_distinct (dropna series) = true ->
  let quintiles := calculate_quintiles series in
  let n := List.length (dropna series) in
  (n = 100%nat ->
   forall k, In k [1; 2; 3; 4; 5]%Z -> quintile_size k quintiles = 20%nat)
  /\ (forall k, In k [1; 2; 3; 4; 5]%Z ->
                (n / 5 <= quintile_size k quintiles <= n / 5 + 1)%nat)
  /\ quintile_size 0 quintiles = 0%nat
  /\ List.length quintiles = List.length series
  /\ (forall i, nth_error series i = Some None ->
                nth_error quintiles i = Some None).
Proof.
  intro Hd. cbn zeta.
  assert (Hexact : forall k, In k [1; 2; 3; 4; 5]%Z ->
            exists j, k = Z.of_nat j /\ (1 <= j <= 5)%nat
                      /\ quintile_size k (calculate_quintiles series)
                         = (j * List.length (dropna series) / 5
                            - (j - 1) * List.length (dropna series) / 5)%nat).
  { intros k Hk. exists (Z.to_nat k). cbn [In] in Hk.
    assert (Hj : (1 <= Z.to_nat k <= 5)%nat /\ k = Z.of_nat (Z.to_nat k))
      by (destruct Hk as [<-|[<-|[<-|[<-|[<-|[]]]]]]; cbn; split; lia).
    destruct Hj as [Hj Hkj]. split; [exact Hkj|]. split; [exact Hj|].
    rewrite Hkj at 1. apply (quintile_size_exact series _ Hd Hj). }
  split; [|split; [|split; [|split]]].
  - intros Hlen k Hk. destruct (Hexact k Hk) as (j & _ & Hj & ->).
    rewrite Hlen.
    assert (Hcases : (j = 1 \/ j = 2 \/ j = 3 \/ j = 4 \/ j = 5)%nat) by lia.
    destruct Hcases as [->|[->|[->|[->| ->]]]]; reflexivity.
  - intros k Hk. destruct (Hexact k Hk) as (j & _ & Hj & ->).
    set (n := List.length (dropna series)).
    assert (Hdn := Nat.div_mod_eq n 5). assert (Hmn := Nat.mod_upper_bound n 5).
    assert (Hd1 := Nat.div_mod_eq (j * n) 5).
    assert (Hm1 := Nat.mod_upper_bound (j * n) 5).
    assert (Hd2 := Nat.div_mod_eq ((j - 1) * n) 5).
    assert (Hm2 := Nat.mod_upper_bound ((j - 1) * n) 5).
    assert (Hcases : (j = 1 \/ j = 2 \/ j = 3 \/ j = 4 \/ j = 5)%nat) by lia.
    destruct Hcases as [->|[->|[->|[->| ->]]]]; cbn [Nat.sub] in *; lia.
  - destruct (dropna series) as [|x v] eqn:Hv.
    + unfold calculate_quintiles. rewrite Hv. unfold quintile_size.
      clear. induction series as [|a l IH]; [reflexivity|exact IH].
    + assert (Hne : dropna series <> []) by (rewrite Hv; discriminate).
      rewrite <- Hv in Hd.
      rewrite (quintile_size_positions 0 series Hne Hd).
      rewrite (map_ext_in _ (bucket (List.length (dropna series)))).
      * apply bucket_never_0.
      * intros j _. apply quintile_at_bucket. rewrite Hv. cbn. lia.
  - apply calculate_quintiles_length.
  - apply calculate_quintiles_null.
Qed.

Lemma percentile_rank_quintiles_balanced_witness :
  let quintiles := calculate_quintiles hundred_scores in
  let n := List.length (dropna hundred_scores) in
  (n = 100%nat ->
   forall k, In k [1; 2; 3; 4; 5]%Z -> quintile_size k quintiles = 20%nat)
  /\ (forall k, In k [1; 2; 3; 4; 5]%Z ->
                (n / 5 <= quintile_size k quintiles <= n / 5 + 1)%nat)
  /\ quintile_size 0 quintiles = 0%nat
  /\ List.length quintiles = List.length hundred_scores
  /\ (forall i, nth_error hundred_scores i = Some None ->
                nth_error quintiles i = Some None).
Proof.
  apply (percentile_rank_quintiles_balanced hundred_scores).
  vm_compute. reflexivity.
Defined.

(** The hundred scores of the example, evaluated: 20 entities in each
    quintile and the three null scores without one. *)
Example hundred_scores_sizes :
  map (fun k => quintile_size k (calculate_quintiles hundred_scores))
    [0; 1; 2; 3; 4; 5]%Z
  = [0; 20; 20; 20; 20; 20]%nat.
Proof. vm_compute. reflexivity. Qed.

(** Seven scores: the quintiles hold 1, 1, 2, 1 and 2 entities. *)
Example seven_scores_sizes :
  map (fun k => quintile_size k
                  (calculate_quintiles
                     [Some 7; Some 3; Some 5; Some 1; Some 2; Some 6; Some 4]))
    [1; 2; 3; 4; 5]%Z
  = [1; 1; 2; 1; 2]%nat.
Proof. vm_compute. reflexivity. Qed.

(** The method evaluated: five scores, one of them undefined in between. *)
Example calculate_quintiles_five :
  calculate_quintiles [Some 30; Some 10; None; Some 50; Some 20; Some 40]
  = [Some 3; Some 1; None; Some 5; Some 2; Some 4]%Z.
Proof. vm_compute. reflexivity. Qed.

End QuintileProps.

(** ** The configuration hash *)

Module GovernanceProps.

Import Governance GovernanceSpec Models.

(** *** The order on keys *)

Lemma leb_iff (a b : string) :
  String.leb a b = true <-> a = b \/ String_as_OT.lt a b.
Proof.
  unfold String.leb. destruct (String.compare a b) eqn:E.
  - apply String_as_OT.cmp_eq in E. tauto.
  - apply String_as_OT.cmp_lt in E. tauto.
  - split; [discriminate|]. intros [->|Hlt].
    + assert (H : String_as_OT.cmp b b = Eq) by (apply String_as_OT.cmp_eq; reflexivity).
      unfold String_as_OT.cmp in H. congruence.
    + apply String_as_OT.cmp_lt in Hlt. unfold String_as_OT.cmp in Hlt. congruence.
Qed.

Lemma leb_trans (a b c : string) :
  String.leb a b = true -> String.leb b c = true -> String.leb a c = true.
Proof.
  rewrite !leb_iff. intros [->|H1] [->|H2]; auto.
  right. eapply String_as_OT.lt_trans; eassumption.
Qed.

(** *** Sorting the items of a dict *)

Section Sorting.

Context {A : Type}.

Lemma insert_item_perm (x : string * A) (l : list (string * A)) :
  Permutation (insert_item x l) (x :: l).
Proof.
  induction l as [|y l IH]; cbn; [reflexivity|].
  destruct (String.leb (fst x) (fst y)); [reflexivity|].
  rewrite IH. apply perm_swap.
Qed.

Lemma sort_items_perm (l : list (string * A)) : Permutation (sort_items l) l.
Proof.
  induction l as [|x l IH]; cbn; [reflexivity|].
  rewrite insert_item_perm. constructor. exact IH.
Qed.

Lemma insert_item_sorted (x : string * A) (l : list (string * A)) :
  StronglySorted key_le l -> StronglySorted key_le (insert_item x l).
Proof.
  induction 1 as [|y l Hl IH Hy]; cbn.
  - constructor; constructor.
  - destruct (String.leb (fst x) (fst y)) eqn:E.
    + constructor; [constructor; assumption|].
      constructor; [exact E|].
      rewrite Forall_forall in *. intros z Hz.
      unfold key_le in *. eapply leb_trans; [exact E|apply Hy, Hz].
    + constructor; [exact IH|].
      assert (Hyx : key_le y x).
      { unfold key_le. destruct (String.leb_total (fst x) (fst y)); congruence. }
      rewrite Forall_forall in *. intros z Hz.
      apply (Permutation_in _ (insert_item_perm x l)) in Hz.
      destruct Hz as [<-|Hz]; [exact Hyx|apply Hy, Hz].
Qed.

Lemma sort_items_sorted (l : list (string * A)) :
  StronglySorted key_le (sort_items l).
Proof.
  induction l as [|x l IH]; cbn; [constructor|].
  apply insert_item_sorted, IH.
Qed.

Lemma key_determines (l : list (string * A)) (x y : string * A) :
  NoDup (map fst l) -> In x l -> In y l -> fst x = fst y -> x = y.
Proof.
  induction l as [|z l IH]; intros Hnd Hx Hy Hk; [destruct Hx|].
  cbn in Hnd. apply NoDup_cons_iff in Hnd. destruct Hnd as [Hz Hnd].
  destruct Hx as [->|Hx], Hy as [->|Hy].
  - reflexivity.
  - exfalso. apply Hz. rewrite Hk. apply in_map, Hy.
  - exfalso. apply Hz. rewrite <- Hk. apply in_map, Hx.
  - apply IH; assumption.
Qed.

(** Two sorted lists with the same items, each key once, are equal. *)
Lemma sorted_perm_unique (l1 : list (string * A)) : forall l2,
  StronglySorted key_le l1 -> StronglySorted key_le l2 ->
  NoDup (map fst l1) -> Permutation l1 l2 -> l1 = l2.
Proof.
  induction l1 as [|a l1 IH]; intros l2 Hs1 Hs2 Hnd Hp.
  - apply Permutation_nil in Hp. congruence.
  - destruct l2 as [|b l2].
    { apply Permutation_sym, Permutation_nil in Hp. discriminate. }
    apply StronglySorted_inv in Hs1. destruct Hs1 as [Hs1 Ha].
    apply StronglySorted_inv in Hs2. destruct Hs2 as [Hs2 Hb].
    rewrite Forall_forall in Ha, Hb.
    assert (Hab : a = b).
    { assert (Hain : In a (b :: l2))
        by (apply (Permutation_in _ Hp); left; reflexivity).
      assert (Hbin : In b (a :: l1))
        by (apply (Permutation_in _ (Permutation_sym Hp)); left; reflexivity).
      destruct Hain as [->|Hain]; [reflexivity|].
      destruct Hbin as [->|Hbin]; [reflexivity|].
      apply (key_determines (a :: l1)); [exact Hnd|left; reflexivity|right; exact Hbin|].
      apply String.leb_antisym; [apply Ha, Hbin|apply Hb, Hain]. }
    subst b. f_equal. apply IH; try assumption.
    + cbn in Hnd. apply NoDup_cons_iff in Hnd. tauto.
    + apply Permutation_cons_inv in Hp. exact Hp.
Qed.

Lemma sort_items_perm_eq (l1 l2 : list (string * A)) :
  NoDup (map fst l1) -> Permutation l1 l2 -> sort_items l1 = sort_items l2.
Proof.
  intros Hnd Hp. apply sorted_perm_unique.
  - apply sort_items_sorted.
  - apply sort_items_sorted.
  - apply (Permutation_NoDup (l := map fst l1)); [|exact Hnd].
    apply Permutation_map, Permutation_sym, sort_items_perm.
  - rewrite sort_items_perm, Hp. symmetry. apply sort_items_perm.
Qed.

End Sorting.

(** *** Induction on configurations *)

Lemma json_induction (P : json -> Prop) :
  P JNull -> (forall b, P (JBool b)) -> (forall z, P (JInt z)) ->
  (forall q, P (JFloat q)) -> (forall s, P (JStr s)) ->
  (forall l, Forall P l -> P (JList l)) ->
  (forall d, Forall (fun kv => P (snd kv)) d -> P (JDict d)) ->
  forall v, P v.
Proof.
  intros Hnull Hbool Hint Hfloat Hstr Hlist Hdict.
  fix IH 1. intros [ |b|z|q|s|l|d].
  - exact Hnull.
  - apply Hbool.
  - apply Hint.
  - apply Hfloat.
  - apply Hstr.
  - apply Hlist. induction l as [|x l IHl]; constructor; [apply IH|exact IHl].
  - apply Hdict. induction d as [|[k x] d IHd]; constructor; [apply IH|exact IHd].
Qed.

Lemma well_formed_list (l : list json) :
  well_formed (JList l) <-> Forall well_formed l.
Proof.
  cbn. induction l as [|x l IH].
  - split; constructor.
  - rewrite IH. split.
    + intros [Hx Hl]. constructor; assumption.
    + intro H. inversion H; subst. split; assumption.
Qed.

Lemma well_formed_dict (d : list (string * json)) :
  well_formed (JDict d)
  <-> NoDup (map fst d) /\ Forall (fun kv => well_formed (snd kv)) d.
Proof.
  cbn. apply and_iff_compat_l.
  induction d as [|[k x] d IH].
  - split; constructor.
  - rewrite IH. split.
    + intros [Hx Hl]. constructor; assumption.
    + intro H. inversion H; subst. split; assumption.
Qed.

Lemma same_content_list (l1 l2 : list json) :
  same_content (JList l1) (JList l2) = true ->
  Forall2 (fun a b => same_content a b = true) l1 l2.
Proof.
  cbn. revert l2. induction l1 as [|x l1 IH]; intros [|y l2] H;
    try discriminate; [constructor|].
  apply andb_true_iff in H. destruct H as [Hxy H].
  constructor; [exact Hxy|apply IH, H].
Qed.

Lemma same_content_dict (d1 d2 : list (string * json)) :
  same_content (JDict d1) (JDict d2) = true ->
  List.length d1 = List.length d2
  /\ Forall (fun kv => exists v', lookup (fst kv) d2 = Some v'
                                  /\ same_content (snd kv) v' = true) d1.
Proof.
  cbn. intro H. apply andb_true_iff in H. destruct H as [Hlen H].
  split; [apply Nat.eqb_eq, Hlen|]. clear Hlen.
  induction d1 as [|[k v] d1 IH]; [constructor|].
  apply andb_true_iff in H. destruct H as [Hkv H].
  constructor; [|apply IH, H]. cbn.
  destruct (lookup k d2) as [v'|]; [|discriminate].
  exists v'. split; [reflexivity|exact Hkv].
Qed.

Lemma lookup_In {A : Type} (k : string) (d : list (string * A)) (v : A) :
  lookup k d = Some v -> In (k, v) d.
Proof.
  induction d as [|[k' v'] d IH]; cbn; [discriminate|].
  destruct (String.eqb k' k) eqn:E.
  - apply String.eqb_eq in E. intro H. injection H as <-. left. congruence.
  - intro H. right. apply IH, H.
Qed.

(** *** Key order and the canonical text *)

Section WithCodecs.

Variable float_repr : Q -> string.
Variable encode_string : string -> string.
Variable sha256_hexdigest : string -> string.

Abbreviation dumps := (dumps float_repr encode_string).

Lemma dumps_dict (d : list (string * json)) :
  dumps (JDict d)
  = "{" +:+
    join (map (fun kv => encode_string (fst kv) +:+ ": " +:+ snd kv)
            (sort_items (map (fun kv => (fst kv, dumps (snd kv))) d)))
    +:+ "}".
Proof. reflexivity. Qed.

Lemma dumps_same_content (a : json) : forall b,
  well_formed a -> same_content a b = true -> dumps a = dumps b.
Proof.
  induction a as [ |x|x|x|x|l IH|d IH] using json_induction;
    intros b Hwf Hsame.
  - destruct b; try discriminate. reflexivity.
  - destruct b as [ |y| | | | | ]; try discriminate.
    cbn in Hsame. apply Bool.eqb_prop in Hsame. congruence.
  - destruct b as [ | |y| | | | ]; try discriminate.
    cbn in Hsame. apply Z.eqb_eq in Hsame. congruence.
  - destruct b as [ | | |y| | | ]; try discriminate.
    cbn in Hsame. apply andb_true_iff in Hsame. destruct Hsame as [Hn Hd].
    apply Z.eqb_eq in Hn. apply Pos.eqb_eq in Hd.
    destruct x, y. cbn in Hn, Hd. congruence.
  - destruct b as [ | | | |y| | ]; try discriminate.
    cbn in Hsame. apply String.eqb_eq in Hsame. congruence.
  - destruct b as [ | | | | |l2| ]; try discriminate.
    apply same_content_list in Hsame. apply well_formed_list in Hwf.
    cbn [Governance.dumps]. do 3 f_equal.
    induction Hsame as [|x y l1 l2' Hxy Hrest IHrest]; [reflexivity|].
    inversion IH; subst. inversion Hwf; subst.
    cbn [map]. f_equal; auto.
  - destruct b as [ | | | | | |d2]; try discriminate.
    apply same_content_dict in Hsame. destruct Hsame as [Hlen Hall].
    apply well_formed_dict in Hwf. destruct Hwf as [Hnd Hwf].
    rewrite !dumps_dict.
    assert (Hkeys : map fst (map (fun kv => (fst kv, dumps (snd kv))) d)
                    = map fst d)
      by (rewrite map_map; reflexivity).
    enough (Hsorted : sort_items (map (fun kv => (fst kv, dumps (snd kv))) d)
                      = sort_items (map (fun kv => (fst kv, dumps (snd kv))) d2))
      by (rewrite Hsorted; reflexivity).
    apply sort_items_perm_eq; [rewrite Hkeys; exact Hnd|].
    apply NoDup_Permutation_bis.
    + apply (NoDup_map_inv fst). rewrite Hkeys. exact Hnd.
    + rewrite !length_map. lia.
    + intros [k s] Hin. apply in_map_iff in Hin.
      destruct Hin as ([k' v] & Heq & Hin). cbn in Heq. injection Heq as -> <-.
      rewrite Forall_forall in IH, Hall, Hwf.
      destruct (Hall _ Hin) as (v' & Hlookup & Hsame). cbn in Hlookup, Hsame.
      assert (Hv : dumps v = dumps v') by (apply (IH _ Hin v' (Hwf _ Hin) Hsame)).
      rewrite Hv. apply lookup_In in Hlookup.
      apply (in_map (fun kv => (fst kv, dumps (snd kv))) _ _ Hlookup).
Qed.

(** C7.  Two configurations with the same key-value content, whatever the
    order of their keys at any depth, have the same configuration hash. *)
Theorem config_hash_key_order_invariant (config1 config2 : json) :
  well_formed config1 ->
  same_content config1 config2 = true ->
  compute_config_hash float_repr encode_string sha256_hexdigest config1
  = compute_config_hash float_repr encode_string sha256_hexdigest config2.
Proof.
  intros Hwf Hsame. unfold compute_config_hash.
  rewrite (dumps_same_content config1 config2 Hwf Hsame). reflexivity.
Qed.

End WithCodecs.

Lemma config_xy_well_formed : well_formed config_xy.
Proof.
  cbn. split; [|tauto].
  constructor; [|constructor; [|constructor]]; cbn; intuition discriminate.
Qed.

Lemma config_hash_key_order_invariant_witness :
  compute_config_hash float_repr_model encode_string_model sha256_model config_xy
  = compute_config_hash float_repr_model encode_string_model sha256_model config_yx.
Proof.
  apply (config_hash_key_order_invariant float_repr_model encode_string_model
           sha256_model config_xy config_yx).
  - exact config_xy_well_formed.
  - reflexivity.
Defined.

(** The canonical text of the example, keys in order whatever the order
    they were given in. *)
Example dumps_config_yx :
  dumps float_repr_model encode_string_model config_yx
  = "{" +:+ quote +:+ "x" +:+ quote +:+ ": 1, "
        +:+ quote +:+ "y" +:+ quote +:+ ": 2}".
Proof. vm_compute. reflexivity. Qed.

Example nested_configs_same_text :
  same_content config_nested config_nested_reordered = true
  /\ dumps float_repr_model encode_string_model config_nested
     = dumps float_repr_model encode_string_model config_nested_reordered.
Proof. split; vm_compute; reflexivity. Qed.

End GovernanceProps.

(** ** Saving and loading a version *)

Module VersionProps.

Import Governance Versions Models.

Lemma value_induction (P : value -> Prop) :
  P PNone -> (forall b, P (PBool b)) -> (forall z, P (PInt z)) ->
  (forall q, P (PFloat q)) -> (forall s, P (PStr s)) ->
  (forall l, Forall P l -> P (PList l)) ->
  (forall items, Forall (fun kv => P (snd kv)) items -> P (PDict items)) ->
  (forall str, P (PObject str)) ->
  forall v, P v.
Proof.
  intros Hnone Hbool Hint Hfloat Hstr Hlist Hdict Hobject.
  fix IH 1. intros [ |b|z|q|s|l|items|str].
  - exact Hnone.
  - apply Hbool.
  - apply Hint.
  - apply Hfloat.
  - apply Hstr.
  - apply Hlist. induction l as [|x l IHl]; constructor; [apply IH|exact IHl].
  - apply Hdict.
    induction items as [|[k x] items IHd]; constructor; [apply IH|exact IHd].
  - apply Hobject.
Qed.

(** Setting a key that the dict does not hold appends it. *)
Lemma setitem_append (k : key) (v : value) (d : list (key * value)) :
  (forall a, In a d -> key_eqb (fst a) k = false) ->
  setitem k v d = (d ++ [(k, v)])%list.
Proof.
  induction d as [|[k' v'] d IH]; intro Hnew; [reflexivity|].
  cbn [setitem app].
  assert (Hk : key_eqb k' k = false) by apply (Hnew (k', v') (or_introl eq_refl)).
  rewrite Hk.
  rewrite IH; [reflexivity|]. intros a Ha. apply Hnew. right. exact Ha.
Qed.

Lemma distinct_app (acc l : list (key * value)) (k : key) (v : value) :
  distinct (map fst (acc ++ (k, v) :: l)) = true ->
  forall a, In a acc -> key_eqb (fst a) k = false.
Proof.
  induction acc as [|[k0 v0] acc IH]; intros Hd a Ha; [destruct Ha|].
  cbn [app map distinct fst] in Hd. apply andb_true_iff in Hd.
  destruct Hd as [Hk0 Hd]. destruct Ha as [<-|Ha]; [|apply (IH Hd a Ha)].
  cbn [fst]. apply negb_true_iff in Hk0.
  rewrite map_app, existsb_app in Hk0. apply orb_false_iff in Hk0.
  destruct Hk0 as [_ Hk0]. cbn [map existsb fst] in Hk0.
  apply orb_false_iff in Hk0. tauto.
Qed.

(** Building a dict from pairs without a repeated key gives these pairs,
    in their order. *)
Lemma dict_of_distinct (l : list (key * value)) : forall acc,
  distinct (map fst (acc ++ l)) = true ->
  fold_left (fun d kv => setitem (fst kv) (snd kv) d) l acc = (acc ++ l)%list.
Proof.
  induction l as [|[k v] l IH]; intros acc Hd.
  - cbn. rewrite app_nil_r. reflexivity.
  - cbn [fold_left fst snd].
    rewrite (setitem_append k v acc (distinct_app acc l k v Hd)).
    rewrite IH; rewrite <- app_assoc; [reflexivity|exact Hd].
Qed.

(** [load_version] on a directory of documents is the one of the module
    [Governance], reading each file as the Python value it holds: it
    raises [FileNotFoundError] for the same identifiers. *)
Lemma load_version_document (version_dir : gmap string json)
  (version_id : string) :
  Versions.load_version version_dir version_id
  = match Governance.load_version json (fun doc => doc) version_dir
            version_id with
    | Ok doc => Ok (json_load doc)
    | Raise e => Raise e
    end.
Proof.
  unfold Versions.load_version, Governance.load_version.
  destruct (version_dir !! (version_id +:+ ".json")); reflexivity.
Qed.

Section WithCodecs.

Variable float_repr : Q -> string.
Variable encode_string : string -> string.
Variable sha256_hexdigest : string -> string.

(** What [json.load] reads back is the value [json.dump] wrote, for a
    value that a JSON document holds. *)
Lemma json_load_dump (v : value) :
  json_value v = true -> json_load (json_dump float_repr v) = v.
Proof.
  induction v as [ |b|z|q|s|l IH|items IH|str] using value_induction;
    intro Hv; try reflexivity; [| |discriminate].
  - cbn [json_dump json_load json_value] in *. rewrite map_map. f_equal.
    rewrite <- (map_id l) at 2. apply map_ext_in. intros x Hx.
    rewrite Forall_forall in IH. apply (IH x Hx).
    rewrite forallb_forall in Hv. apply Hv, Hx.
  - cbn [json_dump json_load json_value] in *.
    apply andb_true_iff in Hv. destruct Hv as [Hitems Hkeys].
    rewrite map_map. cbn [fst snd].
    assert (Hmap : map (fun kv => (KStr (key_text float_repr (fst kv)),
                                   json_load (json_dump float_repr (snd kv))))
                     items = items).
    { rewrite <- (map_id items) at 2. apply map_ext_in. intros [k x] Hx.
      rewrite Forall_forall in IH. rewrite forallb_forall in Hitems.
      specialize (Hitems _ Hx). specialize (IH _ Hx). cbn [fst snd] in *.
      apply andb_true_iff in Hitems. destruct Hitems as [Hk Hjson].
      rewrite (IH Hjson). destruct k; try discriminate. reflexivity. }
    rewrite Hmap. f_equal. unfold dict_of.
    apply (dict_of_distinct items []). exact Hkeys.
Qed.

(** [json.dumps] writes every value that a JSON document holds. *)
Lemma json_value_hashable (v : value) :
  json_value v = true -> hashable v = true.
Proof.
  induction v as [ |b|z|q|s|l IH|items IH|str] using value_induction;
    intro Hv; try reflexivity; [| |discriminate].
  - cbn [json_value hashable] in *. apply forallb_forall. intros x Hx.
    rewrite Forall_forall in IH. apply (IH x Hx).
    rewrite forallb_forall in Hv. apply Hv, Hx.
  - cbn [json_value hashable] in *.
    apply andb_true_iff in Hv. destruct Hv as [Hitems _].
    rewrite forallb_forall in Hitems. apply andb_true_iff. split.
    + unfold sortable. apply orb_true_iff. left. apply orb_true_iff. right.
      apply forallb_forall. intros k Hk. apply in_map_iff in Hk.
      destruct Hk as (kv & <- & Hkv). specialize (Hitems _ Hkv).
      apply andb_true_iff in Hitems. tauto.
    + apply forallb_forall. intros kv Hkv. rewrite Forall_forall in IH.
      apply (IH _ Hkv). specialize (Hitems _ Hkv).
      apply andb_true_iff in Hitems. tauto.
Qed.

(** The file [save_version] wrote, read back by [load_version]. *)
Lemma load_saved_version (version_dir : gmap string json)
  (timestamp : string) (config : value) (version_name : option string)
  (metadata : option value) (version_id : string)
  (version_dir' : gmap string json) :
  save_version float_repr encode_string sha256_hexdigest version_dir
    timestamp config version_name metadata = Ok (version_id, version_dir') ->
  exists config_hash meta,
    compute_config_hash float_repr encode_string sha256_hexdigest config
    = Ok config_hash
    /\ load_version version_dir' version_id
       = Ok (json_load
               (json_dump float_repr
                  (PDict [(KStr "version_id", PStr version_id);
                          (KStr "config_hash", PStr config_hash);
                          (KStr "timestamp", PStr timestamp);
                          (KStr "config", config);
                          (KStr "metadata", meta)]))).
Proof.
  unfold save_version.
  destruct (compute_config_hash _ _ _ config) as [config_hash|e];
    cbn [mbind result_bind bind]; [|discriminate].
  intro H. injection H as <- <-. eexists. eexists. split; [reflexivity|].
  unfold load_version. rewrite lookup_insert_eq. reflexivity.
Qed.

(** C8, as the code has it.  Loading the version id that [save_version]
    returned gives a document that holds this id, and under [config] the
    configuration as JSON holds it: every key of a dict has become the
    string [json] writes for it.  This is the configuration itself when
    it is a value that a JSON document holds: string keys at every depth,
    and no value of a type [json] cannot encode. *)
Theorem save_load_round_trip_of_json_values (version_dir : gmap string json)
  (timestamp : string) (config : value) (version_name : option string)
  (metadata : option value) (version_id : string)
  (version_dir' : gmap string json) :
  save_version float_repr encode_string sha256_hexdigest version_dir
    timestamp config version_name metadata = Ok (version_id, version_dir') ->
  exists doc,
    load_version version_dir' version_id = Ok doc
    /\ getitem doc "version_id" = Some (PStr version_id)
    /\ getitem doc "config" = Some (json_load (json_dump float_repr config))
    /\ (json_value config = true -> getitem doc "config" = Some config).
Proof.
  intro Hsave.
  destruct (load_saved_version _ _ _ _ _ _ _ Hsave)
    as (config_hash & meta & _ & Hload).
  eexists. split; [exact Hload|].
  split; [reflexivity|]. split; [reflexivity|].
  intro Hjson. rewrite <- (json_load_dump config Hjson) at 2. reflexivity.
Qed.

(** [save_version] returns for a configuration [json.dumps] can write,
    and raises the [TypeError] of [json.dumps] for any other. *)
Lemma save_version_returns (version_dir : gmap string json)
  (timestamp : string) (config : value) (version_name : option string)
  (metadata : option value) :
  if hashable config
  then exists version_id version_dir',
         save_version float_repr encode_string sha256_hexdigest version_dir
           timestamp config version_name metadata
         = Ok (version_id, version_dir')
  else save_version float_repr encode_string sha256_hexdigest version_dir
         timestamp config version_name metadata = Raise TypeError.
Proof.
  unfold save_version, compute_config_hash.
  destruct (hashable config); cbn [mbind result_bind bind]; [|reflexivity].
  eexists. eexists. reflexivity.
Qed.

(** On the configurations of the engine, documents with string keys, the
    text that is hashed is the one of [Governance.dumps], and so is the
    hash. *)
Lemma sort_keys_str {A : Type} (l : list (string * A)) :
  sort_keys (map (fun kv => (KStr (fst kv), snd kv)) l)
  = map (fun kv => (KStr (fst kv), snd kv)) (sort_items l).
Proof.
  induction l as [|x l IH]; [reflexivity|].
  cbn [map sort_keys sort_items]. rewrite IH.
  generalize (sort_items l). clear. intro sorted.
  induction sorted as [|y sorted IH]; [reflexivity|].
  cbn [map insert_key insert_item fst key_leb].
  destruct (String.leb (fst x) (fst y)); [reflexivity|].
  cbn [map]. rewrite IH. reflexivity.
Qed.

Lemma dumps_of_json (doc : json) :
  Versions.dumps float_repr encode_string (of_json doc)
  = Governance.dumps float_repr encode_string doc
  /\ hashable (of_json doc) = true.
Proof.
  induction doc as [ |b|z|q|s|l IH|d IH] using GovernanceProps.json_induction;
    try (split; reflexivity).
  - cbn [of_json Versions.dumps Governance.dumps hashable]. split.
    + rewrite map_map. do 3 f_equal. apply map_ext_in. intros x Hx.
      rewrite Forall_forall in IH. apply (IH x Hx).
    + rewrite forallb_forall. intros v Hv. apply in_map_iff in Hv.
      destruct Hv as (x & <- & Hx). rewrite Forall_forall in IH.
      apply (IH x Hx).
  - cbn [of_json Versions.dumps Governance.dumps hashable]. split.
    + rewrite map_map. cbn [fst snd].
      assert (Hmap : map (fun kv => (KStr (fst kv),
                                     Versions.dumps float_repr encode_string
                                       (of_json (snd kv)))) d
                     = map (fun kv => (KStr (fst kv), snd kv))
                         (map (fun kv => (fst kv,
                                          Governance.dumps float_repr
                                            encode_string (snd kv))) d)).
      { rewrite map_map. cbn [fst snd]. apply map_ext_in. intros x Hx.
        rewrite Forall_forall in IH. rewrite (proj1 (IH x Hx)). reflexivity. }
      rewrite Hmap, sort_keys_str, map_map. reflexivity.
    + apply andb_true_iff. split.
      * unfold sortable. apply orb_true_iff. left. apply orb_true_iff. right.
        rewrite map_map. cbn [fst]. apply forallb_forall. intros k Hk.
        apply in_map_iff in Hk. destruct Hk as (x & <- & _). reflexivity.
      * rewrite forallb_forall. intros kv Hkv. apply in_map_iff in Hkv.
        destruct Hkv as (x & <- & Hx). cbn [snd].
        rewrite Forall_forall in IH. apply (IH x Hx).
Qed.

Lemma compute_config_hash_of_json (doc : json) :
  Versions.compute_config_hash float_repr encode_string sha256_hexdigest
    (of_json doc)
  = Ok (Governance.compute_config_hash float_repr encode_string
          sha256_hexdigest doc).
Proof.
  unfold Versions.compute_config_hash, Governance.compute_config_hash.
  destruct (dumps_of_json doc) as [-> ->]. reflexivity.
Qed.

End WithCodecs.

Lemma save_load_round_trip_of_json_values_witness :
  exists doc,
    load_version
      (<["baseline_20240101_093000_abc.json"%string :=
           json_dump float_repr_model
             (PDict [(KStr "version_id", PStr "baseline_20240101_093000_abc");
                     (KStr "config_hash", PStr "abc");
                     (KStr "timestamp", PStr "20240101_093000");
                     (KStr "config", config_example);
                     (KStr "metadata", metadata_date)])]> one_version)
      "baseline_20240101_093000_abc"
    = Ok doc
    /\ getitem doc "version_id" = Some (PStr "baseline_20240101_093000_abc")
    /\ getitem doc "config"
       = Some (json_load (json_dump float_repr_model config_example))
    /\ (json_value config_example = true ->
        getitem doc "config" = Some config_example).
Proof.
  apply (save_load_round_trip_of_json_values float_repr_model
           encode_string_model (fun _ => "abc"%string) one_version
           "20240101_093000" config_example (Some "baseline"%string)
           (Some metadata_date)).
  reflexivity.
Defined.

(** C8 as stated fails on a configuration with an integer key, as
    [yaml.safe_load] reads [{1: a}]: the key comes back as the string
    ['1'], and the configuration loaded is not the one saved.  (A date in
    the metadata comes back as a string likewise.) *)
Lemma integer_key_loads_as_string :
  match save_version float_repr_model encode_string_model (fun _ => "abc"%string)
          ∅ "20240101_093000" config_int_key None (Some metadata_date) with
  | Ok (version_id, version_dir') =>
      match load_version version_dir' version_id with
      | Ok doc => (getitem doc "config", getitem doc "metadata")
      | Raise _ => (None, None)
      end
  | Raise _ => (None, None)
  end
  = (Some (PDict [(KStr "1", PStr "a")]),
     Some (PDict [(KStr "start", PStr "2024-01-01")]))
  /\ PDict [(KStr "1", PStr "a")] <> config_int_key.
Proof.
  split; [|discriminate]. vm_compute. reflexivity.
Qed.

End VersionProps.

(** ** Quintiles from the reference block *)

Module ReferenceProps.

Import Normalizer Aggregator ReferenceSpec Models.

Lemma unique_by_In {A : Type} (eqb : A -> A -> bool) (l : list A) (x : A) :
  (forall a b, eqb a b = true <-> a = b) ->
  In x (unique_by eqb l) <-> In x l.
Proof.
  intro Heqb. induction l as [|y l IH]; cbn; [tauto|].
  rewrite filter_In, IH, negb_true_iff.
  destruct (eqb x y) eqn:E.
  - apply Heqb in E. subst y. tauto.
  - split; [tauto|]. intros [H|H]; [tauto|]. right. split; [exact H|].
    reflexivity.
Qed.

Lemma unique_by_NoDup {A : Type} (eqb : A -> A -> bool) (l : list A) :
  (forall a b, eqb a b = true <-> a = b) -> NoDup (unique_by eqb l).
Proof.
  intro Heqb. induction l as [|y l IH]; cbn; constructor.
  - rewrite filter_In, negb_true_iff. intros [_ H].
    assert (Hy : eqb y y = true) by (apply Heqb; reflexivity). congruence.
  - apply NoDup_filter, IH.
Qed.

Lemma unique_In (l : list Z) (x : Z) : In x (unique l) <-> In x l.
Proof. apply unique_by_In, Z.eqb_eq. Qed.

Lemma unique_NoDup (l : list Z) : NoDup (unique l).
Proof. apply unique_by_NoDup, Z.eqb_eq. Qed.

Lemma filter_nil_iff {A : Type} (p : A -> bool) (l : list A) :
  (forall a, In a l -> p a = false) -> List.filter p l = [].
Proof.
  induction l as [|a l IH]; intro H; [reflexivity|]. cbn.
  rewrite (H a (or_introl eq_refl)). apply IH.
  intros b Hb. apply H. right. exact Hb.
Qed.

Lemma filter_map_comm {A B : Type} (p : B -> bool) (g : A -> B) (l : list A) :
  List.filter p (map g l) = map g (List.filter (fun a => p (g a)) l).
Proof.
  induction l as [|a l IH]; [reflexivity|]. cbn.
  destruct (p (g a)); cbn; rewrite IH; reflexivity.
Qed.

Lemma filter_flat_map {A B : Type} (p : B -> bool) (f : A -> list B) (l : list A) :
  List.filter p (flat_map f l) = flat_map (fun a => List.filter p (f a)) l.
Proof.
  induction l as [|a l IH]; [reflexivity|]. cbn.
  rewrite filter_app, IH. reflexivity.
Qed.

Section WithSqrt.

Variable sqrt : Q -> Q.

Lemma matches_app (l1 l2 : list quintile_row) d t :
  matches (l1 ++ l2) d t = (matches l1 d t ++ matches l2 d t)%list.
Proof. apply filter_app. Qed.

Lemma matches_other_date ref_scores d d' t :
  d' <> d -> matches (date_quintiles sqrt ref_scores d') d t = [].
Proof.
  intro Hne. apply filter_nil_iff. intros q Hq.
  unfold date_quintiles in Hq. apply in_map_iff in Hq.
  destruct Hq as (r & <- & _). cbn.
  apply andb_false_iff. left. apply Z.eqb_neq, Hne.
Qed.

Lemma matches_dates ref_scores dates d t :
  NoDup dates ->
  matches (flat_map (date_quintiles sqrt ref_scores) dates) d t
  = if existsb (Z.eqb d) dates
    then matches (date_quintiles sqrt ref_scores d) d t
    else [].
Proof.
  induction dates as [|d' dates IH]; intro Hnd; [reflexivity|].
  apply NoDup_cons_iff in Hnd. destruct Hnd as [Hnotin Hnd].
  cbn [flat_map existsb]. rewrite matches_app, (IH Hnd).
  destruct (Z.eqb d d') eqn:E.
  - apply Z.eqb_eq in E. subst d'. cbn [orb].
    destruct (existsb (Z.eqb d) dates) eqn:Ex; [|apply app_nil_r].
    exfalso. apply existsb_exists in Ex. destruct Ex as (x & Hx & Hdx).
    apply Z.eqb_eq in Hdx. subst x. exact (Hnotin Hx).
  - apply Z.eqb_neq in E. cbn [orb].
    rewrite (matches_other_date ref_scores d d' t); [reflexivity|congruence].
Qed.

Lemma matches_date_quintiles ref_scores d t :
  matches (date_quintiles sqrt ref_scores d) d t
  = map (fun row =>
           mk_quintile d (bs_ticker row)
             (get_quintile (score_adjusted row)
                (Series.mean (date_column ref_scores d))
                (Series.std sqrt (date_column ref_scores d))))
      (List.filter (fun r => String.eqb (bs_ticker r) t)
         (List.filter (fun r => Z.eqb (bs_date r) d) ref_scores)).
Proof.
  unfold matches, date_quintiles, date_column. rewrite filter_map_comm.
  f_equal. apply filter_ext. intro r. cbn. rewrite Z.eqb_refl. reflexivity.
Qed.

Lemma matches_quintiles ref_scores d t :
  matches (flat_map (date_quintiles sqrt ref_scores)
             (unique (map bs_date ref_scores))) d t
  = matches (date_quintiles sqrt ref_scores d) d t.
Proof.
  rewrite (matches_dates ref_scores _ d t (unique_NoDup _)).
  destruct (existsb (Z.eqb d) (unique (map bs_date ref_scores))) eqn:Ex;
    [reflexivity|].
  rewrite matches_date_quintiles.
  rewrite (filter_nil_iff (fun r => Z.eqb (bs_date r) d) ref_scores);
    [reflexivity|].
  intros r Hr. apply Z.eqb_neq. intro Hd.
  assert (Hin : In d (unique (map bs_date ref_scores)))
    by (apply unique_In; rewrite <- Hd; apply in_map, Hr).
  assert (Hex : existsb (Z.eqb d) (unique (map bs_date ref_scores)) = true)
    by (apply existsb_exists; exists d; split; [exact Hin|apply Z.eqb_refl]).
  congruence.
Qed.

End WithSqrt.

Lemma filter_filter_key (ref_scores : list block_score) (d : Z) (t : string) :
  List.filter (fun r => String.eqb (bs_ticker r) t)
    (List.filter (fun r => Z.eqb (bs_date r) d) ref_scores)
  = List.filter (fun r => Z.eqb (bs_date r) d && String.eqb (bs_ticker r) t)
      ref_scores.
Proof.
  induction ref_scores as [|r l IH]; [reflexivity|]. cbn.
  destruct (Z.eqb (bs_date r) d); cbn; [|exact IH].
  destruct (String.eqb (bs_ticker r) t); rewrite IH; reflexivity.
Qed.

(** With one reference row per (date, ticker), the rows of a key are the
    reference row alone. *)
Lemma rows_of_key (ref_scores : list block_score) (d : Z) (t : string) :
  NoDup (map key ref_scores) ->
  List.filter (fun r => Z.eqb (bs_date r) d && String.eqb (bs_ticker r) t)
    ref_scores
  = match reference_row ref_scores d t with
    | Some r0 => [r0]
    | None => []
    end.
Proof.
  unfold reference_row.
  induction ref_scores as [|r l IH]; intro Hnd; [reflexivity|].
  cbn in Hnd. apply NoDup_cons_iff in Hnd. destruct Hnd as [Hr Hnd].
  cbn [List.filter find].
  destruct (Z.eqb (bs_date r) d && String.eqb (bs_ticker r) t) eqn:E.
  - f_equal. apply filter_nil_iff. intros r' Hr'.
    destruct (Z.eqb (bs_date r') d && String.eqb (bs_ticker r') t) eqn:E';
      [|reflexivity].
    exfalso. apply Hr.
    apply andb_true_iff in E, E'. destruct E as [E1 E2], E' as [E1' E2'].
    apply Z.eqb_eq in E1, E1'. apply String.eqb_eq in E2, E2'.
    assert (Hk : key r = key r') by (unfold key; congruence).
    rewrite Hk. apply in_map, Hr'.
  - apply IH, Hnd.
Qed.

Lemma flat_map_singleton {A B : Type} (f : A -> list B) (g : A -> B) (l : list A) :
  (forall a, In a l -> f a = [g a]) -> flat_map f l = map g l.
Proof.
  induction l as [|a l IH]; intro H; [reflexivity|]. cbn.
  rewrite (H a (or_introl eq_refl)), IH; [reflexivity|].
  intros b Hb. apply H. right. exact Hb.
Qed.

Lemma merge_left_reference (sqrt : Q -> Q) (df_scores : list block_score)
  (reference_block : string) (row : block_score) :
  NoDup (map key (reference_scores df_scores reference_block)) ->
  merge_left
    (flat_map (date_quintiles sqrt (reference_scores df_scores reference_block))
       (unique (map bs_date (reference_scores df_scores reference_block))))
    row
  = [mk_ranked row
       (reference_quintile sqrt df_scores reference_block
          (bs_date row) (bs_ticker row))].
Proof.
  intro Hnd. unfold merge_left, reference_quintile.
  set (ref_scores := reference_scores df_scores reference_block) in *.
  change (List.filter _ (flat_map _ _))
    with (matches (flat_map (date_quintiles sqrt ref_scores)
                     (unique (map bs_date ref_scores)))
            (bs_date row) (bs_ticker row)).
  rewrite matches_quintiles, matches_date_quintiles, filter_filter_key.
  rewrite (rows_of_key ref_scores _ _ Hnd).
  destruct (reference_row ref_scores (bs_date row) (bs_ticker row)) as [r0|];
    reflexivity.
Qed.

Lemma quintile_df_not_empty (sqrt : Q -> Q) (ref_scores : list block_score) :
  ref_scores <> [] ->
  flat_map (date_quintiles sqrt ref_scores) (unique (map bs_date ref_scores))
  <> [].
Proof.
  destruct ref_scores as [|r l] eqn:E; [congruence|]. intros _ Hnil.
  rewrite <- E in *.
  assert (Hr : In r ref_scores) by (rewrite E; left; reflexivity).
  assert (Hin : In (mk_quintile (bs_date r) (bs_ticker r)
                      (get_quintile (score_adjusted r)
                         (Series.mean (date_column ref_scores (bs_date r)))
                         (Series.std sqrt (date_column ref_scores (bs_date r)))))
                   (flat_map (date_quintiles sqrt ref_scores)
                      (unique (map bs_date ref_scores)))).
  { apply in_flat_map. exists (bs_date r). split.
    - apply unique_In, in_map, Hr.
    - unfold date_quintiles, date_column. apply in_map_iff. exists r.
      split; [reflexivity|].
      apply filter_In. split; [exact Hr|apply Z.eqb_refl]. }
  rewrite Hnil in Hin. destruct Hin.
Qed.

Lemma add_quintiles_map (sqrt : Q -> Q) (df_scores : list block_score)
  (reference_block : string) :
  reference_scores df_scores reference_block <> [] ->
  NoDup (map key (reference_scores df_scores reference_block)) ->
  add_quintiles sqrt df_scores reference_block
  = Ok (map (fun row =>
               mk_ranked row
                 (reference_quintile sqrt df_scores reference_block
                    (bs_date row) (bs_ticker row)))
          df_scores).
Proof.
  intros Hne Hnd. unfold add_quintiles.
  change (List.filter (fun r => String.eqb (block r) reference_block) df_scores)
    with (reference_scores df_scores reference_block).
  destruct (flat_map _ _) as [|q0 qs] eqn:Hq.
  - exfalso. exact (quintile_df_not_empty sqrt _ Hne Hq).
  - rewrite <- Hq. f_equal. apply flat_map_singleton.
    intros row _. apply merge_left_reference, Hnd.
Qed.

(** C10.  When the reference block has rows, one per (date, ticker),
    [add_quintiles] keeps every row of every block and attaches to it the
    quintile of its (date, ticker) in the reference block.  That quintile is
    computed from the reference rows alone: tables with the same reference
    rows give the same quintiles.  It is null when the (date, ticker) has no
    reference row, when its reference score is NaN, and when the standard
    deviation of the reference scores of the date is zero. *)
Theorem add_quintiles_reference_block (sqrt : Q -> Q)
  (df_scores : list block_score) (reference_block : string) :
  let ref_scores := reference_scores df_scores reference_block in
  ref_scores <> [] ->
  NoDup (map key ref_scores) ->
  add_quintiles sqrt df_scores reference_block
  = Ok (map (fun row =>
               mk_ranked row
                 (reference_quintile sqrt df_scores reference_block
                    (bs_date row) (bs_ticker row)))
          df_scores)
  /\ (forall df_scores' d t,
        reference_scores df_scores' reference_block = ref_scores ->
        reference_quintile sqrt df_scores' reference_block d t
        = reference_quintile sqrt df_scores reference_block d t)
  /\ (forall d t,
        reference_row ref_scores d t = None ->
        reference_quintile sqrt df_scores reference_block d t = None)
  /\ (forall d t r0,
        reference_row ref_scores d t = Some r0 ->
        score_adjusted r0 = None ->
        reference_quintile sqrt df_scores reference_block d t = None)
  /\ (forall d t stddev,
        Series.std sqrt (date_column ref_scores d) = Some stddev ->
        stddev == 0 ->
        reference_quintile sqrt df_scores reference_block d t = None).
Proof.
  cbn zeta. intros Hne Hnd. split; [|split; [|split; [|split]]].
  - apply add_quintiles_map; assumption.
  - intros df' d t Href. unfold reference_quintile. rewrite Href. reflexivity.
  - intros d t Hrow. unfold reference_quintile. rewrite Hrow. reflexivity.
  - intros d t r0 Hrow Hnan. unfold reference_quintile.
    rewrite Hrow, Hnan. reflexivity.
  - intros d t stddev Hstd Hzero. unfold reference_quintile.
    destruct (reference_row _ d t) as [r0|]; [|reflexivity].
    rewrite Hstd. unfold get_quintile.
    destruct (score_adjusted r0); [|reflexivity].
    apply Qeq_bool_iff in Hzero. rewrite Hzero. reflexivity.
Qed.

Lemma example_scores_keys :
  NoDup (map key (reference_scores example_scores "contrarian")).
Proof.
  vm_compute.
  repeat (apply NoDup_cons; [cbn; intuition congruence|]). apply NoDup_nil.
Qed.

Lemma add_quintiles_reference_block_witness :
  let ref_scores := reference_scores example_scores "contrarian" in
  add_quintiles sqrt_model example_scores "contrarian"
  = Ok (map (fun row =>
               mk_ranked row
                 (reference_quintile sqrt_model example_scores "contrarian"
                    (bs_date row) (bs_ticker row)))
          example_scores)
  /\ (forall df_scores' d t,
        reference_scores df_scores' "contrarian" = ref_scores ->
        reference_quintile sqrt_model df_scores' "contrarian" d t
        = reference_quintile sqrt_model example_scores "contrarian" d t)
  /\ (forall d t,
        reference_row ref_scores d t = None ->
        reference_quintile sqrt_model example_scores "contrarian" d t = None)
  /\ (forall d t r0,
        reference_row ref_scores d t = Some r0 ->
        score_adjusted r0 = None ->
        reference_quintile sqrt_model example_scores "contrarian" d t = None)
  /\ (forall d t stddev,
        Series.std sqrt_model (date_column ref_scores d) = Some stddev ->
        stddev == 0 ->
        reference_quintile sqrt_model example_scores "contrarian" d t = None).
Proof.
  apply (add_quintiles_reference_block sqrt_model example_scores "contrarian").
  - discriminate.
  - exact example_scores_keys.
Defined.

(** The example evaluated.  On date 1 the contrarian scores are 40 and 60
    (E3 has none): E1 is in quintile 2 and E2 in quintile 4 on both their
    rows, whatever their quality scores, and E3 has a null quintile.  E4 is
    alone on date 2: the standard deviation is NaN, every comparison of the
    z-score fails, and [get_quintile] answers 5. *)
Example add_quintiles_example :
  match add_quintiles sqrt_model example_scores "contrarian" with
  | Ok out => map (fun r => (bs_ticker (scored r), block (scored r), quintile r)) out
  | Raise _ => []
  end
  = [("E1", "contrarian", Some 2); ("E1", "quality", Some 2);
     ("E2", "contrarian", Some 4); ("E2", "quality", Some 4);
     ("E3", "contrarian", None); ("E3", "quality", None);
     ("E4", "contrarian", Some 5); ("E4", "quality", Some 5)]%string%Z.
Proof. vm_compute. reflexivity. Qed.

(** Without a row of the reference block the merge raises. *)
Example add_quintiles_no_reference_rows :
  add_quintiles sqrt_model example_scores "piotroski" = Raise KeyError.
Proof. vm_compute. reflexivity. Qed.

(** *** The score table of [compute_all_scores] *)

Lemma for_each_Forall2 {A B : Type} (f : A -> result B) (xs : list A) :
  forall ys, for_each f xs = Ok ys -> Forall2 (fun x y => f x = Ok y) xs ys.
Proof.
  induction xs as [|x xs IH]; intros ys H.
  - cbn in H. injection H as <-. constructor.
  - cbn in H. destruct (f x) as [b|e] eqn:Hfx; cbn in H; [|discriminate].
    destruct (for_each f xs) as [bs|e] eqn:Hrest; cbn in H; [|discriminate].
    injection H as <-. constructor; [exact Hfx|apply IH; reflexivity].
Qed.

(** The four rows of one (ticker, date): one per block, with the raw score
    of the block's score function. *)
Lemma score_rows_shape df_signals df_risk cfg ticker_date rows :
  score_rows df_signals df_risk cfg ticker_date = Ok rows ->
  exists contrarian turnaround piotroski quality,
    rows
    = [mk_score (snd ticker_date) (fst ticker_date) "contrarian"
         (compute_contrarian_score df_signals (fst ticker_date) (snd ticker_date) cfg)
         contrarian;
       mk_score (snd ticker_date) (fst ticker_date) "turnaround"
         (compute_turnaround_score df_signals (fst ticker_date) (snd ticker_date) cfg)
         turnaround;
       mk_score (snd ticker_date) (fst ticker_date) "piotroski"
         (compute_piotroski_score df_signals (fst ticker_date) (snd ticker_date) cfg)
         piotroski;
       mk_score (snd ticker_date) (fst ticker_date) "quality"
         (compute_quality_score df_signals (fst ticker_date) (snd ticker_date) cfg)
         quality].
Proof.
  unfold score_rows. intro H.
  destruct (apply_risk_penalties (compute_contrarian_score _ _ _ _) _ _ _ _ _)
    as [c|e]; cbn [mbind result_bind bind] in H; [|discriminate].
  destruct (apply_risk_penalties (compute_turnaround_score _ _ _ _) _ _ _ _ _)
    as [t|e]; cbn [mbind result_bind bind] in H; [|discriminate].
  destruct (apply_risk_penalties (compute_piotroski_score _ _ _ _) _ _ _ _ _)
    as [p|e]; cbn [mbind result_bind bind] in H; [|discriminate].
  destruct (apply_risk_penalties (compute_quality_score _ _ _ _) _ _ _ _ _)
    as [q|e]; cbn [mbind result_bind bind] in H; [|discriminate].
  injection H as <-. eauto.
Qed.

Lemma NoDup_map_injective {A B : Type} (f : A -> B) (l : list A) :
  (forall a b, f a = f b -> a = b) -> NoDup l -> NoDup (map f l).
Proof.
  intros Hinj Hnd. induction Hnd as [|x l Hx Hnd IH]; cbn; constructor.
  - intro Hin. apply in_map_iff in Hin. destruct Hin as (y & Hy & Hyl).
    apply Hinj in Hy. subst y. exact (Hx Hyl).
  - exact IH.
Qed.

Lemma pair_eqb_eq (a b : string * Z) : pair_eqb a b = true <-> a = b.
Proof.
  unfold pair_eqb. destruct a as [s d], b as [s' d']. cbn.
  rewrite andb_true_iff, String.eqb_eq, Z.eqb_eq.
  split; [intros [-> ->]; reflexivity|intro H; injection H; auto].
Qed.

(** Each block has exactly one row per (ticker, date), in the order of the
    pairs. *)
Lemma reference_keys_of_results df_signals df_risk cfg reference_block :
  In reference_block block_names ->
  forall pairs results,
    Forall2 (fun td rows => score_rows df_signals df_risk cfg td = Ok rows)
      pairs results ->
    map key (reference_scores (concat results) reference_block)
    = map (fun td => (snd td, fst td)) pairs.
Proof.
  intros Hb pairs results Hall. unfold reference_scores.
  induction Hall as [|td rows pairs results Hrows _ IH]; [reflexivity|].
  cbn [concat]. rewrite filter_app, map_app, IH.
  apply score_rows_shape in Hrows.
  destruct Hrows as (c & t & p & q & ->).
  cbn [In block_names] in Hb.
  destruct Hb as [<-|[<-|[<-|[<-|[]]]]]; reflexivity.
Qed.

Lemma compute_all_scores_reference df_signals df_risk cfg reference_block
  df_scores :
  compute_all_scores df_signals df_risk cfg = Ok df_scores ->
  In reference_block block_names ->
  map key (reference_scores df_scores reference_block)
  = map (fun td => (snd td, fst td)) (ticker_dates df_signals).
Proof.
  unfold compute_all_scores. fold (ticker_dates df_signals). intros H Hb.
  destruct (for_each _ _) as [results|e] eqn:Hloop; cbn in H; [|discriminate].
  injection H as <-.
  apply (reference_keys_of_results df_signals df_risk cfg _ Hb).
  apply for_each_Forall2, Hloop.
Qed.

(** On the table [compute_all_scores] returns, whatever block of the four is
    the reference, [add_quintiles] attaches to every row the quintile of its
    (date, ticker) in the reference block: the reference block has one row
    per (date, ticker) there. *)
Theorem add_quintiles_after_compute_all_scores (sqrt : Q -> Q)
  df_signals df_risk cfg reference_block df_scores :
  compute_all_scores df_signals df_risk cfg = Ok df_scores ->
  df_signals <> [] ->
  In reference_block block_names ->
  NoDup (map key (reference_scores df_scores reference_block))
  /\ add_quintiles sqrt df_scores reference_block
     = Ok (map (fun row =>
                  mk_ranked row
                    (reference_quintile sqrt df_scores reference_block
                       (bs_date row) (bs_ticker row)))
             df_scores).
Proof.
  intros Hscores Hne Hb.
  assert (Hkeys := compute_all_scores_reference _ _ _ _ _ Hscores Hb).
  assert (Hnd : NoDup (map key (reference_scores df_scores reference_block))).
  { rewrite Hkeys. apply NoDup_map_injective.
    - intros [s d] [s' d'] H. cbn in H. congruence.
    - apply unique_by_NoDup, pair_eqb_eq. }
  split; [exact Hnd|]. apply add_quintiles_map; [|exact Hnd].
  intro Hnil. rewrite Hnil in Hkeys. cbn in Hkeys.
  destruct df_signals as [|r l]; [congruence|].
  unfold ticker_dates in Hkeys. cbn in Hkeys. discriminate.
Qed.

(** The contrarian raw score of every row of the table is the weighted
    average [aggregate_weighted] computes from the configured weights. *)
Lemma compute_all_scores_contrarian df_signals df_risk cfg df_scores row :
  compute_all_scores df_signals df_risk cfg = Ok df_scores ->
  In row df_scores -> block row = "contrarian"%string ->
  score_raw row
  = fst (aggregate_weighted df_signals (bs_ticker row) (bs_date row)
           (weights_of (get (signals (get (cfg_contrarian cfg) empty_block)) []))).
Proof.
  unfold compute_all_scores. intros H Hin Hblock.
  destruct (for_each _ _) as [results|e] eqn:Hloop; cbn in H; [|discriminate].
  injection H as <-. apply in_concat in Hin.
  destruct Hin as (rows & Hrows & Hin).
  destruct (NormalizerProps.for_each_Ok _ _ _ Hloop rows Hrows) as (td & _ & Htd).
  apply score_rows_shape in Htd. destruct Htd as (c & t & p & q & ->).
  cbn [In] in Hin.
  destruct Hin as [<-|[<-|[<-|[<-|[]]]]]; cbn in Hblock; try discriminate.
  reflexivity.
Qed.

(** The pipeline on the example: scores of the contrarian block for three
    tickers, and their quintiles on the rows of all four blocks. *)
Example pipeline_example :
  match compute_all_scores example_signals no_risk example_config with
  | Ok df_scores =>
      match add_quintiles sqrt_model df_scores "contrarian" with
      | Ok out =>
          map (fun r => (bs_ticker (scored r), block (scored r),
                         option_map Qred (score_raw (scored r)), quintile r))
            (List.filter (fun r => String.eqb (block (scored r)) "contrarian"
                                   || String.eqb (block (scored r)) "quality") out)
      | Raise _ => []
      end
  | Raise _ => []
  end
  = [("E1"%string, "contrarian"%string, Some 68, Some 4%Z);
     ("E1"%string, "quality"%string, None, Some 4%Z);
     ("E2"%string, "contrarian"%string, Some 20, Some 1%Z);
     ("E2"%string, "quality"%string, None, Some 1%Z);
     ("E3"%string, "contrarian"%string, Some 66, Some 4%Z);
     ("E3"%string, "quality"%string, None, Some 4%Z)].
Proof. vm_compute. reflexivity. Qed.

End ReferenceProps.

(** * Further properties of the code *)

(** ** The normalizer keeps its rows *)

Module RowsProps.

Import Normalizer RowsSpec Models.

Lemma quantile_valid (s : list (option Q)) (q : Q) :
  0 <= q <= 1 -> exists v, Series.quantile s q = Ok v.
Proof.
  intros [H0 H1]. unfold Series.quantile.
  assert (E : Qle_bool 0 q && Qle_bool q 1 = true)
    by (apply andb_true_iff; split; apply Qle_bool_iff; assumption).
  rewrite E. destruct (Series.dropna s); eauto.
Qed.

Lemma quantile_invalid (s : list (option Q)) (q : Q) :
  q < 0 \/ 1 < q -> Series.quantile s q = Raise ValueError.
Proof.
  intro H. unfold Series.quantile.
  assert (E : Qle_bool 0 q && Qle_bool q 1 = false).
  { apply andb_false_iff. destruct H as [H|H]; [left|right];
      apply not_true_is_false; intro E; apply Qle_bool_iff in E; lra. }
  rewrite E. reflexivity.
Qed.

Lemma clip_length (s : list (option Q)) (lower upper : option Q) :
  List.length (Series.clip s lower upper) = List.length s.
Proof.
  unfold Series.clip. destruct lower, upper; try apply length_map. reflexivity.
Qed.

Lemma assign_raw (rows : list raw_signal) : forall w z n,
  List.length w = List.length rows -> List.length z = List.length rows ->
  List.length n = List.length rows ->
  map raw_of (assign rows w z n) = rows.
Proof.
  induction rows as [|r rows IH]; intros w z n Hw Hz Hn; [reflexivity|].
  destruct w as [|wi w]; [discriminate|].
  destruct z as [|zi z]; [discriminate|].
  destruct n as [|ni n]; [discriminate|].
  cbn. rewrite IH by (cbn in *; lia). destruct r. reflexivity.
Qed.

Section WithLibm.

Variable norm_cdf : Q -> Q.
Variable sqrt : Q -> Q.

Lemma normalize_frame_rows frame direction winsorize_pct use_robust :
  valid_percentiles winsorize_pct ->
  exists out,
    normalize_frame norm_cdf sqrt frame direction winsorize_pct use_robust = Ok out
    /\ map raw_of out = frame.
Proof.
  intros [Hlow Hhigh]. unfold normalize_frame, winsorize.
  destruct (quantile_valid (map rs_value_raw frame) _ Hlow) as (lower & ->).
  destruct (quantile_valid (map rs_value_raw frame) _ Hhigh) as (upper & ->).
  cbn [mbind result_bind bind]. eexists. split; [reflexivity|].
  apply assign_raw;
    unfold zscore_to_0_100, Series.mul, robust_zscore, Series.div, Series.sub;
    rewrite ?length_map, clip_length, length_map; reflexivity.
Qed.

Lemma for_each_total {A B : Type} (f : A -> result B) (g : A -> B) (xs : list A) :
  (forall x, In x xs -> f x = Ok (g x)) -> for_each f xs = Ok (map g xs).
Proof.
  induction xs as [|x xs IH]; intro H; [reflexivity|]. cbn.
  rewrite (H x (or_introl eq_refl)). cbn.
  rewrite IH by (intros y Hy; apply H; right; exact Hy). reflexivity.
Qed.

End WithLibm.

(** *** Grouping by date is a rearrangement *)

Lemma filter_partition {A : Type} (p : A -> bool) (l : list A) :
  Permutation l (List.filter p l ++ List.filter (fun a => negb (p a)) l).
Proof.
  induction l as [|a l IH]; [reflexivity|]. cbn.
  destruct (p a); cbn.
  - apply perm_skip, IH.
  - apply Permutation_cons_app, IH.
Qed.

Lemma flat_map_ext_in {A B : Type} (f g : A -> list B) (l : list A) :
  (forall a, In a l -> f a = g a) -> flat_map f l = flat_map g l.
Proof.
  induction l as [|a l IH]; intro H; [reflexivity|]. cbn.
  rewrite (H a (or_introl eq_refl)), IH; [reflexivity|].
  intros b Hb. apply H. right. exact Hb.
Qed.

Lemma filter_filter_other (rows : list raw_signal) (d d' : Z) :
  d' <> d ->
  List.filter (fun r => Z.eqb (rs_date r) d')
    (List.filter (fun r => negb (Z.eqb (rs_date r) d)) rows)
  = List.filter (fun r => Z.eqb (rs_date r) d') rows.
Proof.
  intro Hne. induction rows as [|r rows IH]; [reflexivity|]. cbn.
  destruct (Z.eqb (rs_date r) d) eqn:E; cbn.
  - apply Z.eqb_eq in E.
    assert (E' : Z.eqb (rs_date r) d' = false) by (apply Z.eqb_neq; congruence).
    rewrite E'. exact IH.
  - destruct (Z.eqb (rs_date r) d'); rewrite IH; reflexivity.
Qed.

Lemma group_by_dates (dates : list Z) : forall rows : list raw_signal,
  NoDup dates -> (forall r, In r rows -> In (rs_date r) dates) ->
  Permutation
    (flat_map (fun d => List.filter (fun r => Z.eqb (rs_date r) d) rows) dates)
    rows.
Proof.
  induction dates as [|d dates IH]; intros rows Hnd Hin.
  - destruct rows as [|r rows]; [reflexivity|].
    destruct (Hin r (or_introl eq_refl)).
  - apply NoDup_cons_iff in Hnd. destruct Hnd as [Hd Hnd]. cbn [flat_map].
    transitivity (List.filter (fun r => Z.eqb (rs_date r) d) rows
                  ++ List.filter (fun r => negb (Z.eqb (rs_date r) d)) rows);
      [|symmetry; apply filter_partition].
    apply Permutation_app_head.
    rewrite (flat_map_ext_in _
               (fun d' => List.filter (fun r => Z.eqb (rs_date r) d')
                            (List.filter (fun r => negb (Z.eqb (rs_date r) d)) rows))).
    + apply IH; [exact Hnd|]. intros r Hr. apply filter_In in Hr.
      destruct Hr as [Hr Hne]. apply negb_true_iff, Z.eqb_neq in Hne.
      destruct (Hin r Hr) as [Heq|Hin']; [congruence|exact Hin'].
    + intros d' Hd'. symmetry. apply filter_filter_other. congruence.
Qed.

Lemma group_by_date (rows : list raw_signal) :
  Permutation
    (flat_map (fun d => List.filter (fun r => Z.eqb (rs_date r) d) rows)
       (unique (map rs_date rows)))
    rows.
Proof.
  apply group_by_dates; [apply ReferenceProps.unique_NoDup|].
  intros r Hr. apply ReferenceProps.unique_In, in_map, Hr.
Qed.

Lemma concat_map_flat_map {A B : Type} (f : A -> list B) (l : list A) :
  concat (map f l) = flat_map f l.
Proof. induction l as [|a l IH]; cbn; congruence. Qed.

Lemma normalize_signal_by_date (norm_cdf sqrt : Q -> Q)
  (df_signals : list raw_signal) (name : string) (direction : Z)
  (winsorize_pct : Q * Q) (use_robust : bool) :
  valid_percentiles winsorize_pct ->
  exists out,
    normalize_signal norm_cdf sqrt df_signals name direction winsorize_pct
      use_robust true = Ok out
    /\ map raw_of out
       = flat_map
           (fun d => List.filter (fun r => Z.eqb (rs_date r) d)
                       (signal_rows df_signals name))
           (unique (map rs_date (signal_rows df_signals name))).
Proof.
  intro Hpct. unfold normalize_signal. fold (signal_rows df_signals name).
  destruct (signal_rows df_signals name) as [|r0 rest] eqn:Hrows.
  - exists []. split; reflexivity.
  - rewrite <- Hrows. clear Hrows r0 rest.
    set (rows := signal_rows df_signals name).
    set (group := fun d => List.filter (fun r => Z.eqb (rs_date r) d) rows).
    assert (Hloop : exists results,
               for_each (fun d => normalize_frame norm_cdf sqrt (group d)
                                    direction winsorize_pct use_robust)
                 (unique (map rs_date rows)) = Ok results
               /\ map raw_of (concat results)
                  = flat_map group (unique (map rs_date rows))).
    { generalize (unique (map rs_date rows)). intro dates.
      induction dates as [|d dates IH].
      - exists []. split; reflexivity.
      - destruct (normalize_frame_rows norm_cdf sqrt (group d) direction
                    winsorize_pct use_robust Hpct) as (out & Hout & Hraw).
        destruct IH as (results & Hres & Hraws).
        exists (out :: results). cbn [for_each]. rewrite Hout, Hres.
        split; [reflexivity|]. cbn [concat flat_map].
        rewrite map_app, Hraw, Hraws. reflexivity. }
    destruct Hloop as (results & Hres & Hraws).
    exists (concat results). unfold group in Hres. rewrite Hres.
    split; [reflexivity|exact Hraws].
Qed.

(** With both winsorization percentiles in [0, 1] [normalize_signal]
    raises nothing, and its rows are the rows of the signal, each once and
    with its raw columns untouched: in their order without grouping, and
    with grouping by date date by date, in the order the dates first
    appear. *)
Theorem normalize_signal_keeps_rows (norm_cdf sqrt : Q -> Q)
  (df_signals : list raw_signal) (name : string) (direction : Z)
  (winsorize_pct : Q * Q) (use_robust cross_sectional : bool) :
  valid_percentiles winsorize_pct ->
  exists out,
    normalize_signal norm_cdf sqrt df_signals name direction winsorize_pct
      use_robust cross_sectional = Ok out
    /\ Permutation (map raw_of out) (signal_rows df_signals name)
    /\ (cross_sectional = false -> map raw_of out = signal_rows df_signals name)
    /\ (cross_sectional = true ->
        map raw_of out
        = flat_map
            (fun d => List.filter (fun r => Z.eqb (rs_date r) d)
                        (signal_rows df_signals name))
            (unique (map rs_date (signal_rows df_signals name)))).
Proof.
  intro Hpct. destruct cross_sectional.
  - destruct (normalize_signal_by_date norm_cdf sqrt df_signals name direction
                winsorize_pct use_robust Hpct) as (out & Hout & Hraw).
    exists out. split; [exact Hout|].
    split; [rewrite Hraw; apply group_by_date|].
    split; [discriminate|intros _; exact Hraw].
  - unfold normalize_signal. fold (signal_rows df_signals name).
    destruct (signal_rows df_signals name) as [|r0 rest] eqn:Hrows.
    + exists []. split; [reflexivity|]. split; [reflexivity|].
      split; [reflexivity|discriminate].
    + rewrite <- Hrows.
      destruct (normalize_frame_rows norm_cdf sqrt (signal_rows df_signals name)
                  direction winsorize_pct use_robust Hpct) as (out & Hout & Hraw).
      exists out. rewrite Hraw. split; [exact Hout|]. split; [reflexivity|].
      split; [reflexivity|discriminate].
Qed.

Lemma normalize_signal_keeps_rows_witness :
  exists out,
    normalize_signal cdf_model sqrt_model two_dates "s" 1 (0.05, 0.95)
      true true = Ok out
    /\ Permutation (map raw_of out) (signal_rows two_dates "s")
    /\ (true = false -> map raw_of out = signal_rows two_dates "s")
    /\ (true = true ->
        map raw_of out
        = flat_map
            (fun d => List.filter (fun r => Z.eqb (rs_date r) d)
                        (signal_rows two_dates "s"))
            (unique (map rs_date (signal_rows two_dates "s")))).
Proof.
  apply (normalize_signal_keeps_rows cdf_model sqrt_model two_dates "s" 1
           (0.05, 0.95) true true).
  unfold valid_percentiles. cbn. lra.
Defined.

(** With a winsorization percentile outside [0, 1], [normalize_signal]
    raises [ValueError] as soon as the signal has a row, and returns the
    empty table when it has none. *)
Theorem normalize_signal_invalid_percentile (norm_cdf sqrt : Q -> Q)
  (df_signals : list raw_signal) (name : string) (direction : Z)
  (winsorize_pct : Q * Q) (use_robust cross_sectional : bool) :
  ~ valid_percentiles winsorize_pct ->
  normalize_signal norm_cdf sqrt df_signals name direction winsorize_pct
    use_robust cross_sectional
  = match signal_rows df_signals name with
    | [] => Ok []
    | _ => Raise ValueError
    end.
Proof.
  intro Hbad. unfold normalize_signal. fold (signal_rows df_signals name).
  destruct (signal_rows df_signals name) as [|r0 rest] eqn:Hrows; [reflexivity|].
  assert (Hframe : forall frame,
             normalize_frame norm_cdf sqrt frame direction winsorize_pct
               use_robust = Raise ValueError).
  { intro frame. unfold normalize_frame, winsorize.
    destruct (Qlt_le_dec (fst winsorize_pct) 0) as [Hl|Hl0];
      [rewrite (quantile_invalid _ (fst winsorize_pct)) by (left; exact Hl);
       reflexivity|].
    destruct (Qlt_le_dec 1 (fst winsorize_pct)) as [Hl|Hl1];
      [rewrite (quantile_invalid _ (fst winsorize_pct)) by (right; exact Hl);
       reflexivity|].
    destruct (quantile_valid (map rs_value_raw frame) (fst winsorize_pct)
                (conj Hl0 Hl1)) as (lower & ->).
    cbn [mbind result_bind bind].
    rewrite (quantile_invalid _ (snd winsorize_pct)); [reflexivity|].
    destruct (Qlt_le_dec (snd winsorize_pct) 0) as [Hh|Hh0]; [left; exact Hh|].
    destruct (Qlt_le_dec 1 (snd winsorize_pct)) as [Hh|Hh1]; [right; exact Hh|].
    exfalso. apply Hbad. unfold valid_percentiles. tauto. }
  destruct cross_sectional; [|apply Hframe].
  unfold unique. cbn [map unique_by for_each]. rewrite Hframe. reflexivity.
Qed.

Lemma normalize_signal_invalid_percentile_witness :
  normalize_signal cdf_model sqrt_model two_dates "s" 1 (0.05, 95) true true
  = match signal_rows two_dates "s" with
    | [] => Ok []
    | _ => Raise ValueError
    end.
Proof.
  apply (normalize_signal_invalid_percentile cdf_model sqrt_model two_dates
           "s" 1 (0.05, 95) true true).
  unfold valid_percentiles. cbn. intros [_ [_ H]].
  apply Qle_bool_iff in H. discriminate.
Defined.

End RowsProps.

(** ** The normalizer keeps the order of a group *)

Module OrderProps.

Import Normalizer NormalizerSpec RowsSpec Models.

Lemma option_map_id (s : list (option Q)) :
  map (option_map (fun x : Q => x)) s = s.
Proof. induction s as [|[x|] s IH]; cbn; congruence. Qed.

(** Clipping applies one non-decreasing function to every valid value. *)
Lemma clip_as_map (s : list (option Q)) (lower upper : option Q) :
  exists f : Q -> Q,
    Series.clip s lower upper = map (option_map f) s
    /\ (forall x y, x <= y -> f x <= f y).
Proof.
  unfold Series.clip. destruct lower as [l|], upper as [u|].
  - exists (fun x => Qmax (Qmin l u) (Qmin x (Qmax l u))).
    split; [reflexivity|]. intros x y Hxy.
    apply Q.max_le_compat_l, Q.min_le_compat_r, Hxy.
  - exists (fun x => Qmax l x). split; [reflexivity|]. intros x y Hxy.
    apply Q.max_le_compat_l, Hxy.
  - exists (fun x => Qmin x u). split; [reflexivity|]. intros x y Hxy.
    apply Q.min_le_compat_r, Hxy.
  - exists (fun x => x). split; [symmetry; apply option_map_id|]. auto.
Qed.

Lemma assign_In_raw (rows : list raw_signal) : forall w z n r,
  In r (assign rows w z n) -> In (raw_of r) rows.
Proof.
  induction rows as [|r0 rows IH]; intros w z n r Hin; [destruct Hin|].
  destruct w as [|wi w]; [destruct Hin|].
  destruct z as [|zi z]; [destruct Hin|].
  destruct n as [|ni n]; [destruct Hin|].
  cbn in Hin. destruct Hin as [<-|Hin].
  - left. destruct r0. reflexivity.
  - right. apply (IH w z n r Hin).
Qed.

Lemma normalize_frame_In_raw (norm_cdf sqrt : Q -> Q) frame direction
  winsorize_pct use_robust out r :
  normalize_frame norm_cdf sqrt frame direction winsorize_pct use_robust = Ok out ->
  In r out -> In (raw_of r) frame.
Proof.
  unfold normalize_frame. intros H Hin.
  destruct (winsorize _ _ _) as [w|e]; cbn in H; [|discriminate].
  injection H as <-. apply (assign_In_raw _ _ _ _ _ Hin).
Qed.

(** Every row [normalize_signal] returns was normalized in the frame of its
    date. *)
Lemma normalize_signal_row_frame (norm_cdf sqrt : Q -> Q) df_signals name
  direction winsorize_pct use_robust cross_sectional out r :
  normalize_signal norm_cdf sqrt df_signals name direction winsorize_pct
    use_robust cross_sectional = Ok out ->
  In r out ->
  exists out_frame,
    normalize_frame norm_cdf sqrt
      (frame_of df_signals name cross_sectional (date r)) direction
      winsorize_pct use_robust = Ok out_frame
    /\ In r out_frame.
Proof.
  unfold normalize_signal, frame_of. fold (signal_rows df_signals name).
  intros H Hin.
  destruct (signal_rows df_signals name) as [|r0 rest] eqn:Hrows.
  - injection H as <-. destruct Hin.
  - rewrite <- Hrows in *. clear Hrows r0 rest.
    destruct cross_sectional.
    + destruct (for_each _ _) as [results|e] eqn:Hloop; cbn in H; [|discriminate].
      injection H as <-. apply in_concat in Hin.
      destruct Hin as (group & Hgroup & Hin).
      destruct (NormalizerProps.for_each_Ok _ _ _ Hloop group Hgroup)
        as (d & _ & Hd).
      assert (Hdate : date r = d).
      { apply (normalize_frame_In_raw _ _ _ _ _ _ _ _ Hd) in Hin.
        apply filter_In in Hin. destruct Hin as [_ Hin].
        apply Z.eqb_eq in Hin. exact Hin. }
      rewrite Hdate. exists group. split; [exact Hd|exact Hin].
    + exists out. split; [exact H|exact Hin].
Qed.

Lemma mad_min_default_pos : 0 < mad_min_default.
Proof. reflexivity. Qed.

(** The normalized value of a row of a frame is one function of its raw
    value, and this function keeps the order ([direction] not negative) or
    reverses it ([direction] not positive). *)
Lemma normalize_frame_pointwise (norm_cdf sqrt : Q -> Q) frame
  (direction : Z) winsorize_pct use_robust out :
  (forall a b, a <= b -> norm_cdf a <= norm_cdf b) ->
  normalize_frame norm_cdf sqrt frame direction winsorize_pct use_robust = Ok out ->
  exists N : Q -> option Q,
    (forall r, In r out ->
       value_normalized r
       = match value_raw r with Some x => N x | None => None end)
    /\ (forall x y a b, x <= y -> N x = Some a -> N y = Some b ->
          ((0 <= direction)%Z -> a <= b) /\ ((direction <= 0)%Z -> b <= a)).
Proof.
  intros Hmono H. unfold normalize_frame, winsorize in H.
  destruct (Series.quantile _ (fst winsorize_pct)) as [lower|e]; cbn in H;
    [|discriminate].
  destruct (Series.quantile _ (snd winsorize_pct)) as [upper|e]; cbn in H;
    [|discriminate].
  destruct (clip_as_map (map rs_value_raw frame) lower upper) as (f & Hclip & Hf).
  rewrite Hclip in H.
  set (w := map (option_map f) (map rs_value_raw frame)) in H.
  unfold robust_zscore, zscore_to_0_100, Series.mul, Series.div, Series.sub in H.
  assert (Hscale : forall sc,
             zscore_scale sqrt w use_robust mad_min_default = Some sc -> 0 < sc).
  { intros sc Hsc. apply NormalizerProps.zscore_scale_floor in Hsc.
    pose proof mad_min_default_pos. lra. }
  set (center := zscore_center w use_robust) in H.
  set (scale := zscore_scale sqrt w use_robust mad_min_default) in *.
  subst w. rewrite !map_map, NormalizerProps.assign_maps in H.
  injection H as <-.
  exists (fun x =>
            match center, scale with
            | Some m, Some sc =>
                Some (norm_cdf ((f x - m) / sc * inject_Z direction) * 100)
            | _, _ => None
            end).
  split.
  - intros r Hin. apply in_map_iff in Hin. destruct Hin as (r0 & <- & _).
    cbn [value_raw value_normalized].
    destruct (rs_value_raw r0) as [x|]; [|reflexivity]. cbn.
    destruct center as [m|], scale as [sc|]; reflexivity.
  - intros x y a b Hxy Ha Hb.
    destruct center as [m|]; [|discriminate].
    destruct scale as [sc|] eqn:Hsc; [|discriminate].
    injection Ha as <-. injection Hb as <-.
    assert (Hpos : 0 < sc) by (apply Hscale; reflexivity).
    assert (Hz : (f x - m) / sc <= (f y - m) / sc).
    { apply Qmult_le_compat_r.
      - pose proof (Hf x y Hxy). lra.
      - apply Qlt_le_weak, Qinv_lt_0_compat, Hpos. }
    split; intro Hdir.
    + apply Qmult_le_compat_r; [|discriminate]. apply Hmono.
      apply Qmult_le_compat_r; [exact Hz|].
      change 0 with (inject_Z 0). rewrite <- Zle_Qle. exact Hdir.
    + apply Qmult_le_compat_r; [|discriminate]. apply Hmono.
      assert (Hd : 0 <= - inject_Z direction).
      { rewrite <- inject_Z_opp. change 0 with (inject_Z 0).
        rewrite <- Zle_Qle. lia. }
      assert (Hm := Qmult_le_compat_r _ _ _ Hz Hd). lra.
Qed.

(** Within the frame it is normalized in (one date, or the whole signal
    without grouping), a row with a higher raw value never gets a lower
    normalized value when the direction is not negative, and never a higher
    one when the direction is not positive; [norm_cdf] is non-decreasing. *)
Theorem normalize_signal_preserves_order (norm_cdf sqrt : Q -> Q)
  (df_signals : list raw_signal) (name : string) (direction : Z)
  (winsorize_pct : Q * Q) (use_robust cross_sectional : bool)
  (out : list normalized_signal) (r1 r2 : normalized_signal) (x y a b : Q) :
  (forall a b, a <= b -> norm_cdf a <= norm_cdf b) ->
  normalize_signal norm_cdf sqrt df_signals name direction winsorize_pct
    use_robust cross_sectional = Ok out ->
  In r1 out -> In r2 out ->
  (cross_sectional = true -> date r1 = date r2) ->
  value_raw r1 = Some x -> value_raw r2 = Some y -> x <= y ->
  value_normalized r1 = Some a -> value_normalized r2 = Some b ->
  ((0 <= direction)%Z -> a <= b) /\ ((direction <= 0)%Z -> b <= a).
Proof.
  intros Hmono Hout H1 H2 Hdate Hx Hy Hxy Ha Hb.
  destruct (normalize_signal_row_frame _ _ _ _ _ _ _ _ _ _ Hout H1)
    as (out1 & Hf1 & Hin1).
  destruct (normalize_signal_row_frame _ _ _ _ _ _ _ _ _ _ Hout H2)
    as (out2 & Hf2 & Hin2).
  assert (Hsame : frame_of df_signals name cross_sectional (date r1)
                  = frame_of df_signals name cross_sectional (date r2)).
  { unfold frame_of. destruct cross_sectional; [|reflexivity].
    rewrite (Hdate eq_refl). reflexivity. }
  rewrite Hsame in Hf1. rewrite Hf1 in Hf2. injection Hf2 as ->.
  destruct (normalize_frame_pointwise _ _ _ _ _ _ _ Hmono Hf1) as (N & HN & Hord).
  apply (Hord x y a b Hxy).
  - rewrite <- Ha, (HN r1 Hin1), Hx. reflexivity.
  - rewrite <- Hb, (HN r2 Hin2), Hy. reflexivity.
Qed.

Lemma cdf_model_monotone (a b : Q) : a <= b -> cdf_model a <= cdf_model b.
Proof.
  intro Hab. unfold cdf_model.
  assert (Hpa : 0 < 2 * (1 + Qabs a)) by (pose proof (Qabs_nonneg a); lra).
  assert (Hpb : 0 < 2 * (1 + Qabs b)) by (pose proof (Qabs_nonneg b); lra).
  assert (H : a / (2 * (1 + Qabs a)) <= b / (2 * (1 + Qabs b))).
  { apply Qle_shift_div_r; [exact Hpa|].
    assert (E : b / (2 * (1 + Qabs b)) * (2 * (1 + Qabs a))
                == b * (2 * (1 + Qabs a)) / (2 * (1 + Qabs b)))
      by (field; lra).
    rewrite E. apply Qle_shift_div_l; [exact Hpb|].
    destruct (Qlt_le_dec a 0) as [Ha|Ha], (Qlt_le_dec b 0) as [Hb|Hb].
    - rewrite (Qabs_neg a), (Qabs_neg b) by lra. nra.
    - rewrite (Qabs_neg a), (Qabs_pos b) by lra. nra.
    - lra.
    - rewrite (Qabs_pos a), (Qabs_pos b) by lra. nra. }
  lra.
Qed.

Lemma normalize_signal_preserves_order_witness :
  let out :=
    rows_of_result
      (normalize_signal cdf_model sqrt_model two_dates "s" 1 (0.05, 0.95)
         true true) in
  let r1 := nth 0 out (mk_norm 0 "" "" None None None None) in
  let r2 := nth 2 out (mk_norm 0 "" "" None None None None) in
  ((0 <= 1)%Z -> get (value_normalized r1) 0 <= get (value_normalized r2) 0)
  /\ ((1 <= 0)%Z -> get (value_normalized r2) 0 <= get (value_normalized r1) 0).
Proof.
  intros out r1 r2.
  apply (normalize_signal_preserves_order cdf_model sqrt_model two_dates "s" 1
           (0.05, 0.95) true true out r1 r2 10 30).
  - exact cdf_model_monotone.
  - vm_compute. reflexivity.
  - vm_compute. left. reflexivity.
  - vm_compute. right. right. left. reflexivity.
  - intros _. vm_compute. reflexivity.
  - vm_compute. reflexivity.
  - vm_compute. reflexivity.
  - vm_compute. discriminate.
  - vm_compute. reflexivity.
  - vm_compute. reflexivity.
Defined.

(** Under the robust statistics a frame whose valid raw values are all
    equal gives each of them the normalized value 50, whatever its size:
    the median is the common value, every deviation from it is 0, and the
    scale is the floor [1e-6]. *)
Theorem normalize_signal_constant_frame (norm_cdf sqrt : Q -> Q)
  (df_signals : list raw_signal) (name : string) (direction : Z)
  (winsorize_pct : Q * Q) (cross_sectional : bool)
  (out : list normalized_signal) (r : normalized_signal) (c x : Q) :
  norm_cdf 0 == 1 # 2 ->
  Proper (Qeq ==> Qeq) norm_cdf ->
  valid_percentiles winsorize_pct ->
  normalize_signal norm_cdf sqrt df_signals name direction winsorize_pct
    true cross_sectional = Ok out ->
  In r out ->
  constant c
    (map rs_value_raw (frame_of df_signals name cross_sectional (date r))) ->
  value_raw r = Some x ->
  exists v, value_normalized r = Some v /\ v == 50.
Proof.
  intros Hzero Hproper [Hlow Hhigh] Hout Hin Hc Hx.
  destruct (normalize_signal_row_frame _ _ _ _ _ _ _ _ _ _ Hout Hin)
    as (out_frame & Hframe & Hin').
  destruct (NormalizerProps.constant_group_is_neutral norm_cdf sqrt
              (frame_of df_signals name cross_sectional (date r)) direction
              (fst winsorize_pct) (snd winsorize_pct) c true
              Hzero Hproper Hlow Hhigh Hc (or_introl eq_refl))
    as (out' & Hout' & _ & Hall).
  rewrite <- surjective_pairing in Hout'. rewrite Hframe in Hout'.
  injection Hout' as <-. specialize (Hall r Hin'). rewrite Hx in Hall.
  exact Hall.
Qed.

Lemma cdf_model_proper : Proper (Qeq ==> Qeq) cdf_model.
Proof. intros a b Hab. unfold cdf_model. rewrite Hab. reflexivity. Qed.

Lemma normalize_signal_constant_frame_witness :
  let out :=
    rows_of_result
      (normalize_signal cdf_model sqrt_model constant_date "s" (-1)
         (0.05, 0.95) true true) in
  let r := nth 0 out (mk_norm 0 "" "" None None None None) in
  exists v, value_normalized r = Some v /\ v == 50.
Proof.
  intros out r.
  apply (normalize_signal_constant_frame cdf_model sqrt_model constant_date
           "s" (-1) (0.05, 0.95) true out r 4 4).
  - reflexivity.
  - exact cdf_model_proper.
  - unfold valid_percentiles. cbn. lra.
  - vm_compute. reflexivity.
  - vm_compute. left. reflexivity.
  - vm_compute. repeat constructor.
  - vm_compute. reflexivity.
Defined.

End OrderProps.

(** ** Bounds of normalized values and adjusted scores, as the code has
    them *)

Module AdjustedProps.

Import Normalizer Aggregator RiskSpec RowsSpec BoundsSpec PenaltySpec Models.






End AdjustedProps.

(** ** Winsorization, and the normalization of every signal *)

Module WinsorizeProps.

Import Normalizer NormalizerSpec RowsSpec Models.

Lemma quantile_Some_iff (s : list (option Q)) (q : Q) (v : option Q) :
  Series.quantile s q = Ok v -> Series.dropna s <> [] -> exists x, v = Some x.
Proof.
  unfold Series.quantile. destruct (_ && _); [|discriminate].
  destruct (Series.dropna s) as [|x0 l]; [congruence|].
  intros H _. injection H as <-. eauto.
Qed.

(** [winsorize] keeps the length of the series and its NaN entries, and
    moves every valid value into the interval between the two quantiles:
    a value inside it is unchanged. *)
Theorem winsorize_clips_to_quantiles (s w : list (option Q))
  (p_low p_high : Q) :
  winsorize s p_low p_high = Ok w ->
  List.length w = List.length s
  /\ forall i,
       match nth_error s i with
       | None => nth_error w i = None
       | Some None => nth_error w i = Some None
       | Some (Some a) =>
           exists l u b,
             Series.quantile s p_low = Ok (Some l)
             /\ Series.quantile s p_high = Ok (Some u)
             /\ nth_error w i = Some (Some b)
             /\ Qmin l u <= b <= Qmax l u
             /\ (Qmin l u <= a <= Qmax l u -> b == a)
       end.
Proof.
  unfold winsorize. intro H.
  destruct (Series.quantile s p_low) as [lower|e] eqn:Hlow; cbn in H;
    [|discriminate].
  destruct (Series.quantile s p_high) as [upper|e] eqn:Hhigh; cbn in H;
    [|discriminate].
  injection H as <-. split; [apply RowsProps.clip_length|].
  intro i. destruct (nth_error s i) as [[a|]|] eqn:Hi.
  - assert (Hne : Series.dropna s <> []).
    { intro E. apply nth_error_In in Hi.
      apply SeriesProps.dropna_In in Hi. rewrite E in Hi. destruct Hi. }
    destruct (quantile_Some_iff _ _ _ Hlow Hne) as (l & ->).
    destruct (quantile_Some_iff _ _ _ Hhigh Hne) as (u & ->).
    exists l, u, (Qmax (Qmin l u) (Qmin a (Qmax l u))).
    split; [reflexivity|]. split; [reflexivity|].
    split; [cbn; rewrite nth_error_map, Hi; reflexivity|].
    assert (Hlu : Qmin l u <= Qmax l u).
    { apply Qle_trans with l; [apply Q.le_min_l|apply Q.le_max_l]. }
    split; [split|].
    + apply Q.le_max_l.
    + apply Q.max_lub; [exact Hlu|apply Q.le_min_r].
    + intros [Ha1 Ha2]. rewrite (Q.min_l a) by exact Ha2.
      apply Q.max_r, Ha1.
  - unfold Series.clip.
    destruct lower, upper; rewrite ?nth_error_map, Hi; reflexivity.
  - unfold Series.clip.
    destruct lower, upper; rewrite ?nth_error_map, Hi; reflexivity.
Qed.

Lemma winsorize_clips_to_quantiles_witness :
  let s := [Some 1; None; Some 2; Some 3; Some 4; Some 100] in
  let w := [Some 1.500; None; Some 2; Some 3; Some 4; Some 52.000] in
  List.length w = List.length s
  /\ forall i,
       match nth_error s i with
       | None => nth_error w i = None
       | Some None => nth_error w i = Some None
       | Some (Some a) =>
           exists l u b,
             Series.quantile s 0.125 = Ok (Some l)
             /\ Series.quantile s 0.875 = Ok (Some u)
             /\ nth_error w i = Some (Some b)
             /\ Qmin l u <= b <= Qmax l u
             /\ (Qmin l u <= a <= Qmax l u -> b == a)
       end.
Proof.
  intros s w.
  apply (winsorize_clips_to_quantiles s w 0.125 0.875).
  vm_compute. reflexivity.
Defined.

(** *** Grouping by a key is a rearrangement *)

Section Grouping.

Context {A K : Type} (key : A -> K) (eqb : K -> K -> bool).
Hypothesis eqb_eq : forall a b, eqb a b = true <-> a = b.

Lemma filter_key_other (rows : list A) (k k' : K) :
  k' <> k ->
  List.filter (fun r => eqb (key r) k')
    (List.filter (fun r => negb (eqb (key r) k)) rows)
  = List.filter (fun r => eqb (key r) k') rows.
Proof.
  intro Hne. induction rows as [|r rows IH]; [reflexivity|]. cbn.
  destruct (eqb (key r) k) eqn:E; cbn.
  - apply eqb_eq in E.
    assert (E' : eqb (key r) k' = false).
    { apply not_true_is_false. intro H. apply eqb_eq in H. congruence. }
    rewrite E'. exact IH.
  - destruct (eqb (key r) k'); rewrite IH; reflexivity.
Qed.

Lemma group_by_keys (keys : list K) : forall rows : list A,
  NoDup keys -> (forall r, In r rows -> In (key r) keys) ->
  Permutation
    (flat_map (fun k => List.filter (fun r => eqb (key r) k) rows) keys)
    rows.
Proof.
  induction keys as [|k keys IH]; intros rows Hnd Hin.
  - destruct rows as [|r rows]; [reflexivity|].
    destruct (Hin r (or_introl eq_refl)).
  - apply NoDup_cons_iff in Hnd. destruct Hnd as [Hk Hnd]. cbn [flat_map].
    transitivity (List.filter (fun r => eqb (key r) k) rows
                  ++ List.filter (fun r => negb (eqb (key r) k)) rows);
      [|symmetry; apply RowsProps.filter_partition].
    apply Permutation_app_head.
    rewrite (RowsProps.flat_map_ext_in _
               (fun k' => List.filter (fun r => eqb (key r) k')
                            (List.filter (fun r => negb (eqb (key r) k)) rows))).
    + apply IH; [exact Hnd|]. intros r Hr. apply filter_In in Hr.
      destruct Hr as [Hr Hne]. apply negb_true_iff in Hne.
      destruct (Hin r Hr) as [Heq|Hin']; [|exact Hin'].
      assert (E : eqb (key r) k = true) by (apply eqb_eq; congruence).
      congruence.
    + intros k' Hk'. symmetry. apply filter_key_other. congruence.
Qed.

Lemma group_by_unique (rows : list A) :
  Permutation
    (flat_map (fun k => List.filter (fun r => eqb (key r) k) rows)
       (unique_by eqb (map key rows)))
    rows.
Proof.
  apply group_by_keys; [apply ReferenceProps.unique_by_NoDup, eqb_eq|].
  intros r Hr. apply ReferenceProps.unique_by_In; [exact eqb_eq|].
  apply in_map, Hr.
Qed.

End Grouping.

Lemma for_each_perm {A B C : Type} (f : A -> result (list B)) (g : B -> C)
  (h : A -> list C) :
  (forall x, exists y, f x = Ok y /\ Permutation (map g y) (h x)) ->
  forall xs, exists ys,
    for_each f xs = Ok ys /\ Permutation (map g (concat ys)) (flat_map h xs).
Proof.
  intros H xs. induction xs as [|x xs (ys & Hys & Hperm)].
  - exists []. split; reflexivity.
  - destruct (H x) as (y & Hy & Hp). exists (y :: ys). cbn [for_each].
    rewrite Hy, Hys. split; [reflexivity|]. cbn [concat flat_map].
    rewrite map_app. apply Permutation_app; assumption.
Qed.

(** The rows [normalize_all_signals] returns, signal by signal. *)
Lemma normalize_all_signals_by_name (norm_cdf sqrt : Q -> Q)
  (df_signals : list raw_signal) (cfg : config) :
  valid_percentiles (configured_percentiles cfg) ->
  exists out,
    normalize_all_signals norm_cdf sqrt df_signals cfg = Ok out
    /\ Permutation (map raw_of out)
         (flat_map (signal_rows df_signals)
            (unique_by String.eqb (map rs_signal_name df_signals))).
Proof.
  intro Hpct. unfold normalize_all_signals.
  fold (configured_percentiles cfg).
  destruct (for_each_perm
              (fun signal_name =>
                 normalize_signal norm_cdf sqrt df_signals signal_name
                   (last_direction signal_name (signal_directions cfg) 1%Z)
                   (configured_percentiles cfg) (get (cfg_use_robust cfg) true)
                   true)
              raw_of (signal_rows df_signals)) with
    (xs := unique_by String.eqb (map rs_signal_name df_signals))
    as (results & Hres & Hperm).
  - intro name.
    destruct (RowsProps.normalize_signal_by_date norm_cdf sqrt df_signals name
                (last_direction name (signal_directions cfg) 1%Z)
                (configured_percentiles cfg) (get (cfg_use_robust cfg) true)
                Hpct) as (out & Hout & Hraw).
    exists out. split; [exact Hout|].
    rewrite Hraw. apply RowsProps.group_by_date.
  - exists (concat results). rewrite Hres. split; [reflexivity|exact Hperm].
Qed.

(** With the configured winsorization percentiles in [0, 1] (the defaults
    0.05 and 0.95 are), [normalize_all_signals] raises nothing and returns
    the rows of the raw table, each once and with its raw columns
    untouched, whatever the signal names and directions configured. *)
Theorem normalize_all_signals_keeps_rows (norm_cdf sqrt : Q -> Q)
  (df_signals : list raw_signal) (cfg : config) :
  valid_percentiles (configured_percentiles cfg) ->
  exists out,
    normalize_all_signals norm_cdf sqrt df_signals cfg = Ok out
    /\ Permutation (map raw_of out) df_signals.
Proof.
  intro Hpct.
  destruct (normalize_all_signals_by_name norm_cdf sqrt df_signals cfg Hpct)
    as (out & Hout & Hperm).
  exists out. split; [exact Hout|].
  rewrite Hperm. unfold signal_rows.
  apply (group_by_unique rs_signal_name String.eqb String.eqb_eq).
Qed.

Lemma normalize_all_signals_keeps_rows_witness :
  exists out,
    normalize_all_signals cdf_model sqrt_model two_dates
      (mk_config None None None None None (Some 0.9) None None) = Ok out
    /\ Permutation (map raw_of out) two_dates.
Proof.
  apply (normalize_all_signals_keeps_rows cdf_model sqrt_model two_dates
           (mk_config None None None None None (Some 0.9) None None)).
  unfold valid_percentiles. cbn. lra.
Defined.

End WinsorizeProps.

(** ** The block scores *)

Module ScoreProps.

Import Normalizer Aggregator AggregateLoop ScoreSpec.

Lemma weights_of_nonneg (l : list (string * signal_config)) :
  signals_nonneg l -> forall name w, In (name, w) (weights_of l) -> 0 <= w.
Proof.
  intros H name w Hin. unfold weights_of in Hin. apply in_map_iff in Hin.
  destruct Hin as ([n sc] & Heq & Hin). cbn in Heq. injection Heq as <- <-.
  apply (H n sc Hin).
Qed.

Lemma quality_fold_bounds (l : list (option Q * Q)) :
  Forall (fun sb => (forall s, fst sb = Some s -> 0 <= s /\ s <= 100)
                    /\ 0 <= snd sb) l ->
  forall acc,
    0 <= snd acc /\ snd acc <= 100 * fst acc ->
    0 <= snd (fold_left quality_step l acc)
    /\ snd (fold_left quality_step l acc)
       <= 100 * fst (fold_left quality_step l acc).
Proof.
  induction 1 as [|[score w] l [Hs Hw] _ IH]; intros acc Hacc; [exact Hacc|].
  cbn [fold_left]. apply IH. unfold quality_step. cbn [fst snd] in *.
  destruct score as [s|]; [|exact Hacc]. cbn [fst snd].
  destruct (Hs s eq_refl) as [H0 H100]. destruct Hacc as [Ha0 Ha100].
  assert (Hsw : 0 <= s * w) by (apply Qmult_le_0_compat; assumption).
  assert (Hsw' : s * w <= 100 * w) by (apply Qmult_le_compat_r; assumption).
  split; lra.
Qed.

Lemma compute_quality_score_bounds (df_signals : list normalized_signal)
  (ticker : string) (date : Z) (cfg : config) (s : Q) :
  normalized_in_range df_signals ->
  (forall name sb,
     In (name, sb) (get (subblocks (get (cfg_quality cfg) empty_block)) []) ->
     0 <= get (subblock_weight sb) 0
     /\ signals_nonneg (get (subblock_signals sb) [])) ->
  compute_quality_score df_signals ticker date cfg = Some s ->
  0 <= s /\ s <= 100.
Proof.
  intros Hrange Hq H. unfold compute_quality_score in H.
  set (quality_config := get (subblocks (get (cfg_quality cfg) empty_block)) [])
    in *.
  set (subblock_scores := map _ quality_config) in H.
  assert (Hall : Forall (fun sb => (forall s, fst sb = Some s ->
                                              0 <= s /\ s <= 100)
                                   /\ 0 <= snd sb) subblock_scores).
  { subst subblock_scores. apply Forall_forall. intros sb Hin.
    apply in_map_iff in Hin. destruct Hin as ([name sbc] & <- & Hin).
    destruct (Hq name sbc Hin) as [Hw Hsig]. cbn [fst snd]. split; [|exact Hw].
    intros s' Hs'.
    apply (AggregateProps.aggregate_weighted_bounds df_signals ticker date _ s'
             Hrange (weights_of_nonneg _ Hsig) Hs'). }
  assert (Hb := quality_fold_bounds subblock_scores Hall (0, 0)).
  destruct (fold_left quality_step subblock_scores (0, 0)) as [tw ws].
  cbn [fst snd] in Hb. destruct Hb as [H0 H100]; [split; lra|].
  destruct (Qlt_bool 0 tw) eqn:E; [|discriminate].
  injection H as <-. apply Qlt_bool_iff in E. split.
  - apply Qle_shift_div_l; [exact E|]. lra.
  - apply Qle_shift_div_r; [exact E|]. lra.
Qed.

(** With normalized values that are not negative and no negative weight
    in the configuration, the contrarian, turnaround and quality scores
    that are not NaN are not negative: each is a sum of products that are
    not negative, over a positive total weight. *)
Theorem weighted_block_scores_not_negative
  (df_signals : list normalized_signal) (ticker : string) (date : Z)
  (cfg : config) (s : Q) :
  normalized_in_range df_signals ->
  weights_nonneg cfg ->
  compute_contrarian_score df_signals ticker date cfg = Some s
  \/ compute_turnaround_score df_signals ticker date cfg = Some s
  \/ compute_quality_score df_signals ticker date cfg = Some s ->
  0 <= s.
Proof.
  intros Hrange (Hc & Ht & Hq) [H|[H|H]].
  - unfold compute_contrarian_score in H.
    apply (AggregateProps.aggregate_weighted_bounds df_signals ticker date _ s
             Hrange (weights_of_nonneg _ Hc) H).
  - unfold compute_turnaround_score in H.
    apply (AggregateProps.aggregate_weighted_bounds df_signals ticker date _ s
             Hrange (weights_of_nonneg _ Ht) H).
  - apply (compute_quality_score_bounds df_signals ticker date cfg s Hrange Hq H).
Qed.

Lemma quality_signals_in_range : normalized_in_range quality_signals.
Proof.
  intros r v Hin Hv. cbn in Hin.
  repeat (destruct Hin as [<-|Hin];
          [cbn in Hv; try discriminate; injection Hv as <-; split; discriminate|]).
  destruct Hin.
Qed.

Lemma quality_config_nonneg : weights_nonneg quality_config.
Proof.
  unfold weights_nonneg, signals_nonneg. cbn. repeat split.
  - intros name sc [H|[H|[]]]; injection H as <- <-; cbn; discriminate.
  - intros name sc [H|[]]; injection H as <- <-; cbn; discriminate.
  - destruct H as [H|[H|[]]]; injection H as <- <-; cbn; discriminate.
  - intros n sc Hin.
    destruct H as [H|[H|[]]]; injection H as <- <-; cbn in Hin.
    + destruct Hin as [H|[H|[]]]; injection H as <- <-; cbn; discriminate.
    + destruct Hin as [H|[]]; injection H as <- <-; cbn; discriminate.
Qed.

Lemma weighted_block_scores_not_negative_witness : 0 <= (1420000 # 20000).
Proof.
  apply (weighted_block_scores_not_negative quality_signals "E1" 1
           quality_config (1420000 # 20000) quality_signals_in_range
           quality_config_nonneg).
  right. right. vm_compute. reflexivity.
Defined.

End ScoreProps.

(** ** Risk penalties: what they can and cannot do to a score *)

Module PenaltyProps.

Import Normalizer Aggregator RiskSpec PenaltySpec ScoreSpec Models.

(** A penalty earned above the threshold is between 0 and [max_penalty]. *)
Lemma penalty_range (v t M mp : Q) :
  t < v -> v <= M -> 0 <= mp ->
  exists p, penalty_of (excess_of v t (Some M)) mp = Some p
            /\ 0 <= p /\ p <= mp.
Proof.
  intros Hlt HvM Hmp.
  assert (Heps : 0 < 0.000001) by reflexivity.
  assert (Hden : 0 < M - t + 0.000001) by lra.
  assert (Hex0 : 0 <= (v - t) / (M - t + 0.000001))
    by (apply Qle_shift_div_l; [exact Hden|]; lra).
  cbn [excess_of lift2 penalty_of option_map]. eexists. split; [reflexivity|].
  split; [|apply RiskProps.min2_le_r].
  unfold min2. destruct (Qlt_bool _ _); [exact Hmp|].
  apply Qmult_le_0_compat; assumption.
Qed.

Lemma percentile_fraction (p : Q) : 0 <= p /\ p <= 100 -> 0 <= p / 100 <= 1.
Proof.
  intros [H0 H100]. split.
  - apply Qle_shift_div_l; [reflexivity|]. lra.
  - apply Qle_shift_div_r; [reflexivity|]. lra.
Qed.

(** One rule that is not named after the column of tickers, with a valid
    threshold percentile and a [max_penalty] that is not negative: the
    total penalty does not decrease, and increases by [max_penalty] at
    most, and only when the rule counts for the block. *)
Lemma penalty_step_bounds df_risk row0 date block total details item :
  In row0 (risk_rows df_risk) -> rk_date row0 = date ->
  fst item <> "ticker"%string ->
  (0 <= get (threshold_percentile (snd item)) 90
   /\ get (threshold_percentile (snd item)) 90 <= 100) ->
  0 <= get (max_penalty (snd item)) 10 ->
  exists total' details',
    penalty_step df_risk row0 date block (Some total, details) item
    = Ok (Some total', details')
    /\ total <= total'
    /\ total' <= total + (if applies block (snd item)
                          then get (max_penalty (snd item)) 10 else 0).
Proof.
  intros Hrow Hdate Hname Hthr Hmp. destruct item as [name pc].
  cbn [fst snd] in *.
  unfold penalty_step, applies.
  set (affected := get (affected_scores pc) []).
  assert (Hsame : forall b : bool,
             total <= total /\ total <= total + (if b then get (max_penalty pc) 10 else 0))
    by (intros []; split; lra).
  destruct (mem block affected) eqn:Eb, (mem "all" affected) eqn:Ea;
    cbn [negb andb orb];
    try (eexists; eexists; split; [reflexivity|apply (Hsame false)]).
  all: destruct (mem name (risk_columns df_risk));
    [|rewrite (proj2 (String.eqb_neq name "ticker") Hname);
      destruct (String.eqb name "date");
      [destruct (RowsProps.quantile_valid [] _ (percentile_fraction _ Hthr))
         as (th & ->); cbn [mbind result_bind bind]|];
      (eexists; eexists; split; [reflexivity|apply (Hsame true)])].
  all: destruct (RowsProps.quantile_valid
                   (column name
                      (List.filter (fun r => Z.eqb (rk_date r) date)
                         (risk_rows df_risk)))
                   _ (percentile_fraction _ Hthr)) as (threshold & ->);
    cbn [mbind result_bind bind].
  all: destruct (assoc name (rk_values row0)) as [v|] eqn:Hv;
    [|eexists; eexists; split; [reflexivity|apply (Hsame true)]].
  all: destruct threshold as [t|];
    [|eexists; eexists; split; [reflexivity|apply (Hsame true)]].
  all: destruct (Qlt_bool t v) eqn:E;
    [|eexists; eexists; split; [reflexivity|apply (Hsame true)]].
  all: apply Qlt_bool_iff in E.
  all: assert (Hin : In (Some v)
                       (column name
                          (List.filter (fun r => Z.eqb (rk_date r) date)
                             (risk_rows df_risk))))
      by (unfold column; apply in_map_iff; exists row0;
          split; [exact Hv|];
          apply filter_In; split; [exact Hrow|apply Z.eqb_eq, Hdate]).
  all: destruct (SeriesProps.max_ge _ _ Hin) as (M & -> & HvM).
  all: destruct (penalty_range v t M _ E HvM Hmp) as (p & -> & Hp0 & Hp1).
  all: cbn [lift2]; eexists; eexists; split; [reflexivity|split; lra].
Qed.

Lemma penalty_loop_bounds df_risk row0 date block items :
  In row0 (risk_rows df_risk) -> rk_date row0 = date ->
  (forall name pc, In (name, pc) items -> name <> "ticker"%string) ->
  (forall name pc, In (name, pc) items ->
     (0 <= get (threshold_percentile pc) 90
      /\ get (threshold_percentile pc) 90 <= 100)
     /\ 0 <= get (max_penalty pc) 10) ->
  forall total details,
  exists total' details',
    penalty_loop df_risk row0 date block (Some total, details) items
    = Ok (Some total', details')
    /\ total <= total'
    /\ total' <= total
                 + Series.sum
                     (map (fun item => get (max_penalty (snd item)) 10)
                        (List.filter (fun item => applies block (snd item))
                           items)).
Proof.
  intros Hrow Hdate.
  induction items as [|item items IH]; intros Hnames Hvalid total details.
  - exists total, details. cbn. split; [reflexivity|]. split; lra.
  - destruct item as [name pc].
    destruct (Hvalid name pc (or_introl eq_refl)) as [Hthr Hmp].
    destruct (penalty_step_bounds df_risk row0 date block total details
                (name, pc) Hrow Hdate (Hnames name pc (or_introl eq_refl))
                Hthr Hmp) as (t1 & d1 & Hstep & H1 & H2).
    destruct (IH (fun n p Hin => Hnames n p (or_intror Hin))
                (fun n p Hin => Hvalid n p (or_intror Hin)) t1 d1)
      as (t2 & d2 & Hloop & H3 & H4).
    exists t2, d2. cbn [penalty_loop]. rewrite Hstep.
    cbn [mbind result_bind bind]. rewrite Hloop. split; [reflexivity|].
    cbn [List.filter snd] in *.
    destruct (applies block pc); cbn [map Series.sum snd] in *; split; lra.
Qed.

Lemma ticker_date_risk_head df_risk ticker date row0 rest :
  ticker_date_risk df_risk ticker date = row0 :: rest ->
  In row0 (risk_rows df_risk) /\ rk_date row0 = date.
Proof.
  intro H.
  assert (Hin : In row0 (ticker_date_risk df_risk ticker date))
    by (rewrite H; left; reflexivity).
  unfold ticker_date_risk in Hin. apply filter_In in Hin.
  destruct Hin as [Hin Hb]. apply andb_true_iff in Hb.
  split; [exact Hin|apply Z.eqb_eq, Hb].
Qed.

(** The total of the penalties is 0 when no rule counts for the block. *)
Lemma max_total_penalty_none (cfg : config) (block : string) :
  no_rule_applies cfg block -> max_total_penalty cfg block = 0.
Proof.
  unfold no_rule_applies, max_total_penalty. generalize (rules cfg).
  intros items Hnone. induction items as [|[n p] items IH]; [reflexivity|].
  cbn [List.filter snd]. rewrite (Hnone n p (or_introl eq_refl)).
  apply IH. intros n' p' Hin. apply (Hnone n' p' (or_intror Hin)).
Qed.

(** With valid rules, none of them named after the column of tickers,
    [apply_risk_penalties] returns, and what it subtracts from the score
    lies between 0 and the sum of the [max_penalty] of the rules that
    count for the block. *)
Lemma apply_risk_penalties_valid (s : Q) (ticker : string) (date : Z)
  (df_risk : risk_frame) (cfg : config) (block : string) :
  rules_valid cfg -> rules_numeric cfg ->
  match ticker_date_risk df_risk ticker date with
  | [] =>
      apply_risk_penalties (Some s) ticker date df_risk cfg block
      = Ok (Some s, [])
  | _ :: _ =>
      exists total details,
        apply_risk_penalties (Some s) ticker date df_risk cfg block
        = Ok (Some (max0 (Some (s - total))), details)
        /\ 0 <= total /\ total <= max_total_penalty cfg block
  end.
Proof.
  intros Hvalid Hnumeric. rewrite Bounds.apply_risk_penalties_unfold.
  destruct (ticker_date_risk df_risk ticker date) as [|row0 rest] eqn:Hrows;
    [reflexivity|].
  destruct (ticker_date_risk_head _ _ _ _ _ Hrows) as [Hin Hdate].
  destruct (penalty_loop_bounds df_risk row0 date block (rules cfg) Hin Hdate
              Hnumeric Hvalid 0 []) as (total & details & Hloop & H0 & Hle).
  fold (rules cfg). rewrite Hloop. cbn [lift2].
  exists total, details. split; [reflexivity|].
  fold (max_total_penalty cfg block) in Hle. split; lra.
Qed.

(** With valid rules, none of them named after the column of tickers,
    [apply_risk_penalties] raises nothing.  A score is never increased
    above [max(0, score)]; with a risk row for the ticker at the date the
    adjusted score is not negative, and it is [max(0, score)] when no rule
    counts for the block; without a risk row the score is returned
    unchanged. *)
Theorem risk_penalties_bounded (s : Q) (ticker : string) (date : Z)
  (df_risk : risk_frame) (cfg : config) (block : string) :
  rules_valid cfg -> rules_numeric cfg ->
  exists adjusted details,
    apply_risk_penalties (Some s) ticker date df_risk cfg block
    = Ok (Some adjusted, details)
    /\ adjusted <= Qmax 0 s
    /\ (ticker_date_risk df_risk ticker date = [] -> adjusted = s)
    /\ (ticker_date_risk df_risk ticker date <> [] ->
        0 <= adjusted
        /\ (no_rule_applies cfg block -> adjusted == Qmax 0 s)).
Proof.
  intros Hvalid Hnumeric.
  assert (H := apply_risk_penalties_valid s ticker date df_risk cfg block
                 Hvalid Hnumeric).
  destruct (ticker_date_risk df_risk ticker date) as [|row0 rest].
  - exists s, []. split; [exact H|]. split; [apply Q.le_max_r|].
    split; [reflexivity|]. intro Hne. exfalso. apply Hne. reflexivity.
  - destruct H as (total & details & Happly & H0 & Hle).
    eexists. exists details. split; [exact Happly|].
    split; [|split; [discriminate|]].
    + rewrite Bounds.max0_spec. apply Q.max_le_compat_l. lra.
    + intros _. split; [apply RiskProps.max0_nonneg|].
      intro Hnone. rewrite (max_total_penalty_none cfg block Hnone) in Hle.
      rewrite Bounds.max0_spec.
      assert (Hzero : total == 0) by (apply Qle_antisym; assumption).
      rewrite Hzero. apply Q.max_compat; [reflexivity|ring].
Qed.

Lemma two_rules_valid : rules_valid two_rules.
Proof.
  intros name pc [H|[H|[]]]; injection H as <- <-; cbn; repeat split; discriminate.
Qed.

Lemma two_rules_numeric : rules_numeric two_rules.
Proof.
  intros name pc [H|[H|[]]]; injection H as <- <-; discriminate.
Qed.

Lemma risk_penalties_bounded_witness :
  exists adjusted details,
    apply_risk_penalties (Some 50) "E10" 1 volatility_frame two_rules
      "contrarian"
    = Ok (Some adjusted, details)
    /\ adjusted <= Qmax 0 50
    /\ (ticker_date_risk volatility_frame "E10" 1 = [] -> adjusted = 50)
    /\ (ticker_date_risk volatility_frame "E10" 1 <> [] ->
        0 <= adjusted
        /\ (no_rule_applies two_rules "contrarian" -> adjusted == Qmax 0 50)).
Proof.
  apply (risk_penalties_bounded 50 "E10" 1 volatility_frame two_rules
           "contrarian" two_rules_valid two_rules_numeric).
Defined.

(** A valid rule named after the column of tickers raises [TypeError] as
    soon as the ticker has a risk row: the quantile of a column of
    strings. *)
Example ticker_rule_raises :
  apply_risk_penalties (Some 50) "E10" 1 volatility_frame
    (penalties_only [ticker_rule]) "contrarian"
  = Raise TypeError.
Proof. vm_compute. reflexivity. Qed.

(** The only exception of a rule that is not named after the column of
    tickers is the [ValueError] of [quantile]. *)
Lemma penalty_step_exn df_risk row0 date block acc item e :
  fst item <> "ticker"%string ->
  penalty_step df_risk row0 date block acc item = Raise e -> e = ValueError.
Proof.
  destruct acc as [total details], item as [name pc]. cbn [fst].
  intro Hname. unfold penalty_step.
  destruct (_ && _); [discriminate|].
  destruct (mem name (risk_columns df_risk)).
  - unfold Series.quantile. destruct (_ && _).
    + destruct (Series.dropna _); cbn [mbind result_bind bind].
      * destruct (assoc name (rk_values row0)); discriminate.
      * destruct (assoc name (rk_values row0)) as [v|]; [|discriminate].
        destruct (Qlt_bool _ v); discriminate.
    + cbn. intro H. injection H as <-. reflexivity.
  - rewrite (proj2 (String.eqb_neq name "ticker") Hname).
    destruct (String.eqb name "date"); [|discriminate].
    unfold Series.quantile. destruct (_ && _); cbn; [discriminate|].
    intro H. injection H as <-. reflexivity.
Qed.

Lemma penalty_loop_invalid df_risk row0 date block name pc items :
  (forall n p, In (n, p) items -> n <> "ticker"%string) ->
  In (name, pc) items ->
  applies block pc = true ->
  mem name (risk_columns df_risk) = true ->
  get (threshold_percentile pc) 90 < 0 \/ 100 < get (threshold_percentile pc) 90 ->
  forall acc,
    penalty_loop df_risk row0 date block acc items = Raise ValueError.
Proof.
  intros Hnames Hin Happ Hcol Hthr.
  assert (Hfrac : get (threshold_percentile pc) 90 / 100 < 0
                  \/ 1 < get (threshold_percentile pc) 90 / 100).
  { destruct Hthr as [H|H]; [left|right].
    - apply Qlt_shift_div_r; [reflexivity|]. lra.
    - apply Qlt_shift_div_l; [reflexivity|]. lra. }
  induction items as [|item items IH]; [destruct Hin|]. intro acc.
  cbn [penalty_loop].
  destruct (penalty_step df_risk row0 date block acc item) as [acc'|e] eqn:Hstep.
  - cbn [mbind result_bind bind].
    destruct Hin as [->|Hin];
      [|apply (IH (fun n p H => Hnames n p (or_intror H)) Hin)].
    exfalso. destruct acc as [total details]. unfold penalty_step in Hstep.
    unfold applies in Happ. apply orb_true_iff in Happ.
    assert (E : negb (mem block (get (affected_scores pc) []))
                && negb (mem "all" (get (affected_scores pc) [])) = false).
    { destruct Happ as [-> | ->]; cbn; [reflexivity|apply andb_false_r]. }
    rewrite E, Hcol in Hstep.
    rewrite (RowsProps.quantile_invalid _ _ Hfrac) in Hstep. discriminate.
  - cbn [mbind result_bind bind]. f_equal.
    apply (penalty_step_exn _ _ _ _ _ _ _
             (Hnames (fst item) (snd item)
                (or_introl (surjective_pairing item))) Hstep).
Qed.

(** A rule that counts for the block, on a metric of the risk table, with a
    threshold percentile outside [0, 100]: scoring a ticker that has a risk
    row raises [ValueError], whatever the other rules (none of them named
    after the column of tickers, which raises [TypeError]) and the
    values. *)
Theorem risk_penalties_invalid_threshold (s : Q) (ticker : string) (date : Z)
  (df_risk : risk_frame) (cfg : config) (block name : string)
  (pc : penalty_config) :
  rules_numeric cfg ->
  ticker_date_risk df_risk ticker date <> [] ->
  In (name, pc) (rules cfg) ->
  applies block pc = true ->
  mem name (risk_columns df_risk) = true ->
  get (threshold_percentile pc) 90 < 0 \/ 100 < get (threshold_percentile pc) 90 ->
  apply_risk_penalties (Some s) ticker date df_risk cfg block
  = Raise ValueError.
Proof.
  intros Hnumeric Hrows Hin Happ Hcol Hthr.
  rewrite Bounds.apply_risk_penalties_unfold.
  destruct (ticker_date_risk df_risk ticker date) as [|row0 rest]; [congruence|].
  fold (rules cfg).
  rewrite (penalty_loop_invalid df_risk row0 date block name pc (rules cfg)
             Hnumeric Hin Happ Hcol Hthr).
  reflexivity.
Qed.

Lemma risk_penalties_invalid_threshold_witness :
  apply_risk_penalties (Some 50) "E3" 1 volatility_frame
    (penalties_only [volatility_rule; broken_rule]) "quality"
  = Raise ValueError.
Proof.
  apply (risk_penalties_invalid_threshold 50 "E3" 1 volatility_frame
           (penalties_only [volatility_rule; broken_rule]) "quality"
           (fst broken_rule) (snd broken_rule)).
  - intros n p [H|[H|[]]]; injection H as <- <-; discriminate.
  - vm_compute. discriminate.
  - right. left. reflexivity.
  - reflexivity.
  - reflexivity.
  - right. reflexivity.
Defined.

(** With a rule named after the column of tickers before it, the broken
    rule is not reached: the exception is the [TypeError] of that rule. *)
Example ticker_rule_before_broken_rule :
  apply_risk_penalties (Some 50) "E3" 1 volatility_frame
    (penalties_only [ticker_rule; broken_rule]) "quality"
  = Raise TypeError.
Proof. vm_compute. reflexivity. Qed.

End PenaltyProps.

(** ** The Piotroski score, the score table and its quintiles *)

Module TableProps.

Import Normalizer Aggregator RiskSpec PenaltySpec ScoreSpec ReferenceSpec
  TableSpec Models.

(** The Piotroski score is read from the first [piotroski_raw] row of the
    ticker at the date: the linear conversion of its raw value, or its
    normalized value. *)
Lemma compute_piotroski_score_cases (df_signals : list normalized_signal)
  (ticker : string) (date : Z) (cfg : config) (s : Q) :
  compute_piotroski_score df_signals ticker date cfg = Some s ->
  exists r, In r df_signals /\ signal_name r = "piotroski_raw"%string
            /\ ((exists x, value_raw r = Some x /\ s = x / 9 * 100)
                \/ value_normalized r = Some s).
Proof.
  intro H. unfold compute_piotroski_score in H.
  destruct (List.filter _ df_signals) as [|r rest] eqn:Hf; [discriminate|].
  assert (Hin : In r (r :: rest)) by (left; reflexivity).
  rewrite <- Hf in Hin. apply filter_In in Hin. destruct Hin as [Hin Hb].
  apply andb_true_iff in Hb. destruct Hb as [_ Hname].
  apply String.eqb_eq in Hname. exists r. split; [exact Hin|].
  split; [exact Hname|].
  assert (Hlinear : piotroski_linear (value_raw r) = Some s ->
                    exists x, value_raw r = Some x /\ s = x / 9 * 100).
  { unfold piotroski_linear. destruct (value_raw r) as [x|]; [|discriminate].
    intro E. injection E as <-. eauto. }
  destruct (String.eqb _ "linear"); [left; apply Hlinear, H|].
  destruct (value_normalized r) as [v|]; [right; exact H|left; apply Hlinear, H].
Qed.

(** With F-scores between 0 and 9 and normalized values within [0, 100],
    the Piotroski score is within [0, 100], whatever the conversion
    configured. *)
Theorem piotroski_score_within_0_100 (df_signals : list normalized_signal)
  (ticker : string) (date : Z) (cfg : config) (s : Q) :
  piotroski_in_range df_signals ->
  normalized_in_range df_signals ->
  compute_piotroski_score df_signals ticker date cfg = Some s ->
  0 <= s /\ s <= 100.
Proof.
  intros Hraw Hnorm H.
  destruct (compute_piotroski_score_cases _ _ _ _ _ H)
    as (r & Hin & Hname & [(x & Hx & ->)|Hv]).
  - destruct (Hraw r x Hin Hname Hx) as [H0 H9]. split.
    + apply Qmult_le_0_compat; [|discriminate].
      apply Qle_shift_div_l; [reflexivity|]. lra.
    + assert (H1 : x / 9 <= 1) by (apply Qle_shift_div_r; [reflexivity|]; lra).
      lra.
  - apply (Hnorm r s Hin Hv).
Qed.

Lemma quality_signals_piotroski : piotroski_in_range quality_signals.
Proof.
  intros r x Hin Hname Hx. cbn in Hin.
  repeat (destruct Hin as [<-|Hin];
          [cbn in Hname, Hx; try discriminate; injection Hx as <-;
           split; discriminate|]).
  destruct Hin.
Qed.

Lemma piotroski_score_within_0_100_witness : 0 <= 55 /\ 55 <= 100.
Proof.
  apply (piotroski_score_within_0_100 quality_signals "E1" 1 quality_config 55
           quality_signals_piotroski ScoreProps.quality_signals_in_range).
  vm_compute. reflexivity.
Defined.

(** *** get_quintile *)

Lemma lt_Some (x y : Q) : lt (Some x) (Some y) = Qlt_bool x y.
Proof. reflexivity. Qed.

(** With a positive standard deviation every score gets a quintile from 1
    to 5, and a higher score never a lower quintile. *)
Theorem get_quintile_monotone (x y mean stddev : Q) :
  0 < stddev -> x <= y ->
  exists q1 q2,
    get_quintile (Some x) (Some mean) (Some stddev) = Some q1
    /\ get_quintile (Some y) (Some mean) (Some stddev) = Some q2
    /\ (1 <= q1)%Z /\ (q1 <= q2)%Z /\ (q2 <= 5)%Z.
Proof.
  intros Hsd Hxy. unfold get_quintile.
  assert (E : Qeq_bool stddev 0 = false).
  { apply not_true_is_false. intro H. apply Qeq_bool_iff in H. lra. }
  rewrite E. cbn [lift2]. rewrite !lt_Some.
  assert (Hz : (x - mean) / stddev <= (y - mean) / stddev).
  { apply Qmult_le_compat_r; [lra|].
    apply Qlt_le_weak, Qinv_lt_0_compat, Hsd. }
  set (zx := (x - mean) / stddev) in *. set (zy := (y - mean) / stddev) in *.
  destruct (Qlt_bool zx (-0.84)) eqn:X1; destruct (Qlt_bool zy (-0.84)) eqn:Y1;
    destruct (Qlt_bool zx (-0.25)) eqn:X2; destruct (Qlt_bool zy (-0.25)) eqn:Y2;
    destruct (Qlt_bool zx 0.25) eqn:X3; destruct (Qlt_bool zy 0.25) eqn:Y3;
    destruct (Qlt_bool zx 0.84) eqn:X4; destruct (Qlt_bool zy 0.84) eqn:Y4;
    rewrite ?Qlt_bool_iff, ?Qlt_bool_false in *;
    try (eexists; eexists; split; [reflexivity|split; [reflexivity|lia]]);
    exfalso; lra.
Qed.

Lemma get_quintile_monotone_witness :
  exists q1 q2,
    get_quintile (Some 40) (Some 50) (Some 10) = Some q1
    /\ get_quintile (Some 57) (Some 50) (Some 10) = Some q2
    /\ (1 <= q1)%Z /\ (q1 <= q2)%Z /\ (q2 <= 5)%Z.
Proof.
  apply (get_quintile_monotone 40 57 50 10); [reflexivity|discriminate].
Defined.

(** A score whose mean or standard deviation is NaN fails every comparison
    and lands in quintile 5; a zero standard deviation gives no quintile. *)
Theorem get_quintile_without_statistics (x : Q) (mean stddev : option Q) :
  (mean = None \/ stddev = None ->
   get_quintile (Some x) mean stddev
   = match stddev with
     | Some sd => if Qeq_bool sd 0 then None else Some 5%Z
     | None => Some 5%Z
     end)
  /\ (forall sd, stddev = Some sd -> sd == 0 ->
        get_quintile (Some x) mean stddev = None).
Proof.
  split.
  - intros [-> | ->]; unfold get_quintile.
    + destruct stddev as [sd|]; [|reflexivity].
      destruct (Qeq_bool sd 0); reflexivity.
    + destruct mean; reflexivity.
  - intros sd -> Hsd. unfold get_quintile.
    apply Qeq_bool_iff in Hsd. rewrite Hsd. reflexivity.
Qed.

(** *** add_quintiles *)

Lemma merge_left_scored (quintile_df : list quintile_row) (row : block_score) :
  merge_left quintile_df row <> []
  /\ forall r, In r (merge_left quintile_df row) -> scored r = row.
Proof.
  unfold merge_left. destruct (List.filter _ quintile_df) as [|q qs].
  - split; [discriminate|]. intros r [<-|[]]. reflexivity.
  - split; [discriminate|]. intros r Hin. apply in_map_iff in Hin.
    destruct Hin as (q' & <- & _). reflexivity.
Qed.

(** [add_quintiles] raises [KeyError] exactly when the table has no row of
    the reference block; otherwise it returns a table that holds the score
    rows of the input, none lost and none invented. *)
Theorem add_quintiles_raises_without_reference (sqrt : Q -> Q)
  (df_scores : list block_score) (reference_block : string) :
  (reference_scores df_scores reference_block = [] <->
   add_quintiles sqrt df_scores reference_block = Raise KeyError)
  /\ (reference_scores df_scores reference_block <> [] ->
      exists out,
        add_quintiles sqrt df_scores reference_block = Ok out
        /\ (List.length df_scores <= List.length out)%nat
        /\ forall row, In row (map scored out) <-> In row df_scores).
Proof.
  unfold add_quintiles.
  change (List.filter (fun r => String.eqb (block r) reference_block) df_scores)
    with (reference_scores df_scores reference_block).
  destruct (reference_scores df_scores reference_block) as [|r0 rest] eqn:Href.
  - cbn. split; [tauto|congruence].
  - rewrite <- Href.
    assert (Hne : reference_scores df_scores reference_block <> [])
      by (rewrite Href; discriminate).
    assert (Hq := ReferenceProps.quintile_df_not_empty sqrt _ Hne).
    destruct (flat_map _ _) as [|q0 qs] eqn:Hqs; [congruence|].
    rewrite <- Hqs. clear Hq. split; [split; [congruence|discriminate]|].
    intros _. eexists. split; [reflexivity|].
    set (quintile_df := flat_map _ (unique _)). clearbody quintile_df.
    clear Hqs Hne Href. split.
    + induction df_scores as [|row l IH]; [cbn; lia|].
      cbn [flat_map]. rewrite length_app. cbn [List.length].
      destruct (merge_left_scored quintile_df row) as [Hnil _].
      destruct (merge_left quintile_df row); [congruence|]. cbn. lia.
    + intro row. rewrite in_map_iff. split.
      * intros (r & <- & Hr). apply in_flat_map in Hr.
        destruct Hr as (row' & Hrow' & Hr).
        destruct (merge_left_scored quintile_df row') as [_ Hs].
        rewrite (Hs r Hr). exact Hrow'.
      * intro Hrow. destruct (merge_left_scored quintile_df row) as [Hnil Hs].
        destruct (merge_left quintile_df row) as [|r l] eqn:Hm; [congruence|].
        exists r. split; [apply Hs; left; reflexivity|].
        apply in_flat_map. exists row. split; [exact Hrow|].
        rewrite Hm. left. reflexivity.
Qed.

(** *** compute_all_scores *)

Lemma apply_risk_penalties_total score ticker date df_risk cfg block :
  rules_valid cfg -> rules_numeric cfg ->
  exists adjusted details,
    apply_risk_penalties score ticker date df_risk cfg block
    = Ok (adjusted, details)
    /\ match score, adjusted with
       | Some _, Some _ => True
       | None, None => True
       | _, _ => False
       end.
Proof.
  intros Hvalid Hnumeric. destruct score as [s|].
  - assert (H := PenaltyProps.apply_risk_penalties_valid s ticker date df_risk
                   cfg block Hvalid Hnumeric).
    destruct (RiskSpec.ticker_date_risk df_risk ticker date).
    + exists (Some s), []. split; [exact H|exact I].
    + destruct H as (total & d & H & _).
      eexists (Some _), d. split; [exact H|exact I].
  - exists None, []. split; [reflexivity|exact I].
Qed.

(** With valid penalty rules, none of them named after the column of
    tickers, [compute_all_scores] raises nothing and returns, for each
    distinct (ticker, date) of the signals in order of first appearance,
    the four rows contrarian, turnaround, piotroski and quality; in each
    row the adjusted score is NaN exactly when the raw score is. *)
Theorem compute_all_scores_four_rows (df_signals : list normalized_signal)
  (df_risk : risk_frame) (cfg : config) :
  rules_valid cfg -> rules_numeric cfg ->
  exists df_scores,
    compute_all_scores df_signals df_risk cfg = Ok df_scores
    /\ map row_key df_scores = flat_map keys_of (ticker_dates df_signals)
    /\ Forall same_validity df_scores.
Proof.
  intros Hvalid Hnumeric. unfold compute_all_scores.
  fold (ticker_dates df_signals).
  assert (Hrows : forall td, exists rows,
             score_rows df_signals df_risk cfg td = Ok rows
             /\ map row_key rows = keys_of td
             /\ Forall same_validity rows).
  { intro td. unfold score_rows.
    destruct (apply_risk_penalties_total
                (compute_contrarian_score df_signals (fst td) (snd td) cfg)
                (fst td) (snd td) df_risk cfg "contrarian" Hvalid Hnumeric)
      as (a1 & d1 & -> & H1).
    destruct (apply_risk_penalties_total
                (compute_turnaround_score df_signals (fst td) (snd td) cfg)
                (fst td) (snd td) df_risk cfg "turnaround" Hvalid Hnumeric)
      as (a2 & d2 & -> & H2).
    destruct (apply_risk_penalties_total
                (compute_piotroski_score df_signals (fst td) (snd td) cfg)
                (fst td) (snd td) df_risk cfg "piotroski" Hvalid Hnumeric)
      as (a3 & d3 & -> & H3).
    destruct (apply_risk_penalties_total
                (compute_quality_score df_signals (fst td) (snd td) cfg)
                (fst td) (snd td) df_risk cfg "quality" Hvalid Hnumeric)
      as (a4 & d4 & -> & H4).
    cbn [mbind result_bind bind fst]. eexists. split; [reflexivity|].
    split; [reflexivity|]. repeat constructor; assumption. }
  assert (Hloop : forall pairs, exists results,
             for_each (score_rows df_signals df_risk cfg) pairs = Ok results
             /\ map row_key (concat results) = flat_map keys_of pairs
             /\ Forall same_validity (concat results)).
  { induction pairs as [|td pairs (results & Hres & Hkeys & Hall)].
    - exists []. repeat split. constructor.
    - destruct (Hrows td) as (rows & Hr & Hk & Ha).
      exists (rows :: results). cbn [for_each]. rewrite Hr, Hres.
      split; [reflexivity|]. cbn [concat flat_map].
      rewrite map_app, Hk, Hkeys. split; [reflexivity|].
      apply Forall_app. split; assumption. }
  destruct (Hloop (ticker_dates df_signals)) as (results & Hres & Hkeys & Hall).
  exists (concat results). rewrite Hres. repeat split; assumption.
Qed.

Lemma compute_all_scores_four_rows_witness :
  exists df_scores,
    compute_all_scores quality_signals volatility_frame two_rules = Ok df_scores
    /\ map row_key df_scores = flat_map keys_of (ticker_dates quality_signals)
    /\ Forall same_validity df_scores.
Proof.
  apply (compute_all_scores_four_rows quality_signals volatility_frame two_rules
           PenaltyProps.two_rules_valid PenaltyProps.two_rules_numeric).
Defined.

(** With the rule named after the column of tickers the first entity that
    has a score and a risk row stops the loop. *)
Example compute_all_scores_ticker_rule :
  compute_all_scores
    [mk_norm 1 "E1" "A" (Some 3) (Some 3) (Some 1) (Some 80)]
    volatility_frame
    (mk_config
       (Some (mk_block (Some [("A"%string, mk_signal (Some 1) None)]) None None))
       None None None None None None (Some [ticker_rule]))
  = Raise TypeError.
Proof. vm_compute. reflexivity. Qed.


Lemma add_quintiles_after_compute_all_scores_witness :
  let df_scores :=
    table_of (compute_all_scores example_signals no_risk example_config) in
  NoDup (map key (reference_scores df_scores "contrarian"))
  /\ add_quintiles sqrt_model df_scores "contrarian"
     = Ok (map (fun row =>
                  mk_ranked row
                    (reference_quintile sqrt_model df_scores "contrarian"
                       (bs_date row) (bs_ticker row)))
             df_scores).
Proof.
  intro df_scores.
  apply (ReferenceProps.add_quintiles_after_compute_all_scores sqrt_model
           example_signals no_risk example_config "contrarian" df_scores).
  - vm_compute. reflexivity.
  - discriminate.
  - left. reflexivity.
Defined.

End TableProps.

(** ** Percentile ranks keep the order of the scores *)

Module RankProps.

Import Series Recalculate QuintileSpec.

Lemma count_le_split (valid_values : list Q) (x : Q) :
  (count_if (fun y => Qlt_bool y x) valid_values
   + count_if (fun y => Qeq_bool y x) valid_values
   = count_if (fun y => Qle_bool y x) valid_values)%nat.
Proof.
  unfold count_if. induction valid_values as [|y l IH]; [reflexivity|]. cbn.
  destruct (Qlt_bool y x) eqn:Elt, (Qeq_bool y x) eqn:Eeq,
    (Qle_bool y x) eqn:Ele; cbn; try lia; exfalso;
    rewrite ?Qlt_bool_iff, ?Qlt_bool_false, ?Qeq_bool_iff in *;
    try (apply Qle_bool_iff in Ele);
    try (assert (Hn : ~ y <= x)
           by (intro H; apply Qle_bool_iff in H; congruence));
    try (assert (Hne : ~ y == x)
           by (intro H; apply Qeq_bool_iff in H; congruence));
    lra.
Qed.

Lemma count_eq_pos (valid_values : list Q) (x : Q) :
  In x valid_values ->
  (1 <= count_if (fun y => Qeq_bool y x) valid_values)%nat.
Proof.
  unfold count_if. induction valid_values as [|y l IH]; intro Hin;
    [destruct Hin|]. destruct Hin as [->|Hin]; cbn.
  - rewrite QuintileProps.Qeq_bool_refl. cbn. lia.
  - destruct (Qeq_bool y x); cbn; [lia|apply IH, Hin].
Qed.

Lemma inject_nat_le (a b : nat) :
  (a <= b)%nat -> inject_Z (Z.of_nat a) <= inject_Z (Z.of_nat b).
Proof. intro H. rewrite <- Zle_Qle. lia. Qed.

Lemma inject_nat_plus (a b : nat) :
  inject_Z (Z.of_nat (a + b)) == inject_Z (Z.of_nat a) + inject_Z (Z.of_nat b).
Proof. rewrite Nat2Z.inj_add, inject_Z_plus. reflexivity. Qed.

(** The percentile rank of a valid value is in (0, 1]. *)
Lemma rank_pct_range (valid_values : list Q) (x : Q) :
  In x valid_values ->
  0 < rank_pct valid_values x /\ rank_pct valid_values x <= 1.
Proof.
  intro Hin. unfold rank_pct, rank, count.
  set (b := count_if (fun y => Qlt_bool y x) valid_values).
  set (e := count_if (fun y => Qeq_bool y x) valid_values).
  assert (He : (1 <= e)%nat) by (apply count_eq_pos, Hin).
  assert (Hbe : (b + e <= List.length valid_values)%nat).
  { unfold b, e. rewrite count_le_split. apply QuintileProps.filter_length_le. }
  assert (Hn : (1 <= List.length valid_values)%nat) by lia.
  assert (HB : 0 <= inject_Z (Z.of_nat b))
    by (change 0 with (inject_Z (Z.of_nat 0)); apply inject_nat_le; lia).
  assert (HE : 1 <= inject_Z (Z.of_nat e))
    by (change 1 with (inject_Z (Z.of_nat 1)); apply inject_nat_le; lia).
  assert (HN : 1 <= inject_Z (Z.of_nat (List.length valid_values)))
    by (change 1 with (inject_Z (Z.of_nat 1)); apply inject_nat_le; lia).
  assert (HBE := inject_nat_le _ _ Hbe). rewrite inject_nat_plus in HBE.
  assert (Hhalf : (inject_Z (Z.of_nat e) + 1) / 2
                  == (1 # 2) * inject_Z (Z.of_nat e) + (1 # 2)) by field.
  rewrite Hhalf. split.
  - apply Qlt_shift_div_l; lra.
  - apply Qle_shift_div_r; lra.
Qed.

(** A higher value has a higher or equal percentile rank. *)
Lemma rank_pct_monotone (valid_values : list Q) (x y : Q) :
  valid_values <> [] -> x <= y ->
  rank_pct valid_values x <= rank_pct valid_values y.
Proof.
  intros Hne Hxy. unfold rank_pct, rank, count.
  set (b := count_if (fun z => Qlt_bool z x) valid_values).
  set (e := count_if (fun z => Qeq_bool z x) valid_values).
  set (b' := count_if (fun z => Qlt_bool z y) valid_values).
  set (e' := count_if (fun z => Qeq_bool z y) valid_values).
  assert (Hb : (b <= b')%nat).
  { apply QuintileProps.filter_length_mono. intros z _ Hz.
    rewrite Qlt_bool_iff in *. lra. }
  assert (Hc : (b + e <= b' + e')%nat).
  { unfold b, e, b', e'. rewrite !count_le_split.
    apply QuintileProps.filter_length_mono. intros z _ Hz.
    apply Qle_bool_iff. apply Qle_bool_iff in Hz. lra. }
  assert (HB := inject_nat_le _ _ Hb).
  assert (HC := inject_nat_le _ _ Hc). rewrite !inject_nat_plus in HC.
  assert (HN : 0 < inject_Z (Z.of_nat (List.length valid_values))).
  { change 0 with (inject_Z (Z.of_nat 0)). rewrite <- Zlt_Qlt.
    destruct valid_values; [congruence|cbn; lia]. }
  assert (Hhalf : forall E : Q, (E + 1) / 2 == (1 # 2) * E + (1 # 2))
    by (intro E; field).
  rewrite !Hhalf.
  apply Qmult_le_compat_r; [lra|].
  apply Qlt_le_weak, Qinv_lt_0_compat, HN.
Qed.

(** [pd.cut] keeps the order of ranks in (0, 1]. *)
Lemma cut_monotone (r r' : Q) :
  0 < r -> r <= r' -> r' <= 1 ->
  exists q q', cut r = Some q /\ cut r' = Some q'
               /\ (1 <= q)%Z /\ (q <= q')%Z /\ (q' <= 5)%Z.
Proof.
  intros H0 Hrr H1. unfold cut.
  assert (E0 : Qlt_bool r 0 = false) by (apply Qlt_bool_false; lra).
  assert (E0' : Qlt_bool r' 0 = false) by (apply Qlt_bool_false; lra).
  assert (E1 : Qle_bool r 1.0 = true) by (apply Qle_bool_iff; lra).
  assert (E1' : Qle_bool r' 1.0 = true) by (apply Qle_bool_iff; lra).
  rewrite E0, E0', E1, E1'.
  assert (Hle : forall a c, Qle_bool a c = false -> c < a).
  { intros a c E. apply Qnot_le_lt. intro H. apply Qle_bool_iff in H. congruence. }
  destruct (Qle_bool r 0.2) eqn:X1; destruct (Qle_bool r' 0.2) eqn:Y1;
    destruct (Qle_bool r 0.4) eqn:X2; destruct (Qle_bool r' 0.4) eqn:Y2;
    destruct (Qle_bool r 0.6) eqn:X3; destruct (Qle_bool r' 0.6) eqn:Y3;
    destruct (Qle_bool r 0.8) eqn:X4; destruct (Qle_bool r' 0.8) eqn:Y4;
    try (eexists; eexists; split; [reflexivity|split; [reflexivity|lia]]);
    exfalso;
    repeat match goal with
           | H : Qle_bool _ _ = true |- _ => apply Qle_bool_iff in H
           | H : Qle_bool _ _ = false |- _ => apply Hle in H
           end;
    lra.
Qed.

(** Every valid score gets a quintile from 1 to 5, and of two valid scores
    of a series the higher one never gets the lower quintile; equal scores
    get the same quintile. *)
Theorem calculate_quintiles_ordered (series : list (option Q)) (i j : nat)
  (x y : Q) :
  nth_error series i = Some (Some x) ->
  nth_error series j = Some (Some y) ->
  x <= y ->
  exists qx qy,
    nth_error (calculate_quintiles series) i = Some (Some qx)
    /\ nth_error (calculate_quintiles series) j = Some (Some qy)
    /\ (1 <= qx)%Z /\ (qx <= qy)%Z /\ (qy <= 5)%Z
    /\ (x == y -> qx = qy).
Proof.
  intros Hi Hj Hxy.
  assert (Hx : In x (dropna series))
    by (apply SeriesProps.dropna_In; apply (nth_error_In _ _ Hi)).
  assert (Hy : In y (dropna series))
    by (apply SeriesProps.dropna_In; apply (nth_error_In _ _ Hj)).
  assert (Hne : dropna series <> [])
    by (intro E; rewrite E in Hx; destruct Hx).
  rewrite (QuintileProps.calculate_quintiles_valid series Hne).
  rewrite !nth_error_map, Hi, Hj. cbn [option_map].
  destruct (rank_pct_range _ _ Hx) as [Hx0 _].
  destruct (rank_pct_range _ _ Hy) as [_ Hy1].
  assert (Hmono := rank_pct_monotone _ _ _ Hne Hxy).
  destruct (cut_monotone _ _ Hx0 Hmono Hy1) as (qx & qy & Hqx & Hqy & Hb).
  exists qx, qy. rewrite Hqx, Hqy.
  split; [reflexivity|]. split; [reflexivity|].
  destruct Hb as (H1 & H2 & H3). repeat split; try assumption.
  intro Heq.
  assert (Hback : rank_pct (dropna series) y <= rank_pct (dropna series) x)
    by (apply rank_pct_monotone; [exact Hne|rewrite Heq; apply Qle_refl]).
  assert (Hsame : rank_pct (dropna series) x == rank_pct (dropna series) y)
    by (apply Qle_antisym; assumption).
  rewrite (QuintileProps.cut_proper _ _ Hsame) in Hqx. congruence.
Qed.

Lemma calculate_quintiles_ordered_witness :
  exists qx qy,
    nth_error (calculate_quintiles [Some 7; None; Some 3; Some 7; Some 9]) 2
    = Some (Some qx)
    /\ nth_error (calculate_quintiles [Some 7; None; Some 3; Some 7; Some 9]) 3
       = Some (Some qy)
    /\ (1 <= qx)%Z /\ (qx <= qy)%Z /\ (qy <= 5)%Z
    /\ (3 == 7 -> qx = qy).
Proof.
  apply (calculate_quintiles_ordered [Some 7; None; Some 3; Some 7; Some 9]
           2 3 3 7); [reflexivity|reflexivity|discriminate].
Defined.

End RankProps.

(** ** Signal coverage *)

Module CoverageProps.

Import Normalizer Coverage RowsSpec.

Lemma set_of_NoDup (xs : list string) : NoDup (set_of xs).
Proof. apply ReferenceProps.unique_by_NoDup, String.eqb_eq. Qed.

Lemma set_of_In (xs : list string) (s : string) : In s (set_of xs) <-> In s xs.
Proof. apply ReferenceProps.unique_by_In, String.eqb_eq. Qed.

Lemma existsb_eqb (s : string) (l : list string) :
  existsb (String.eqb s) l = true <-> In s l.
Proof.
  rewrite existsb_exists. split.
  - intros (x & Hx & E). apply String.eqb_eq in E. subst x. exact Hx.
  - intro H. exists s. split; [exact H|apply String.eqb_refl].
Qed.

Lemma inter_In (a b : list string) (s : string) :
  In s (inter a b) <-> In s a /\ In s b.
Proof. unfold inter. rewrite filter_In, existsb_eqb. reflexivity. Qed.

Lemma inter_length_le (a b : list string) :
  NoDup a -> NoDup b -> (List.length (inter a b) <= List.length b)%nat.
Proof.
  intros Ha Hb. apply NoDup_incl_length.
  - apply NoDup_filter, Ha.
  - intros s Hs. apply inter_In in Hs. tauto.
Qed.

Lemma inter_full (a b : list string) :
  NoDup a -> NoDup b ->
  (List.length (inter a b) = List.length b <-> incl b a).
Proof.
  intros Ha Hb.
  assert (Hnd : NoDup (inter a b)) by (apply NoDup_filter, Ha).
  assert (Hincl : incl (inter a b) b)
    by (intros s Hs; apply inter_In in Hs; tauto).
  split.
  - intros Hlen s Hs.
    assert (Hback : incl b (inter a b))
      by (apply NoDup_length_incl; [exact Hnd|lia|exact Hincl]).
    apply Hback, inter_In in Hs. tauto.
  - intro Hba. apply Permutation_length, NoDup_Permutation; try assumption.
    intro s. rewrite inter_In. split; [tauto|]. intro Hs. split; [apply Hba, Hs|exact Hs].
Qed.

(** The coverage ratio is a fraction, and it is 1 exactly when every
    required signal is available (some signal being required). *)
Lemma coverage_ratio_spec (available required_set : list string) :
  NoDup available -> NoDup required_set ->
  (0 <= coverage_ratio available required_set
   /\ coverage_ratio available required_set <= 1)
  /\ (required_set <> [] ->
      (coverage_ratio available required_set == 1
       <-> incl required_set available)).
Proof.
  intros Ha Hr. unfold coverage_ratio.
  destruct required_set as [|r0 rest] eqn:E.
  - split; [split; discriminate|congruence].
  - rewrite <- E in *.
    assert (Hlen := inter_length_le available required_set Ha Hr).
    assert (Hn : (1 <= List.length required_set)%nat) by (rewrite E; cbn; lia).
    set (k := List.length (inter available required_set)) in *.
    set (n := List.length required_set) in *.
    assert (HN : 0 < inject_Z (Z.of_nat n)).
    { change 0 with (inject_Z 0). rewrite <- Zlt_Qlt. lia. }
    assert (HK : 0 <= inject_Z (Z.of_nat k)).
    { change 0 with (inject_Z 0). rewrite <- Zle_Qle. lia. }
    assert (HKN : inject_Z (Z.of_nat k) <= inject_Z (Z.of_nat n)).
    { rewrite <- Zle_Qle. lia. }
    split; [split|].
    + apply Qle_shift_div_l; [exact HN|]. lra.
    + apply Qle_shift_div_r; [exact HN|]. lra.
    + intros _. rewrite <- (inter_full available required_set Ha Hr).
      fold k n. split.
      * intro H1.
        assert (Heq : inject_Z (Z.of_nat k) == inject_Z (Z.of_nat n)).
        { rewrite <- (Qmult_1_l (inject_Z (Z.of_nat n))), <- H1.
          field. lra. }
        apply Nat2Z.inj. unfold Qeq in Heq. cbn [Qnum Qden inject_Z] in Heq. lia.
      * intro Hkn. change (inject_Z (Z.of_nat k) / inject_Z (Z.of_nat n) == 1).
        replace k with n by (symmetry; exact Hkn). field. lra.
Qed.

(** [check_coverage] returns a coverage between 0 and 1 and compares it
    with the threshold; with a requirement the coverage is 1 exactly when
    every required signal has a row for the ticker at the date, and
    without any requirement it is 0. *)
Theorem check_coverage_fraction (df_signals : list raw_signal)
  (ticker : string) (date : Z) (required_signals : list string)
  (threshold : Q) :
  let '(is_valid, coverage) :=
    check_coverage df_signals ticker date required_signals threshold in
  (is_valid = true <-> threshold <= coverage)
  /\ 0 <= coverage /\ coverage <= 1
  /\ (required_signals = [] -> coverage == 0)
  /\ (required_signals <> [] ->
      (coverage == 1
       <-> fully_covered df_signals ticker date required_signals)).
Proof.
  unfold check_coverage.
  set (rows := List.filter _ df_signals).
  set (available := set_of (map rs_signal_name rows)).
  destruct (coverage_ratio_spec available (set_of required_signals)
              (set_of_NoDup _) (set_of_NoDup _)) as [[H0 H1] Hfull].
  split; [apply Qle_bool_iff|]. split; [exact H0|]. split; [exact H1|].
  split.
  - intros ->. reflexivity.
  - intro Hne.
    assert (Hne' : set_of required_signals <> []).
    { destruct required_signals as [|s l]; [congruence|]. discriminate. }
    rewrite (Hfull Hne'). unfold incl, fully_covered. split.
    + intros H s Hs. apply set_of_In in Hs. apply H in Hs.
      apply set_of_In, in_map_iff in Hs. destruct Hs as (r & Hname & Hr).
      apply filter_In in Hr. destruct Hr as [Hr Hb].
      apply andb_true_iff in Hb. destruct Hb as [Ht Hd].
      apply String.eqb_eq in Ht. apply Z.eqb_eq in Hd.
      exists r. tauto.
    + intros H s Hs. apply (proj1 (set_of_In _ _)) in Hs.
      destruct (H s Hs) as (r & Hr & Ht & Hd & Hname).
      apply set_of_In, in_map_iff. exists r. split; [exact Hname|].
      apply filter_In. split; [exact Hr|].
      apply andb_true_iff. split; [apply String.eqb_eq, Ht|apply Z.eqb_eq, Hd].
Qed.

Lemma coverage_ratio_perm (available required required' : list string) :
  Permutation required required' ->
  coverage_ratio available required = coverage_ratio available required'.
Proof.
  intro Hp. unfold coverage_ratio.
  assert (Hinter : inter available required = inter available required').
  { unfold inter. apply filter_ext. intro s.
    destruct (existsb (String.eqb s) required) eqn:E1,
      (existsb (String.eqb s) required') eqn:E2; try reflexivity.
    - apply existsb_eqb in E1. apply (Permutation_in _ Hp) in E1.
      apply existsb_eqb in E1. congruence.
    - apply existsb_eqb in E2. apply (Permutation_in _ (Permutation_sym Hp)) in E2.
      apply existsb_eqb in E2. congruence. }
  rewrite Hinter, (Permutation_length Hp).
  destruct required as [|r l], required' as [|r' l']; try reflexivity.
  - apply Permutation_nil in Hp. discriminate.
  - apply Permutation_sym, Permutation_nil in Hp. discriminate.
Qed.

(** The requirement counts as a set: its order and the repetition of a
    name in it change neither the coverage nor the verdict. *)
Theorem check_coverage_requirement_as_set (df_signals : list raw_signal)
  (ticker : string) (date : Z) (required_signals required_signals' : list string)
  (threshold : Q) :
  (forall s, In s required_signals <-> In s required_signals') ->
  check_coverage df_signals ticker date required_signals threshold
  = check_coverage df_signals ticker date required_signals' threshold.
Proof.
  intro Hsame. unfold check_coverage.
  rewrite (coverage_ratio_perm _ (set_of required_signals)
             (set_of required_signals')); [reflexivity|].
  apply NoDup_Permutation; try apply set_of_NoDup.
  intro s. rewrite !set_of_In. apply Hsame.
Qed.

Lemma check_coverage_requirement_as_set_witness :
  check_coverage two_dates "E1" 1 ["s"; "other"; "s"; "missing"]%string 0.7
  = check_coverage two_dates "E1" 1 ["missing"; "other"; "s"]%string 0.7.
Proof.
  apply (check_coverage_requirement_as_set two_dates "E1" 1
           ["s"; "other"; "s"; "missing"]%string
           ["missing"; "other"; "s"]%string 0.7).
  intro s. cbn. tauto.
Defined.

(** *** validate_signals *)

Lemma diff_nil_iff (a b : list string) :
  diff a b = [] <-> forall s, In s a -> In s b.
Proof.
  unfold diff. split.
  - intros H s Hs. destruct (existsb (String.eqb s) b) eqn:E.
    + apply existsb_eqb, E.
    + assert (Hin : In s (List.filter
                            (fun s => negb (existsb (String.eqb s) b)) a))
        by (apply filter_In; split; [exact Hs|rewrite E; reflexivity]).
      rewrite H in Hin. destruct Hin.
  - intro H. apply ReferenceProps.filter_nil_iff. intros s Hs.
    apply negb_false_iff, existsb_eqb, H, Hs.
Qed.

(** The report is valid exactly when every required signal occurs in the
    table and every ticker of the table reaches the minimum coverage. *)
Theorem validate_signals_valid_iff (df_signals : list raw_signal)
  (required_signals : list string) (min_coverage : Q) :
  sr_valid (validate_signals df_signals required_signals min_coverage) = true
  <-> (forall s, In s required_signals -> In s (map rs_signal_name df_signals))
      /\ (forall r, In r df_signals ->
            min_coverage
            <= ticker_coverage df_signals (set_of required_signals)
                 (rs_ticker r)).
Proof.
  unfold validate_signals. cbn [sr_valid].
  set (missing := diff (set_of required_signals)
                    (set_of (map rs_signal_name df_signals))).
  assert (Hmissing : missing = []
                     <-> forall s, In s required_signals ->
                                   In s (map rs_signal_name df_signals)).
  { unfold missing. rewrite diff_nil_iff. split.
    - intros H s Hs. apply set_of_In, H, set_of_In, Hs.
    - intros H s Hs. apply set_of_In, H, set_of_In, Hs. }
  rewrite negb_true_iff, orb_false_iff. rewrite <- Hmissing.
  assert (Hlow : existsb
                   (fun tc : string * Q => Qlt_bool (snd tc) min_coverage)
                   (map (fun ticker =>
                           (ticker,
                            ticker_coverage df_signals
                              (set_of required_signals) ticker))
                      (unique_by String.eqb (map rs_ticker df_signals)))
                 = false
                 <-> forall r, In r df_signals ->
                       min_coverage
                       <= ticker_coverage df_signals (set_of required_signals)
                            (rs_ticker r)).
  { split.
    - intros H r Hr. apply Qlt_bool_false.
      destruct (Qlt_bool _ min_coverage) eqn:E; [|reflexivity].
      rewrite <- H. symmetry. apply existsb_exists.
      exists (rs_ticker r,
              ticker_coverage df_signals (set_of required_signals) (rs_ticker r)).
      split; [|exact E]. apply in_map_iff. exists (rs_ticker r).
      split; [reflexivity|].
      apply ReferenceProps.unique_by_In; [apply String.eqb_eq|].
      apply in_map, Hr.
    - intro H. apply not_true_is_false. intro Hex.
      apply existsb_exists in Hex. destruct Hex as ([t c] & Hin & Hlt).
      apply in_map_iff in Hin. destruct Hin as (t' & Heq & Hin).
      injection Heq as <- <-.
      apply ReferenceProps.unique_by_In in Hin; [|apply String.eqb_eq].
      apply in_map_iff in Hin. destruct Hin as (r & <- & Hr).
      cbn [snd] in Hlt. apply Qlt_bool_iff in Hlt.
      specialize (H r Hr). lra. }
  rewrite Hlow. destruct missing; split; intros [H1 H2];
    (split; [congruence|exact H2]).
Qed.

(** Without any required signal every ticker has the coverage 0, so a table
    that has a row is reported invalid for any positive minimum coverage,
    although no signal is missing. *)
Theorem validate_signals_without_requirement (df_signals : list raw_signal)
  (min_coverage : Q) :
  df_signals <> [] -> 0 < min_coverage ->
  let report := validate_signals df_signals [] min_coverage in
  sr_valid report = false
  /\ sr_missing_signals report = []
  /\ sr_coverage report
     = map (fun ticker => (ticker, 0))
         (unique_by String.eqb (map rs_ticker df_signals))
  /\ List.length (sr_warnings report) = List.length (sr_coverage report).
Proof.
  intros Hne Hmin. cbv zeta. unfold validate_signals.
  cbn [set_of unique_by diff List.filter sr_valid sr_missing_signals
       sr_coverage sr_warnings orb app].
  unfold ticker_coverage. cbn [coverage_ratio].
  set (tickers := unique_by String.eqb (map rs_ticker df_signals)).
  assert (Hlt : Qlt_bool 0 min_coverage = true) by (apply Qlt_bool_iff, Hmin).
  assert (Hall : List.filter
                   (fun tc : string * Q => Qlt_bool (snd tc) min_coverage)
                   (map (fun ticker : string => (ticker, 0)) tickers)
                 = map (fun ticker : string => (ticker, 0)) tickers).
  { induction tickers as [|t l IH]; [reflexivity|]. cbn. rewrite Hlt, IH.
    reflexivity. }
  split; [|split; [reflexivity|split; [reflexivity|]]].
  - apply negb_false_iff.
    destruct df_signals as [|r l]; [congruence|]. subst tickers. cbn.
    rewrite Hlt. reflexivity.
  - rewrite Hall, !length_map. reflexivity.
Qed.

Lemma validate_signals_without_requirement_witness :
  let report := validate_signals two_dates [] 0.7 in
  sr_valid report = false
  /\ sr_missing_signals report = []
  /\ sr_coverage report
     = map (fun ticker => (ticker, 0))
         (unique_by String.eqb (map rs_ticker two_dates))
  /\ List.length (sr_warnings report) = List.length (sr_coverage report).
Proof.
  apply (validate_signals_without_requirement two_dates 0.7);
    [discriminate|reflexivity].
Defined.

End CoverageProps.

(** ** The score validator *)

Module ValidatorProps.

Import Aggregator Validator ReferenceSpec.

Section WithSqrt.

Variable sqrt : Q -> Q.

(** The loop over the blocks: the report stays valid exactly when it was
    and no block has a score outside the range; the null entries and the
    statistics add up the rows of the blocks. *)
Lemma validate_blocks df_scores expected_range blocks : forall report,
  let final := fold_left (validate_block sqrt df_scores expected_range)
                 blocks report in
  (vr_valid final = true
   <-> vr_valid report = true
       /\ forall blk, In blk blocks ->
            List.filter (outside expected_range)
              (Series.dropna (block_scores df_scores blk)) = [])
  /\ (total_nulls final + total_counted final
      = total_nulls report + total_counted report
        + list_sum (map (fun blk => List.length (block_scores df_scores blk))
                      blocks))%nat
  /\ map fst (vr_statistics final)
     = (map fst (vr_statistics report) ++ blocks)%list.
Proof.
  induction blocks as [|blk blocks IH]; intro report; cbn zeta.
  - cbn [fold_left map list_sum fold_right]. rewrite app_nil_r.
    split; [|split; [apply plus_n_O|reflexivity]].
    split; [intro H; split; [exact H|intros blk []]|tauto].
  - cbn [fold_left].
    destruct (IH (validate_block sqrt df_scores expected_range report blk))
      as (Hvalid & Hsum & Hstats).
    cbn zeta in Hvalid, Hsum, Hstats. rewrite Hvalid, Hsum, Hstats. clear IH.
    set (scores := block_scores df_scores blk).
    split; [|split].
    + unfold validate_block. cbn [vr_valid]. fold scores.
      destruct (List.filter (outside expected_range) (Series.dropna scores))
        as [|v l] eqn:Hout; cbn [List.length Nat.ltb Nat.leb].
      * split.
        -- intros [Hr Hall]. split; [exact Hr|].
           intros b [<-|Hb]; [exact Hout|apply Hall, Hb].
        -- intros [Hr Hall]. split; [exact Hr|].
           intros b Hb. apply Hall. right. exact Hb.
      * split; [intros [Hr _]; discriminate|].
        intros [_ Hall]. specialize (Hall blk (or_introl eq_refl)).
        fold scores in Hall. congruence.
    + unfold validate_block, total_nulls, total_counted.
      cbn [vr_null_scores vr_statistics]. fold scores.
      rewrite map_app, list_sum_app. cbn [map list_sum fold_right snd st_count].
      assert (Hsplit : (List.length
                          (List.filter
                             (fun v : option Q =>
                                match v with None => true | Some _ => false end)
                             scores)
                        + List.length (Series.dropna scores)
                        = List.length scores)%nat).
      { clear. induction scores as [|[x|] l IH]; cbn; lia. }
      destruct (0 <? _)%nat eqn:E.
      * rewrite map_app, list_sum_app. cbn [map list_sum fold_right snd].
        subst scores. unfold list_sum. lia.
      * apply Nat.ltb_ge in E. subst scores. unfold list_sum. lia.
    + unfold validate_block. cbn [vr_statistics].
      rewrite map_app, <- app_assoc. reflexivity.
Qed.

Lemma block_scores_In df_scores blk v :
  In v (Series.dropna (block_scores df_scores blk))
  <-> exists r, In r df_scores /\ block r = blk /\ score_adjusted r = Some v.
Proof.
  rewrite SeriesProps.dropna_In. unfold block_scores. rewrite in_map_iff.
  split.
  - intros (r & Hv & Hr). apply filter_In in Hr. destruct Hr as [Hr Hb].
    apply String.eqb_eq in Hb. eauto.
  - intros (r & Hr & Hb & Hv). exists r. split; [exact Hv|].
    apply filter_In. split; [exact Hr|apply String.eqb_eq, Hb].
Qed.

(** The report of [validate_scores] is valid exactly when every adjusted
    score that is not NaN lies in the expected range: NaN scores are
    listed, and never make the report invalid. *)
Theorem validate_scores_valid_iff (df_scores : list block_score)
  (expected_range : Q * Q) :
  vr_valid (validate_scores sqrt df_scores expected_range) = true
  <-> forall r v, In r df_scores -> score_adjusted r = Some v ->
        fst expected_range <= v /\ v <= snd expected_range.
Proof.
  unfold validate_scores.
  destruct (validate_blocks df_scores expected_range
              (unique_by String.eqb (map block df_scores))
              (mk_scores_report true [] [] [])) as (Hvalid & _ & _).
  cbn zeta in Hvalid. rewrite Hvalid. cbn [vr_valid]. split.
  - intros [_ Hall] r v Hr Hv.
    assert (Hb : In (block r) (unique_by String.eqb (map block df_scores))).
    { apply ReferenceProps.unique_by_In; [apply String.eqb_eq|].
      apply in_map, Hr. }
    specialize (Hall _ Hb).
    assert (Hin : In v (Series.dropna (block_scores df_scores (block r))))
      by (apply block_scores_In; eauto).
    destruct (outside expected_range v) eqn:E.
    + assert (Hf : In v (List.filter (outside expected_range)
                           (Series.dropna (block_scores df_scores (block r)))))
        by (apply filter_In; split; assumption).
      rewrite Hall in Hf. destruct Hf.
    + unfold outside in E. apply orb_false_iff in E. destruct E as [E1 E2].
      apply Qlt_bool_false in E1, E2. split; assumption.
  - intro H. split; [reflexivity|]. intros blk _.
    apply ReferenceProps.filter_nil_iff. intros v Hv.
    apply block_scores_In in Hv. destruct Hv as (r & Hr & _ & Hv).
    destruct (H r v Hr Hv) as [H1 H2]. unfold outside.
    apply orb_false_iff. split; apply Qlt_bool_false; assumption.
Qed.

(** The report is valid exactly when the range test flags no score. *)
Lemma validate_scores_flags (df_scores : list block_score)
  (expected_range : Q * Q) :
  vr_valid (validate_scores sqrt df_scores expected_range) = true
  <-> forall r v, In r df_scores -> score_adjusted r = Some v ->
        outside expected_range v = false.
Proof.
  unfold validate_scores.
  destruct (validate_blocks df_scores expected_range
              (unique_by String.eqb (map block df_scores))
              (mk_scores_report true [] [] [])) as (Hvalid & _ & _).
  cbn zeta in Hvalid. rewrite Hvalid. cbn [vr_valid]. split.
  - intros [_ Hall] r v Hr Hv.
    assert (Hb : In (block r) (unique_by String.eqb (map block df_scores))).
    { apply ReferenceProps.unique_by_In; [apply String.eqb_eq|].
      apply in_map, Hr. }
    specialize (Hall _ Hb).
    assert (Hin : In v (Series.dropna (block_scores df_scores (block r))))
      by (apply block_scores_In; eauto).
    destruct (outside expected_range v) eqn:E; [|reflexivity].
    assert (Hf : In v (List.filter (outside expected_range)
                         (Series.dropna (block_scores df_scores (block r)))))
      by (apply filter_In; split; assumption).
    rewrite Hall in Hf. destruct Hf.
  - intro H. split; [reflexivity|]. intros blk _.
    apply ReferenceProps.filter_nil_iff. intros v Hv.
    apply block_scores_In in Hv. destruct Hv as (r & Hr & _ & Hv).
    apply (H r v Hr Hv).
Qed.

Lemma length_flat_map {A B : Type} (f : A -> list B) (l : list A) :
  List.length (flat_map f l) = list_sum (map (fun a => List.length (f a)) l).
Proof.
  induction l as [|a l IH]; [reflexivity|]. cbn.
  rewrite length_app, IH. reflexivity.
Qed.

(** The report accounts for every row once: the statistics list each
    block of the table once, in order of first appearance, and their
    counts together with the null counts are the number of rows. *)
Theorem validate_scores_accounts_for_rows (df_scores : list block_score)
  (expected_range : Q * Q) :
  let report := validate_scores sqrt df_scores expected_range in
  map fst (vr_statistics report) = unique_by String.eqb (map block df_scores)
  /\ (total_nulls report + total_counted report = List.length df_scores)%nat.
Proof.
  cbv zeta. unfold validate_scores.
  destruct (validate_blocks df_scores expected_range
              (unique_by String.eqb (map block df_scores))
              (mk_scores_report true [] [] [])) as (_ & Hsum & Hstats).
  cbn zeta in Hsum, Hstats. rewrite Hsum, Hstats.
  split; [reflexivity|].
  rewrite <- (Permutation_length
                (WinsorizeProps.group_by_unique block String.eqb
                   String.eqb_eq df_scores)).
  rewrite length_flat_map.
  change (total_nulls (mk_scores_report true [] [] [])) with 0%nat.
  change (total_counted (mk_scores_report true [] [] [])) with 0%nat.
  cbn [Nat.add]. f_equal. apply map_ext. intro blk.
  unfold block_scores. apply length_map.
Qed.

End WithSqrt.

(** *** validate_quintile_distribution *)

Lemma not_null_In (quintiles : list (option Z)) (q : Z) :
  In q (not_null quintiles) <-> In (Some q) quintiles.
Proof.
  induction quintiles as [|[x|] l IH]; cbn; [tauto| |].
  - rewrite IH. split; intros [H|H]; auto; [left; congruence|].
    injection H as ->. left. reflexivity.
  - rewrite IH. split; [auto|]. intros [H|H]; [discriminate|exact H].
Qed.

Lemma occurrences_le (q : Z) (values : list Z) :
  (occurrences q values <= List.length values)%nat.
Proof. apply QuintileProps.filter_length_le. Qed.

Lemma occurrences_0 (q : Z) (values : list Z) :
  occurrences q values = 0%nat <-> ~ In q values.
Proof.
  unfold occurrences. induction values as [|x l IH]; cbn; [tauto|].
  destruct (Z.eqb q x) eqn:E; cbn.
  - apply Z.eqb_eq in E. split; [discriminate|]. intro H. exfalso. auto.
  - apply Z.eqb_neq in E. rewrite IH. split; [|tauto].
    intros H [Hx|Hx]; [congruence|auto].
Qed.

(** The share of a quintile is 0 when it does not occur, and the fraction
    of its occurrences otherwise, which is positive. *)
Lemma share_cases (quintiles : list (option Z)) (q : Z) :
  let k := occurrences q (not_null quintiles) in
  let n := List.length (not_null quintiles) in
  (k = 0%nat /\ share quintiles q = 0)
  \/ ((0 < k <= n)%nat
      /\ share quintiles q = inject_Z (Z.of_nat k) / inject_Z (Z.of_nat n)).
Proof.
  cbn zeta. unfold share.
  destruct (occurrences q (not_null quintiles) =? 0)%nat eqn:E.
  - left. apply Nat.eqb_eq in E. split; [exact E|reflexivity].
  - right. apply Nat.eqb_neq in E. split; [|reflexivity].
    pose proof (occurrences_le q (not_null quintiles)). lia.
Qed.

Lemma fraction_pos (k n : nat) :
  (0 < k <= n)%nat ->
  0 < inject_Z (Z.of_nat k) / inject_Z (Z.of_nat n)
  /\ inject_Z (Z.of_nat k) / inject_Z (Z.of_nat n) <= 1.
Proof.
  intros [Hk Hn].
  assert (Hk' : 0 < inject_Z (Z.of_nat k))
    by (change 0 with (inject_Z 0); rewrite <- Zlt_Qlt; lia).
  assert (Hn' : 0 < inject_Z (Z.of_nat n))
    by (change 0 with (inject_Z 0); rewrite <- Zlt_Qlt; lia).
  assert (Hle : inject_Z (Z.of_nat k) <= inject_Z (Z.of_nat n))
    by (rewrite <- Zle_Qle; lia).
  split.
  - apply Qlt_shift_div_l; [exact Hn'|]. lra.
  - apply Qle_shift_div_r; [exact Hn'|]. lra.
Qed.

(** With a [quintile] column the report is valid whatever the
    distribution, even when every quintile is null: an uneven distribution
    only earns warnings, one for each of the quintiles 1 to 5 whose share
    differs from the expected one by more than the tolerance.  A share is
    between 0 and 1, it is 0 exactly for a quintile that does not occur,
    and a quintile that occurs less often has no larger share. *)
Theorem validate_quintile_distribution_shares (quintiles : list (option Z))
  (expected_pct tolerance : Q) :
  let report :=
    validate_quintile_distribution (Some quintiles) expected_pct tolerance in
  qr_valid report = true
  /\ qr_distribution report
     = map (fun lq => (fst lq, share quintiles (snd lq))) quintile_labels
  /\ qr_warnings report
     = map (fun lq => OffTarget (snd lq) (share quintiles (snd lq)))
         (List.filter
            (fun lq => Qlt_bool tolerance
                         (Qabs (share quintiles (snd lq) - expected_pct)))
            quintile_labels)
  /\ (forall q, 0 <= share quintiles q /\ share quintiles q <= 1)
  /\ (forall q, share quintiles q == 0 <-> ~ In (Some q) quintiles)
  /\ (forall q q',
        (occurrences q (not_null quintiles)
         <= occurrences q' (not_null quintiles))%nat ->
        share quintiles q <= share quintiles q').
Proof.
  cbv zeta. unfold validate_quintile_distribution.
  cbn [qr_valid qr_distribution qr_warnings].
  split; [reflexivity|]. split; [rewrite map_map; reflexivity|].
  split; [|split; [|split]].
  - generalize quintile_labels. intro labels.
    induction labels as [|lq labels IH]; [reflexivity|].
    cbn [map List.filter fst snd].
    destruct (Qlt_bool _ _); cbn [map fst snd]; rewrite IH; reflexivity.
  - intro q. destruct (share_cases quintiles q) as [[_ ->]|[Hk ->]].
    + split; discriminate.
    + destruct (fraction_pos _ _ Hk). split; [apply Qlt_le_weak|]; assumption.
  - intro q. rewrite <- not_null_In, <- occurrences_0.
    destruct (share_cases quintiles q) as [[Hk ->]|[Hk ->]].
    + split; [intros _; exact Hk|reflexivity].
    + destruct (fraction_pos _ _ Hk) as [Hpos _]. split.
      * intro H. rewrite H in Hpos. discriminate.
      * intro H. lia.
  - intros q q' Hle.
    destruct (share_cases quintiles q) as [[Hk ->]|[Hk ->]].
    + destruct (share_cases quintiles q') as [[_ ->]|[Hk' ->]];
        [apply Qle_refl|].
      destruct (fraction_pos _ _ Hk'). apply Qlt_le_weak. assumption.
    + destruct (share_cases quintiles q') as [[Hk' _]|[Hk' ->]]; [lia|].
      apply Qmult_le_compat_r.
      * rewrite <- Zle_Qle. lia.
      * apply Qlt_le_weak, Qinv_lt_0_compat.
        change 0 with (inject_Z 0). rewrite <- Zlt_Qlt. lia.
Qed.

(** A column of null quintiles only: the five shares are 0, the report
    is valid, and each quintile earns a warning. *)
Example validate_quintile_distribution_all_null :
  validate_quintile_distribution (Some [None; None; None]) 0.20 0.10
  = mk_quintile_report true
      [("Q1"%string, 0); ("Q2"%string, 0); ("Q3"%string, 0);
       ("Q4"%string, 0); ("Q5"%string, 0)]
      [OffTarget 1 0; OffTarget 2 0; OffTarget 3 0; OffTarget 4 0;
       OffTarget 5 0].
Proof. vm_compute. reflexivity. Qed.

End ValidatorProps.

(** ** The normalization and aggregation layers together *)

Module PipelineProps.

Import Normalizer Aggregator ReferenceSpec RowsSpec ScoreSpec TableSpec
  Validator Cli PipelineSpec Models.

Lemma apply_risk_penalties_empty score ticker date cfg block :
  apply_risk_penalties score ticker date empty_risk cfg block = Ok (score, []).
Proof. destruct score; reflexivity. Qed.

Lemma compute_all_scores_empty_risk df_signals cfg :
  compute_all_scores df_signals empty_risk cfg
  = Ok (flat_map (unadjusted_rows df_signals cfg) (ticker_dates df_signals)).
Proof.
  unfold compute_all_scores. fold (ticker_dates df_signals).
  rewrite (RowsProps.for_each_total _ (unadjusted_rows df_signals cfg)).
  - cbn [mbind result_bind bind]. rewrite RowsProps.concat_map_flat_map.
    reflexivity.
  - intros td _. unfold score_rows. rewrite !apply_risk_penalties_empty.
    reflexivity.
Qed.

Lemma unadjusted_rows_In df_signals cfg pairs row :
  In row (flat_map (unadjusted_rows df_signals cfg) pairs) ->
  score_adjusted row = score_raw row
  /\ In (bs_ticker row, bs_date row) pairs
  /\ (score_raw row
      = compute_contrarian_score df_signals (bs_ticker row) (bs_date row) cfg
      \/ score_raw row
         = compute_turnaround_score df_signals (bs_ticker row) (bs_date row) cfg
      \/ score_raw row
         = compute_piotroski_score df_signals (bs_ticker row) (bs_date row) cfg
      \/ score_raw row
         = compute_quality_score df_signals (bs_ticker row) (bs_date row) cfg).
Proof.
  intro Hin. apply in_flat_map in Hin. destruct Hin as ([t d] & Htd & Hin).
  cbn in Hin.
  destruct Hin as [<-|[<-|[<-|[<-|[]]]]]; cbn; auto 10.
Qed.

Lemma unique_by_perm_length {A : Type} (eqb : A -> A -> bool) (l l' : list A) :
  (forall a b, eqb a b = true <-> a = b) ->
  Permutation l l' ->
  List.length (unique_by eqb l) = List.length (unique_by eqb l').
Proof.
  intros Heqb Hp. apply Permutation_length, NoDup_Permutation.
  - apply ReferenceProps.unique_by_NoDup, Heqb.
  - apply ReferenceProps.unique_by_NoDup, Heqb.
  - intro x. rewrite !(ReferenceProps.unique_by_In eqb _ x Heqb).
    split; apply Permutation_in; [exact Hp|apply Permutation_sym, Hp].
Qed.

Section WithLibm.

Variable norm_cdf : Q -> Q.
Variable sqrt : Q -> Q.

(** The layers one by one: the normalized table holds the raw rows,
    the score table has the four unadjusted rows of every (ticker, date),
    and each row gets the quintile of its (date, ticker) in the contrarian
    block. *)
Lemma scoring_layers_tables (df_signals : list raw_signal) (cfg : config) :
  valid_percentiles (configured_percentiles cfg) ->
  df_signals <> [] ->
  exists df_normalized,
    normalize_all_signals norm_cdf sqrt df_signals cfg = Ok df_normalized
    /\ Permutation (map raw_of df_normalized) df_signals
    /\ let df_scores :=
         flat_map (unadjusted_rows df_normalized cfg)
           (ticker_dates df_normalized) in
       scoring_layers norm_cdf sqrt df_signals cfg
       = Ok (map (fun row =>
                    mk_ranked row
                      (reference_quintile sqrt df_scores "contrarian"
                         (bs_date row) (bs_ticker row)))
               df_scores).
Proof.
  intros Hpct Hne.
  destruct (WinsorizeProps.normalize_all_signals_by_name norm_cdf sqrt
              df_signals cfg Hpct) as (df_normalized & Hnorm & Hperm).
  assert (Hrows : Permutation (map raw_of df_normalized) df_signals).
  { rewrite Hperm. unfold signal_rows.
    apply (WinsorizeProps.group_by_unique rs_signal_name String.eqb
             String.eqb_eq). }
  exists df_normalized. split; [exact Hnorm|]. split; [exact Hrows|].
  cbv zeta. unfold scoring_layers. rewrite Hnorm.
  cbn [mbind result_bind bind]. rewrite compute_all_scores_empty_risk.
  cbn [mbind result_bind bind].
  set (df_scores := flat_map _ (ticker_dates df_normalized)).
  assert (Hscores : compute_all_scores df_normalized empty_risk cfg
                    = Ok df_scores) by apply compute_all_scores_empty_risk.
  assert (Hb : In "contrarian"%string block_names) by (left; reflexivity).
  assert (Hkeys := ReferenceProps.compute_all_scores_reference _ _ _ _ _
                     Hscores Hb).
  apply ReferenceProps.add_quintiles_map.
  - intro Hnil. rewrite Hnil in Hkeys.
    assert (Hn : df_normalized <> []).
    { intro E. rewrite E in Hrows. apply Permutation_nil in Hrows.
      congruence. }
    destruct df_normalized as [|r l]; [congruence|].
    unfold ticker_dates in Hkeys. cbn in Hkeys. discriminate.
  - rewrite Hkeys. apply ReferenceProps.NoDup_map_injective.
    + intros [s d] [s' d'] H. cbn in H. congruence.
    + apply ReferenceProps.unique_by_NoDup, ReferenceProps.pair_eqb_eq.
Qed.

(** On a raw table that has a row, and with the configured percentiles in
    [0, 1], the three layers raise nothing: the table returned has four rows
    for every distinct (ticker, date) of the raw signals, and, the risk
    table being empty, every adjusted score is the raw score, whatever
    penalty rules are configured. *)
Theorem scoring_layers_scores (df_signals : list raw_signal) (cfg : config) :
  valid_percentiles (configured_percentiles cfg) ->
  df_signals <> [] ->
  exists df_scores,
    scoring_layers norm_cdf sqrt df_signals cfg = Ok df_scores
    /\ List.length df_scores
       = (4 * List.length (raw_ticker_dates df_signals))%nat
    /\ (forall r, In r df_scores ->
          score_adjusted (scored r) = score_raw (scored r)
          /\ In (bs_ticker (scored r), bs_date (scored r))
               (raw_ticker_dates df_signals)).
Proof.
  intros Hpct Hne.
  destruct (scoring_layers_tables df_signals cfg Hpct Hne)
    as (df_normalized & _ & Hrows & Hrun).
  cbv zeta in Hrun. eexists. split; [exact Hrun|].
  assert (Hpairs : Permutation
                     (map (fun r => (ticker r, date r)) df_normalized)
                     (map (fun r => (rs_ticker r, rs_date r)) df_signals)).
  { rewrite <- (Permutation_map (fun r => (rs_ticker r, rs_date r)) Hrows).
    rewrite map_map. reflexivity. }
  split.
  - rewrite length_map, ValidatorProps.length_flat_map.
    unfold raw_ticker_dates, ticker_dates.
    rewrite <- (unique_by_perm_length pair_eqb _ _ ReferenceProps.pair_eqb_eq
                  Hpairs).
    generalize (unique_by pair_eqb
                  (map (fun r => (ticker r, date r)) df_normalized)).
    intro pairs. induction pairs as [|td pairs IH]; [reflexivity|].
    cbn [map list_sum fold_right List.length unadjusted_rows] in *.
    unfold list_sum in IH. rewrite IH. lia.
  - intros r Hr. apply in_map_iff in Hr. destruct Hr as (row & <- & Hrow).
    cbn [scored]. apply unadjusted_rows_In in Hrow.
    destruct Hrow as (Hadj & Hpair & _). split; [exact Hadj|].
    unfold raw_ticker_dates. unfold ticker_dates in Hpair.
    apply ReferenceProps.unique_by_In; [apply ReferenceProps.pair_eqb_eq|].
    apply ReferenceProps.unique_by_In in Hpair;
      [|apply ReferenceProps.pair_eqb_eq].
    apply (Permutation_in _ Hpairs Hpair).
Qed.

(** The scores of the unadjusted rows are not negative, given normalized
    values that are not negative, no negative weight and F-scores that are
    not negative. *)
Lemma unadjusted_rows_not_negative (df_normalized : list normalized_signal)
  (cfg : config) (pairs : list (string * Z)) (row : block_score) (v : Q) :
  normalized_in_range df_normalized ->
  piotroski_in_range df_normalized ->
  weights_nonneg cfg ->
  In row (flat_map (unadjusted_rows df_normalized cfg) pairs) ->
  score_adjusted row = Some v -> 0 <= v.
Proof.
  intros Hrange Hpio (Hc & Ht & Hq) Hr Hv.
  apply unadjusted_rows_In in Hr.
  destruct Hr as (Hadj & _ & Hblock). rewrite Hadj in Hv.
  destruct Hblock as [H|[H|[H|H]]]; rewrite H in Hv.
  - unfold compute_contrarian_score in Hv.
    apply (AggregateProps.aggregate_weighted_bounds df_normalized _ _ _ v
             Hrange (ScoreProps.weights_of_nonneg _ Hc) Hv).
  - unfold compute_turnaround_score in Hv.
    apply (AggregateProps.aggregate_weighted_bounds df_normalized _ _ _ v
             Hrange (ScoreProps.weights_of_nonneg _ Ht) Hv).
  - destruct (TableProps.compute_piotroski_score_cases _ _ _ _ _ Hv)
      as (r0 & Hin & Hname & [(x & Hx & ->)|Hn]).
    + destruct (Hpio r0 x Hin Hname Hx) as [H0 _].
      apply Qmult_le_0_compat; [|discriminate].
      apply Qle_shift_div_l; [reflexivity|]. lra.
    + apply (Hrange r0 v Hin Hn).
  - apply (ScoreProps.compute_quality_score_bounds df_normalized _ _ cfg v
             Hrange Hq Hv).
Qed.

(** The two validations [run_full_pipeline] runs next, on the table of the
    layers.  With [norm_cdf] between 0 and 1, no negative weight configured
    and F-scores between 0 and 9, no score of the table is negative, so
    [validate_scores] with the range [0, 100] reports the table valid
    exactly when no score exceeds 100; and the table has its quintile
    column, so [validate_quintile_distribution] reports it valid. *)
Theorem scoring_layers_validate (df_signals : list raw_signal)
  (cfg : config) :
  (forall z, 0 <= norm_cdf z /\ norm_cdf z <= 1) ->
  weights_nonneg cfg ->
  raw_piotroski_in_range df_signals ->
  valid_percentiles (configured_percentiles cfg) ->
  df_signals <> [] ->
  exists df_scores,
    scoring_layers norm_cdf sqrt df_signals cfg = Ok df_scores
    /\ (forall r v, In r df_scores -> score_adjusted (scored r) = Some v ->
          0 <= v)
    /\ (vr_valid (validate_scores sqrt (map scored df_scores) (0, 100)) = true
        <-> forall r v, In r df_scores -> score_adjusted (scored r) = Some v ->
              v <= 100)
    /\ qr_valid (validate_quintile_distribution
                   (Some (map quintile df_scores)) 0.20 0.10) = true.
Proof.
  intros Hcdf Hweights Hraw Hpct Hne.
  destruct (scoring_layers_tables df_signals cfg Hpct Hne)
    as (df_normalized & Hnorm & Hrows & Hrun).
  cbv zeta in Hrun. eexists. split; [exact Hrun|].
  assert (Hrange : normalized_in_range df_normalized).
  { intros r v Hr Hv.
    apply (NormalizerProps.normalize_all_signals_range norm_cdf sqrt Hcdf
             df_signals cfg df_normalized r v Hnorm Hr Hv). }
  assert (Hpio : piotroski_in_range df_normalized).
  { intros r x Hr Hname Hx.
    assert (Hin : In (raw_of r) df_signals)
      by (apply (Permutation_in _ Hrows), in_map, Hr).
    apply (Hraw (raw_of r) x Hin); assumption. }
  set (df_scores := flat_map _ (ticker_dates df_normalized)).
  assert (Hlow : forall row v, In row df_scores ->
                               score_adjusted row = Some v -> 0 <= v).
  { intros row v Hr Hv.
    apply (unadjusted_rows_not_negative df_normalized cfg _ row v
             Hrange Hpio Hweights Hr Hv). }
  split; [|split; [|reflexivity]].
  - intros r v Hr Hv. apply in_map_iff in Hr.
    destruct Hr as (row & <- & Hrow). cbn [scored] in Hv.
    apply (Hlow row v Hrow Hv).
  - rewrite map_map. cbn [scored]. rewrite map_id.
    rewrite ValidatorProps.validate_scores_flags. split.
    + intros H r v Hr Hv. apply in_map_iff in Hr.
      destruct Hr as (row & <- & Hrow). cbn [scored] in Hv.
      specialize (H row v Hrow Hv). unfold outside in H.
      apply orb_false_iff in H. destruct H as [_ H].
      apply Qlt_bool_false in H. exact H.
    + intros H row v Hrow Hv. unfold outside. cbn [fst snd].
      apply orb_false_iff. split; apply Qlt_bool_false.
      * apply (Hlow row v Hrow Hv).
      * apply (H (mk_ranked row
                    (ReferenceSpec.reference_quintile sqrt df_scores
                       "contrarian" (bs_date row) (bs_ticker row))) v).
        -- apply in_map_iff. exists row. split; [reflexivity|exact Hrow].
        -- exact Hv.
Qed.

End WithLibm.

Lemma scoring_layers_scores_witness :
  exists df_scores,
    scoring_layers cdf_model sqrt_model raw_example quality_config
    = Ok df_scores
    /\ List.length df_scores = (4 * List.length (raw_ticker_dates raw_example))%nat
    /\ (forall r, In r df_scores ->
          score_adjusted (scored r) = score_raw (scored r)
          /\ In (bs_ticker (scored r), bs_date (scored r))
               (raw_ticker_dates raw_example)).
Proof.
  apply (scoring_layers_scores cdf_model sqrt_model raw_example
           quality_config).
  - unfold valid_percentiles. cbn. lra.
  - discriminate.
Defined.

Lemma raw_example_piotroski : raw_piotroski_in_range raw_example.
Proof.
  intros r x Hin Hname Hx. cbn in Hin.
  repeat (destruct Hin as [<-|Hin];
          [cbn in Hname, Hx; try discriminate; injection Hx as <-;
           split; discriminate|]).
  destruct Hin.
Qed.

Lemma scoring_layers_validate_witness :
  exists df_scores,
    scoring_layers cdf_model sqrt_model raw_example quality_config
    = Ok df_scores
    /\ (forall r v, In r df_scores -> score_adjusted (scored r) = Some v ->
          0 <= v)
    /\ (vr_valid (validate_scores sqrt_model (map scored df_scores) (0, 100))
        = true
        <-> forall r v, In r df_scores -> score_adjusted (scored r) = Some v ->
              v <= 100)
    /\ qr_valid (validate_quintile_distribution
                   (Some (map quintile df_scores)) 0.20 0.10) = true.
Proof.
  apply (scoring_layers_validate cdf_model sqrt_model raw_example
           quality_config NormalizerProps.cdf_model_range
           ScoreProps.quality_config_nonneg raw_example_piotroski).
  - unfold valid_percentiles. cbn. lra.
  - discriminate.
Defined.

End PipelineProps.

(** ** The sibling normalizations and their neutral fallback *)

Module SiblingProps.

Import NormalizerSpec Models.

Lemma clip_0_100 (s : list (option Q)) (v : Q) :
  In (Some v) (Series.clip s (Some 0) (Some 100)) ->
  exists x, In (Some x) s /\ v = Qmax (Qmin 0 100) (Qmin x (Qmax 0 100))
            /\ 0 <= v /\ v <= 100.
Proof.
  unfold Series.clip. intro Hin. apply in_map_iff in Hin.
  destruct Hin as ([x|] & Hv & Hx); [|discriminate].
  cbn in Hv. injection Hv as <-. exists x. split; [exact Hx|].
  split; [reflexivity|].
  assert (Hmin : Qmin 0 100 == 0) by (apply Q.min_l; discriminate).
  assert (Hmax : Qmax 0 100 == 100) by (apply Q.max_r; discriminate).
  rewrite Hmin, Hmax. split.
  - apply Q.le_max_l.
  - apply Q.max_lub; [discriminate|apply Q.le_min_r].
Qed.

Lemma neutral_In (series : list (option Q)) (v : option Q) :
  In v (QualityScoreCorrect.neutral series) -> v = Some 50.
Proof.
  unfold QualityScoreCorrect.neutral. intro H. apply in_map_iff in H.
  destruct H as (x & <- & _). reflexivity.
Qed.

(** [zscore_normalize] of quality_score_correct.py: with fewer than three
    valid values, and with a zero or NaN standard deviation, every entry
    is the neutral 50, the NaN ones too.  In every case the length of the
    series is kept and the values are within [0, 100]; for a winsorization
    bound [w] that is not negative they are within [50 - 10 w, 50 + 10 w]:
    within [20, 80] for the bound 3 the file calls it with. *)
Theorem zscore_normalize_neutral_or_bounded (sqrt : Q -> Q)
  (series : list (option Q)) (winsorize_std : Q) :
  let out := QualityScoreCorrect.zscore_normalize sqrt series winsorize_std in
  ((List.length (Series.dropna series) < 3)%nat
   \/ QualityScoreCorrect.degenerate (Series.std sqrt series) = true ->
   out = map (fun _ => Some 50) series)
  /\ List.length out = List.length series
  /\ (forall v, In (Some v) out ->
        0 <= v /\ v <= 100
        /\ (0 <= winsorize_std ->
            50 - 10 * winsorize_std <= v /\ v <= 50 + 10 * winsorize_std)).
Proof.
  cbv zeta. unfold QualityScoreCorrect.zscore_normalize.
  assert (Hneutral : forall v,
             In (Some v) (QualityScoreCorrect.neutral series) ->
             0 <= v /\ v <= 100
             /\ (0 <= winsorize_std ->
                 50 - 10 * winsorize_std <= v /\ v <= 50 + 10 * winsorize_std)).
  { intros v Hv. apply neutral_In in Hv. injection Hv as ->.
    split; [discriminate|]. split; [discriminate|]. intro Hw. split; lra. }
  destruct (List.length (Series.dropna series) <? 3)%nat eqn:Elen.
  - split; [reflexivity|]. split; [apply length_map|exact Hneutral].
  - destruct (QualityScoreCorrect.degenerate (Series.std sqrt series)) eqn:Edeg.
    + split; [reflexivity|]. split; [apply length_map|exact Hneutral].
    + split.
      * intros [Hlt|Hd]; [|discriminate].
        apply Nat.ltb_ge in Elen. lia.
      * split.
        -- rewrite RowsProps.clip_length, length_map, RowsProps.clip_length.
           unfold Series.div, Series.sub. rewrite !length_map. reflexivity.
        -- intros v Hv. apply clip_0_100 in Hv.
           destruct Hv as (x & Hx & Hvx & H0 & H100).
           split; [exact H0|]. split; [exact H100|]. intro Hw.
           apply in_map_iff in Hx. destruct Hx as ([z|] & Hz & Hin);
             [|discriminate].
           cbn in Hz. injection Hz as <-.
           unfold Series.clip in Hin. apply in_map_iff in Hin.
           destruct Hin as ([z0|] & Hz0 & _); [|discriminate].
           cbn in Hz0. injection Hz0 as <-.
           assert (Hmin : Qmin (- winsorize_std) winsorize_std
                          == - winsorize_std) by (apply Q.min_l; lra).
           assert (Hmax : Qmax (- winsorize_std) winsorize_std
                          == winsorize_std) by (apply Q.max_r; lra).
           set (z := Qmax (Qmin (- winsorize_std) winsorize_std)
                       (Qmin z0 (Qmax (- winsorize_std) winsorize_std))) in *.
           assert (Hz : - winsorize_std <= z /\ z <= winsorize_std).
           { unfold z. rewrite Hmin, Hmax. split.
             - apply Q.le_max_l.
             - apply Q.max_lub; [lra|apply Q.le_min_r]. }
           assert (Hmin' : Qmin 0 100 == 0) by (apply Q.min_l; discriminate).
           assert (Hmax' : Qmax 0 100 == 100) by (apply Q.max_r; discriminate).
           rewrite Hvx, Hmin', Hmax'. destruct Hz as [Hz1 Hz2]. split.
           ++ apply Qle_trans with (Qmin (50 + z * 10) 100);
                [apply Q.min_glb; lra|apply Q.le_max_r].
           ++ apply Q.max_lub; [lra|].
              apply Qle_trans with (50 + z * 10); [apply Q.le_min_l|lra].
Qed.

(** *** institutional_scoring_engine.py *)

(** Clipping keeps the valid values valid: the standard deviation of a
    clipped series with fewer than two valid values is NaN. *)
Lemma std_few_values (sqrt : Q -> Q) (s : list (option Q))
  (lower upper : option Q) :
  (List.length (Series.dropna s) < 2)%nat ->
  Series.std sqrt (Series.clip s lower upper) = None.
Proof.
  intro Hlen.
  destruct (OrderProps.clip_as_map s lower upper) as (f & -> & _).
  unfold Series.std. rewrite NormalizerProps.dropna_map.
  destruct (Series.dropna s) as [|x [|y v]]; cbn in Hlen |- *;
    [reflexivity|reflexivity|lia].
Qed.

(** [zscore_normalize] of institutional_scoring_engine.py, when it raises
    nothing: the length of the series is kept and every value is within
    [0, 100]; when the standard deviation it computes of the winsorized
    series is 0 or NaN, every entry becomes the neutral 50, the NaN ones
    too; and the standard deviation is NaN for a series with fewer than two
    valid values. *)
Theorem institutional_zscore_normalize_neutral_or_bounded (sqrt : Q -> Q)
  (series out : list (option Q)) (winsorize_pct : Q * Q) :
  Institutional.zscore_normalize sqrt series winsorize_pct = Ok out ->
  List.length out = List.length series
  /\ (forall v, In (Some v) out -> 0 <= v /\ v <= 100)
  /\ (forall winsorized,
        Institutional.winsorize series (fst winsorize_pct) (snd winsorize_pct)
        = Ok winsorized ->
        QualityScoreCorrect.degenerate (Series.std sqrt winsorized) = true ->
        out = map (fun _ => Some 50) series)
  /\ ((List.length (Series.dropna series) < 2)%nat ->
      out = map (fun _ => Some 50) series).
Proof.
  unfold Institutional.zscore_normalize, Institutional.winsorize. intro H.
  destruct (Series.quantile series (fst winsorize_pct)) as [lower|e] eqn:Hlow;
    cbn [mbind result_bind bind] in H |- *; [|discriminate].
  destruct (Series.quantile series (snd winsorize_pct)) as [upper|e] eqn:Hhigh;
    cbn [mbind result_bind bind] in H |- *; [|discriminate].
  cbv zeta in H. set (winsorized := Series.clip series lower upper) in *.
  destruct (QualityScoreCorrect.degenerate (Series.std sqrt winsorized)) eqn:Edeg.
  - injection H as <-. split; [apply length_map|].
    split; [|split; reflexivity].
    intros v Hv. apply neutral_In in Hv. injection Hv as ->.
    split; discriminate.
  - injection H as <-. split; [|split; [|split]].
    + rewrite !length_map.
      unfold Series.div, Series.sub. rewrite !length_map.
      apply RowsProps.clip_length.
    + intros v Hv. apply clip_0_100 in Hv. destruct Hv as (x & _ & _ & Hv).
      exact Hv.
    + intros w Hw Hdeg. injection Hw as <-. fold winsorized in Hdeg.
      congruence.
    + intro Hlen. exfalso.
      assert (Hstd := std_few_values sqrt series lower upper Hlen).
      fold winsorized in Hstd. rewrite Hstd in Edeg. discriminate.
Qed.

Lemma institutional_zscore_normalize_neutral_or_bounded_witness :
  let series := [None; Some 7; None] in
  let out := [Some 50; Some 50; Some 50] in
  List.length out = List.length series
  /\ (forall v, In (Some v) out -> 0 <= v /\ v <= 100)
  /\ (forall winsorized,
        Institutional.winsorize series (fst (0.05, 0.95)) (snd (0.05, 0.95))
        = Ok winsorized ->
        QualityScoreCorrect.degenerate (Series.std sqrt_model winsorized) = true ->
        out = map (fun _ => Some 50) series)
  /\ ((List.length (Series.dropna series) < 2)%nat ->
      out = map (fun _ => Some 50) series).
Proof.
  intros series out.
  apply (institutional_zscore_normalize_neutral_or_bounded sqrt_model series
           out (0.05, 0.95)).
  vm_compute. reflexivity.
Defined.

(** A series that varies is spread around 50: with the stand-in for
    [sqrt], the values 1, 2, 3 become about 33.33, 50 and 66.67. *)
Example institutional_zscore_normalize_spread :
  match Institutional.zscore_normalize sqrt_model [Some 1; Some 2; Some 3]
          (0, 1) with
  | Ok out => map (option_map (fun v => Qle_bool 33 v && Qle_bool v 67)) out
  | Raise _ => []
  end = [Some true; Some true; Some true].
Proof. vm_compute. reflexivity. Qed.

End SiblingProps.

(** ** Versions on disk, and the comparison with a baseline *)

Module StoreProps.

Import Aggregator Governance Regression Models.

Lemma list_ascii_append (s1 s2 : string) :
  list_ascii_of_string (s1 +:+ s2)
  = (list_ascii_of_string s1 ++ list_ascii_of_string s2)%list.
Proof.
  induction s1 as [|a s1 IH]; [reflexivity|].
  change (a :: list_ascii_of_string (s1 +:+ s2)
          = (a :: list_ascii_of_string s1 ++ list_ascii_of_string s2)%list).
  rewrite IH. reflexivity.
Qed.

(** A file name determines the identifier it was made of. *)
Lemma append_inj_r (s1 s2 t : string) : s1 +:+ t = s2 +:+ t -> s1 = s2.
Proof.
  intro H. apply (f_equal list_ascii_of_string) in H.
  rewrite !list_ascii_append in H. apply app_inv_tail in H.
  rewrite <- (string_of_list_ascii_of_string s1),
    <- (string_of_list_ascii_of_string s2), H.
  reflexivity.
Qed.

Section WithCodecs.

Variable float_repr : Q -> string.
Variable encode_string : string -> string.
Variable sha256_hexdigest : string -> string.

(** Saving a version writes one file and touches no other: every other
    version identifier loads as it did before, or is still missing.  Both
    identifiers are plain file names, so that different identifiers are
    different files of the directory. *)
Theorem save_version_keeps_other_versions (version_dir : gmap string json)
  (timestamp : string) (config : Versions.value) (version_name : option string)
  (metadata : option Versions.value) (version_id : string)
  (version_dir' : gmap string json) (other : string) :
  Versions.save_version float_repr encode_string sha256_hexdigest version_dir
    timestamp config version_name metadata = Ok (version_id, version_dir') ->
  Versions.plain version_id = true -> Versions.plain other = true ->
  other <> version_id ->
  Versions.load_version version_dir' other
  = Versions.load_version version_dir other.
Proof.
  unfold Versions.save_version.
  destruct (Versions.compute_config_hash _ _ _ config) as [config_hash|e];
    cbn [mbind result_bind bind]; [|discriminate].
  intros H _ _ Hne. injection H as Hid <-. unfold Versions.load_version.
  rewrite lookup_insert_ne; [reflexivity|].
  intro E. apply append_inj_r in E. congruence.
Qed.

End WithCodecs.

(** A version saved next to the one the directory holds: the earlier one
    loads as before. *)
Lemma save_version_keeps_other_versions_witness :
  Versions.load_version
    (<["v1_20240101_093000_abc.json"%string :=
         Versions.json_dump float_repr_model
           (Versions.PDict
              [(Versions.KStr "version_id",
                Versions.PStr "v1_20240101_093000_abc");
               (Versions.KStr "config_hash", Versions.PStr "abc");
               (Versions.KStr "timestamp", Versions.PStr "20240101_093000");
               (Versions.KStr "config", Versions.config_example);
               (Versions.KStr "metadata", Versions.PDict [])])]>
       Versions.one_version)
    "20231231_235959_abc"
  = Versions.load_version Versions.one_version "20231231_235959_abc".
Proof.
  apply (save_version_keeps_other_versions float_repr_model
           encode_string_model (fun _ => "abc"%string) Versions.one_version
           "20240101_093000" Versions.config_example (Some "v1"%string) None
           "v1_20240101_093000_abc").
  - reflexivity.
  - reflexivity.
  - reflexivity.
  - discriminate.
Defined.

(** The version the directory held before is still there, with its
    configuration. *)
Example earlier_version_still_loads :
  match Versions.load_version Versions.one_version "20231231_235959_abc" with
  | Ok doc => Versions.getitem doc "config"
  | Raise _ => None
  end = Some (Versions.PDict [(Versions.KStr "x", Versions.PInt 1)]).
Proof. vm_compute. reflexivity. Qed.

(** *** compare_to_baseline *)

Lemma same_key_eq (a b : ranked_score) :
  same_key a b = true <-> merge_key a = merge_key b.
Proof.
  unfold same_key, merge_key.
  rewrite !andb_true_iff, !String.eqb_eq, Z.eqb_eq. split.
  - intros [[-> ->] ->]. reflexivity.
  - intro H. injection H as -> -> ->. auto.
Qed.

Lemma merge_In (df_scores baseline : list ranked_score)
  (pair : ranked_score * ranked_score) :
  In pair (merge df_scores baseline)
  <-> In (fst pair) df_scores /\ In (snd pair) baseline
      /\ merge_key (fst pair) = merge_key (snd pair).
Proof.
  unfold merge. rewrite in_flat_map. split.
  - intros (new & Hnew & Hin). apply in_map_iff in Hin.
    destruct Hin as (old & <- & Hold). apply filter_In in Hold.
    destruct Hold as [Hold Hkey]. apply same_key_eq in Hkey. cbn. auto.
  - intros (Hnew & Hold & Hkey). exists (fst pair). split; [exact Hnew|].
    apply in_map_iff. exists (snd pair).
    split; [destruct pair; reflexivity|].
    apply filter_In. split; [exact Hold|apply same_key_eq, Hkey].
Qed.

Lemma filter_exclusive_length {A : Type} (p q : A -> bool) (l : list A) :
  (forall a, In a l -> p a = true -> q a = false) ->
  (List.length (List.filter p l) + List.length (List.filter q l)
   <= List.length l)%nat.
Proof.
  induction l as [|a l IH]; intro H; [cbn; lia|].
  assert (IH' := IH (fun b Hb => H b (or_intror Hb))). cbn.
  destruct (p a) eqn:Hp.
  - rewrite (H a (or_introl eq_refl) Hp). cbn. lia.
  - destruct (q a); cbn; lia.
Qed.

Lemma NoDup_map_In_eq {A B : Type} (f : A -> B) (l : list A) (a b : A) :
  NoDup (map f l) -> In a l -> In b l -> f a = f b -> a = b.
Proof.
  induction l as [|x l IH]; intros Hnd Ha Hb Hf; [destruct Ha|].
  cbn in Hnd. apply NoDup_cons_iff in Hnd. destruct Hnd as [Hx Hnd].
  destruct Ha as [->|Ha], Hb as [->|Hb].
  - reflexivity.
  - exfalso. apply Hx. rewrite Hf. apply in_map, Hb.
  - exfalso. apply Hx. rewrite <- Hf. apply in_map, Ha.
  - apply IH; assumption.
Qed.

Lemma list_sum_ones {A : Type} (h : A -> nat) (l : list A) :
  (forall a, In a l -> h a = 1%nat) -> list_sum (map h l) = List.length l.
Proof.
  induction l as [|a l IH]; intro H; [reflexivity|].
  cbn [map list_sum fold_right List.length].
  rewrite (H a (or_introl eq_refl)). fold (list_sum (map h l)).
  rewrite IH; [reflexivity|]. intros b Hb. apply H. right. exact Hb.
Qed.

Section WithParquet.

Variable sqrt : Q -> Q.
Variable file : Type.
Variable read_parquet : file -> list ranked_score.

(** With a baseline file and a tolerance that is not negative, the report
    counts what it lists, no comparison is both a regression and an
    improvement, a regression is a score that fell by more than the
    tolerance, and comparing a table that has each (ticker, date, block)
    once with a baseline equal to it reports neither. *)
Theorem compare_to_baseline_report (baseline_dir : gmap string file)
  (df_scores : list ranked_score) (baseline_version : string)
  (tolerance : Q) (f : file) :
  0 <= tolerance ->
  baseline_dir !! baseline_file baseline_version = Some f ->
  exists regressions improvements statistics,
    compare_to_baseline sqrt file read_parquet baseline_dir df_scores
      baseline_version tolerance
    = Comparison baseline_version regressions improvements statistics
    /\ List.length regressions = regressions_count statistics
    /\ List.length improvements = improvements_count statistics
    /\ (regressions_count statistics + improvements_count statistics
        <= total_comparisons statistics)%nat
    /\ (forall e, In e regressions ->
          exists old new, ch_old_score e = Some old /\ ch_new_score e = Some new
                          /\ new < old - tolerance)
    /\ (read_parquet f = df_scores -> NoDup (map merge_key df_scores) ->
        regressions = [] /\ improvements = []
        /\ total_comparisons statistics = List.length df_scores).
Proof.
  intros Htol Hfile. unfold compare_to_baseline. rewrite Hfile. cbv zeta.
  set (merged := merge df_scores (read_parquet f)).
  eexists. eexists. eexists. split; [reflexivity|].
  cbn [regressions_count improvements_count total_comparisons].
  split; [apply length_map|]. split; [apply length_map|]. split; [|split].
  - apply filter_exclusive_length. intros p _ Hp.
    destruct (diff_of p) as [d|]; [|discriminate]. cbn [lt] in *.
    apply Qlt_bool_iff in Hp. apply Qlt_bool_false. lra.
  - intros e He. apply in_map_iff in He. destruct He as (p & <- & Hp).
    apply filter_In in Hp. destruct Hp as [_ Hlt].
    unfold entry_of, diff_of in *. cbn [ch_old_score ch_new_score].
    destruct (score_adjusted (scored (fst p))) as [new|]; [|discriminate].
    destruct (score_adjusted (scored (snd p))) as [old|]; [|discriminate].
    cbn [lift2 lt] in Hlt. apply Qlt_bool_iff in Hlt.
    exists old, new. split; [reflexivity|]. split; [reflexivity|]. lra.
  - intros Hsame Hnd.
    assert (Hpairs : forall p, In p merged -> fst p = snd p).
    { intros p Hp. apply merge_In in Hp. rewrite Hsame in Hp.
      destruct Hp as (Hnew & Hold & Hkey).
      apply (NoDup_map_In_eq merge_key df_scores _ _ Hnd Hnew Hold Hkey). }
    assert (Hdiff : forall p, In p merged ->
               lt (diff_of p) (Some (- tolerance)) = false
               /\ lt (Some tolerance) (diff_of p) = false).
    { intros p Hp. unfold diff_of. rewrite <- (Hpairs p Hp).
      destruct (score_adjusted (scored (fst p))) as [v|]; [|split; reflexivity].
      cbn [lift2 lt]. split; apply Qlt_bool_false; lra. }
    split; [|split].
    + rewrite (ReferenceProps.filter_nil_iff _ merged); [reflexivity|].
      intros p Hp. apply (Hdiff p Hp).
    + rewrite (ReferenceProps.filter_nil_iff _ merged); [reflexivity|].
      intros p Hp. apply (Hdiff p Hp).
    + unfold merged, merge. rewrite Hsame.
      rewrite ValidatorProps.length_flat_map.
      assert (Hone : forall new, In new df_scores ->
                 List.length
                   (map (fun old => (new, old))
                      (List.filter (same_key new) df_scores)) = 1%nat).
      { intros new Hnew. rewrite length_map.
        clear - Hnd Hnew. induction df_scores as [|x l IH]; [destruct Hnew|].
        cbn in Hnd. apply NoDup_cons_iff in Hnd. destruct Hnd as [Hx Hnd].
        cbn [List.filter]. destruct Hnew as [->|Hnew].
        - assert (E : same_key new new = true) by (apply same_key_eq; reflexivity).
          rewrite E. cbn [List.length]. f_equal.
          rewrite (ReferenceProps.filter_nil_iff _ l); [reflexivity|].
          intros b Hb. apply not_true_is_false. intro Hk.
          apply same_key_eq in Hk. apply Hx. rewrite Hk. apply in_map, Hb.
        - assert (E : same_key new x = false).
          { apply not_true_is_false. intro Hk. apply same_key_eq in Hk.
            apply Hx. rewrite <- Hk. apply in_map, Hnew. }
          rewrite E. apply IH; assumption. }
      apply list_sum_ones, Hone.
Qed.

End WithParquet.

Lemma compare_to_baseline_report_witness :
  exists regressions improvements statistics,
    compare_to_baseline sqrt_model (list ranked_score) (fun f => f)
      {["baseline_v1.parquet"%string := earlier_scores]} current_scores "v1" 5
    = Comparison "v1" regressions improvements statistics
    /\ List.length regressions = regressions_count statistics
    /\ List.length improvements = improvements_count statistics
    /\ (regressions_count statistics + improvements_count statistics
        <= total_comparisons statistics)%nat
    /\ (forall e, In e regressions ->
          exists old new, ch_old_score e = Some old /\ ch_new_score e = Some new
                          /\ new < old - 5)
    /\ (earlier_scores = current_scores ->
        NoDup (map merge_key current_scores) ->
        regressions = [] /\ improvements = []
        /\ total_comparisons statistics = List.length current_scores).
Proof.
  apply (compare_to_baseline_report sqrt_model (list ranked_score)
           (fun f => f) {["baseline_v1.parquet"%string := earlier_scores]}
           current_scores "v1" 5 earlier_scores).
  - discriminate.
  - apply lookup_singleton_eq.
Defined.

End StoreProps.

(** ** The Piotroski F-score *)

Module PiotroskiProps.

Import Normalizer Piotroski Cli.

Lemma point_range (cond : bool) : (0 <= point cond <= 1)%Z.
Proof. destruct cond; cbn; lia. Qed.

Ltac bound_points :=
  repeat match goal with
         | |- context [point ?b] =>
             let H := fresh "H" in
             let p := fresh "p" in
             assert (H := point_range b);
             set (p := point b) in *; clearbody p
         end.

(** Nine components, each 0 or 1, and an F-score from 0 to 9; when the
    previous share count is missing or zero the no-dilution point is
    earned. *)
Lemma compute_piotroski_components_range (row : fundamentals)
  (prev_row : option fundamentals) :
  let components := compute_piotroski_components row prev_row in
  List.length components = 9%nat
  /\ Forall (fun kv => snd kv = 0%Z \/ snd kv = 1%Z) components
  /\ (0 <= f_score components <= 9)%Z
  /\ (safe_get prev_row shares_outstanding 0 == 0 ->
      In ("no_dilution"%string, 1%Z) components).
Proof.
  cbv zeta. unfold compute_piotroski_components.
  split; [reflexivity|]. split; [|split].
  - repeat (apply Forall_cons;
            [cbn [snd];
             match goal with |- point ?b = _ \/ _ => destruct b; auto end|]).
    apply Forall_nil.
  - cbn [f_score map fold_right snd]. bound_points. lia.
  - intro Hprev. apply Qeq_bool_iff in Hprev. rewrite Hprev, orb_true_r.
    cbn [point]. do 6 right. left. reflexivity.
Qed.

(** Two rows that follow each other in [consecutive] follow each other
    in the table. *)
Lemma consecutive_split (l : list fundamentals) (a b : fundamentals) :
  In (a, b) (consecutive l) ->
  exists before after, l = (before ++ a :: b :: after)%list.
Proof.
  unfold consecutive. induction l as [|x l IH]; [intros []|].
  destruct l as [|y l']; [intros []|].
  cbn [tl combine]. intros [H|H].
  - injection H as <- <-. exists [], l'. reflexivity.
  - destruct (IH H) as (before & after & Heq).
    exists (x :: before), after. rewrite Heq. reflexivity.
Qed.

Lemma Sorted_middle {A : Type} (R : A -> A -> Prop) (before after : list A)
  (a b : A) :
  Sorted R (before ++ a :: b :: after) -> R a b.
Proof.
  induction before as [|x before IH]; cbn; intro H.
  - apply Sorted_inv in H. destruct H as [_ H]. apply HdRel_inv in H. exact H.
  - apply Sorted_inv in H. apply IH, H.
Qed.

Lemma insert_by_date_perm (x : fundamentals) (l : list fundamentals) :
  Permutation (insert_by_date x l) (x :: l).
Proof.
  induction l as [|y l IH]; [reflexivity|]. cbn.
  destruct (_ <=? _)%Z; [reflexivity|].
  rewrite IH. apply perm_swap.
Qed.

Lemma sort_by_date_perm (l : list fundamentals) :
  Permutation (sort_by_date l) l.
Proof.
  induction l as [|x l IH]; [reflexivity|]. cbn.
  rewrite insert_by_date_perm, IH. reflexivity.
Qed.

Lemma insert_by_date_sorted (x : fundamentals) (l : list fundamentals) :
  by_date l -> by_date (insert_by_date x l).
Proof.
  unfold by_date. induction l as [|y l IH]; intro H; cbn.
  - repeat constructor.
  - destruct (date_effective x <=? date_effective y)%Z eqn:E.
    + constructor; [exact H|]. constructor. apply Z.leb_le, E.
    + apply Z.leb_gt in E. apply Sorted_inv in H. destruct H as [Hl Hy].
      constructor; [apply IH, Hl|].
      destruct l as [|z l]; cbn.
      * constructor. lia.
      * destruct (_ <=? _)%Z; constructor; [lia|].
        apply HdRel_inv in Hy. exact Hy.
Qed.

Lemma sort_by_date_sorted (l : list fundamentals) : by_date (sort_by_date l).
Proof.
  induction l as [|x l IH]; [constructor|]. cbn.
  apply insert_by_date_sorted, IH.
Qed.

(** Every row [compute_all_piotroski_signals] returns is a [piotroski_raw]
    signal of a ticker at the date of one of its rows of the fundamentals
    table, and its raw value is the F-score of that row against the row of
    the same ticker that comes just before it in the order of the dates: a
    whole number from 0 to 9.  [sort_values] sorts: it returns the rows it
    was given, in the order of their dates. *)
Theorem piotroski_signals_are_f_scores
  (sort_values : list fundamentals -> list fundamentals)
  (df_fundamentals : list fundamentals) :
  (forall l, Permutation (sort_values l) l) ->
  (forall l, by_date (sort_values l)) ->
  raw_piotroski_in_range (compute_all_piotroski_signals sort_values df_fundamentals)
  /\ forall r,
       In r (compute_all_piotroski_signals sort_values df_fundamentals) ->
       rs_signal_name r = "piotroski_raw"%string
       /\ exists row prev_row before after,
            sort_values
              (List.filter (fun f => String.eqb (f_ticker f) (rs_ticker r))
                 df_fundamentals)
            = (before ++ prev_row :: row :: after)%list
            /\ In row df_fundamentals /\ In prev_row df_fundamentals
            /\ f_ticker row = rs_ticker r /\ f_ticker prev_row = rs_ticker r
            /\ (date_effective prev_row <= date_effective row)%Z
            /\ rs_date r = date_effective row
            /\ rs_value_raw r
               = Some (inject_Z
                         (f_score (compute_piotroski_components row
                                     (Some prev_row))))
            /\ (0 <= f_score (compute_piotroski_components row (Some prev_row))
                <= 9)%Z.
Proof.
  intros Hperm Hsorted.
  assert (Hrows : forall r,
             In r (compute_all_piotroski_signals sort_values df_fundamentals) ->
             rs_signal_name r = "piotroski_raw"%string
             /\ exists row prev_row before after,
                  sort_values
                    (List.filter (fun f => String.eqb (f_ticker f) (rs_ticker r))
                       df_fundamentals)
                  = (before ++ prev_row :: row :: after)%list
                  /\ In row df_fundamentals /\ In prev_row df_fundamentals
                  /\ f_ticker row = rs_ticker r
                  /\ f_ticker prev_row = rs_ticker r
                  /\ (date_effective prev_row <= date_effective row)%Z
                  /\ rs_date r = date_effective row
                  /\ rs_value_raw r
                     = Some (inject_Z
                               (f_score (compute_piotroski_components row
                                           (Some prev_row))))
                  /\ (0 <= f_score (compute_piotroski_components row
                                      (Some prev_row)) <= 9)%Z).
  { intros r Hr. unfold compute_all_piotroski_signals in Hr.
    destruct df_fundamentals as [|f0 rest] eqn:E; [destruct Hr|].
    rewrite <- E in Hr |- *. clear E f0 rest. unfold signal_piotroski_raw in Hr.
    apply in_flat_map in Hr. destruct Hr as (ticker & _ & Hr).
    cbv zeta in Hr. destruct (_ <? 2)%nat; [destruct Hr|].
    apply in_map_iff in Hr. destruct Hr as ([prev row] & <- & Hpair).
    cbn [rs_signal_name rs_date rs_value_raw rs_ticker fst snd].
    split; [reflexivity|].
    destruct (consecutive_split _ _ _ Hpair) as (before & after & Hsplit).
    assert (Hmember : forall f, In f (before ++ prev :: row :: after) ->
                                In f df_fundamentals /\ f_ticker f = ticker).
    { intros f Hf. rewrite <- Hsplit in Hf.
      apply (Permutation_in _ (Hperm _)) in Hf. apply filter_In in Hf.
      destruct Hf as [Hf Hb]. apply String.eqb_eq in Hb. tauto. }
    assert (Hrow : In row (before ++ prev :: row :: after))
      by (apply in_or_app; right; right; left; reflexivity).
    assert (Hprev : In prev (before ++ prev :: row :: after))
      by (apply in_or_app; right; left; reflexivity).
    exists row, prev, before, after.
    split; [exact Hsplit|].
    split; [apply (Hmember row Hrow)|]. split; [apply (Hmember prev Hprev)|].
    split; [apply (Hmember row Hrow)|]. split; [apply (Hmember prev Hprev)|].
    split.
    { specialize (Hsorted
                    (List.filter (fun r => String.eqb (f_ticker r) ticker)
                       df_fundamentals)).
      unfold by_date in Hsorted. rewrite Hsplit in Hsorted.
      apply (Sorted_middle _ _ _ _ _ Hsorted). }
    split; [reflexivity|]. split; [reflexivity|].
    apply (compute_piotroski_components_range row (Some prev)). }
  split; [|exact Hrows].
  intros r x Hr _ Hx.
  destruct (Hrows r Hr)
    as (_ & row & prev & _ & _ & _ & _ & _ & _ & _ & _ & _ & Hv & H0 & H9).
  rewrite Hv in Hx. injection Hx as <-. split.
  - change 0 with (inject_Z 0). rewrite <- Zle_Qle. exact H0.
  - change 9 with (inject_Z 9). rewrite <- Zle_Qle. exact H9.
Qed.

Lemma piotroski_signals_are_f_scores_witness :
  raw_piotroski_in_range (compute_all_piotroski_signals sort_by_date three_periods)
  /\ forall r,
       In r (compute_all_piotroski_signals sort_by_date three_periods) ->
       rs_signal_name r = "piotroski_raw"%string
       /\ exists row prev_row before after,
            sort_by_date
              (List.filter (fun f => String.eqb (f_ticker f) (rs_ticker r))
                 three_periods)
            = (before ++ prev_row :: row :: after)%list
            /\ In row three_periods /\ In prev_row three_periods
            /\ f_ticker row = rs_ticker r /\ f_ticker prev_row = rs_ticker r
            /\ (date_effective prev_row <= date_effective row)%Z
            /\ rs_date r = date_effective row
            /\ rs_value_raw r
               = Some (inject_Z
                         (f_score (compute_piotroski_components row
                                     (Some prev_row))))
            /\ (0 <= f_score (compute_piotroski_components row (Some prev_row))
                <= 9)%Z.
Proof.
  apply (piotroski_signals_are_f_scores sort_by_date three_periods
           sort_by_date_perm sort_by_date_sorted).
Defined.

(** On the three rows: one signal, for E1 at the date of its second
    period, scored against its first period; E2 has a single period and
    gets no signal. *)
Example piotroski_signals_three_periods :
  compute_all_piotroski_signals sort_by_date three_periods
  = [mk_raw 2 "E1" "piotroski_raw"
       (Some (inject_Z
                (f_score (compute_piotroski_components second_period
                            (Some first_period)))))].
Proof. vm_compute. reflexivity. Qed.

End PiotroskiProps.
